(** * cat-zip: extraction of zip and gzip files with an aggregate copy

    A shallow embedding of [main.go]: the directory scan of [main],
    [handleZip] and [unzipFile], [handleGz] and [copyFileGz], the
    renaming of repeated output paths ([autoRenameRepeatedFiles] and
    the same block inside [unzipFile]) and the double write to the
    entry's own file and to the shared aggregate file [catFile]. The
    repository also keeps an earlier [main] for zip files only; its
    [unzipFile] is the one embedded here.

    - Strings are Go byte strings ([string]); file contents are
      [list byte]; the collision table [unzipedFiles] is a
      [gmap string N] whose counters wrap at 2^64 like Go's [uint].
    - The program runs in a state monad over [World]: the output
      files and directories, the two globals, and the list of effects
      performed. A computation returns a value or halts the process
      ([log.Fatal], [os.Exit], a panic); a Go [error] result is an
      [option error].
    - The scanned directory, the archives and the gzip streams are
      inputs given by an environment [Env], together with the working
      directory and the outcome of every system call on the output
      side. The calls of [log.Printf] are left out. *)

From Stdlib Require Import Strings.String Strings.Ascii Strings.Byte.
From Stdlib Require Import NArith ZArith DecimalString.
From stdpp Require Import gmap strings list fin_maps.

Open Scope string_scope.
Open Scope list_scope.
Open Scope stdpp_scope.
Set Warnings "-register-all".

(** ** Go's [strings] and [path/filepath] (Unix), as used by the program *)

Definition sep : ascii := "/"%char.
Definition dot : ascii := "."%char.

Global Instance byte_eq_dec : EqDecision byte := Byte.byte_eq_dec.

Definition chars (s : string) : list ascii := list_ascii_of_string s.
Definition str (cs : list ascii) : string := string_of_list_ascii cs.

Module gostrings.

(** [strings.HasPrefix(s, prefix)]. *)
Definition HasPrefix (s prefix : string) : bool := String.prefix prefix s.

Fixpoint has_prefix_chars (s p : list ascii) : bool :=
  match p, s with
  | [], _ => true
  | c :: p', d :: s' => bool_decide (c = d) && has_prefix_chars s' p'
  | _ :: _, [] => false
  end.

(** [strings.HasSuffix(s, suffix)]. *)
Definition HasSuffix (s suffix : string) : bool :=
  has_prefix_chars (rev (chars s)) (rev (chars suffix)).

(** [strings.TrimSuffix(s, suffix)]: [s] without the trailing
    [suffix], or [s] itself when it does not end with [suffix]. *)
Definition TrimSuffix (s suffix : string) : string :=
  if HasSuffix s suffix
  then str (take (length (chars s) - length (chars suffix)) (chars s))
  else s.

End gostrings.

Module filepath.

(** The elements of a path: the runs of bytes between separators. *)
Fixpoint split_sep (cs : list ascii) : list (list ascii) :=
  match cs with
  | [] => [[]]
  | c :: r =>
      if bool_decide (c = sep) then [] :: split_sep r
      else match split_sep r with
           | h :: t => (c :: h) :: t
           | [] => [[c]]
           end
  end.

Fixpoint join_sep (elems : list (list ascii)) : list ascii :=
  match elems with
  | [] => []
  | [e] => e
  | e :: rest => e ++ sep :: join_sep rest
  end.

Definition dotdot : list ascii := [dot; dot].

(** The loop of [Clean], element by element. [out] is the output
    written so far, last element first.  An empty element and [.]
    are dropped; [..] removes the last element written unless there
    is none after the [dotdot] mark (the leading slash or a leading
    run of [..]), in which case it is kept for an unrooted path and
    dropped for a rooted one. *)
Fixpoint clean_elems (rooted : bool) (out : list (list ascii))
         (elems : list (list ascii)) : list (list ascii) :=
  match elems with
  | [] => out
  | e :: rest =>
      if bool_decide (e = []) then clean_elems rooted out rest
      else if bool_decide (e = [dot]) then clean_elems rooted out rest
      else if bool_decide (e = dotdot) then
        match out with
        | top :: out' =>
            if bool_decide (top = dotdot)
            then clean_elems rooted (if rooted then out else dotdot :: out) rest
            else clean_elems rooted out' rest
        | [] => clean_elems rooted (if rooted then out else [dotdot]) rest
        end
      else clean_elems rooted (e :: out) rest
  end.

Definition clean_chars (cs : list ascii) : list ascii :=
  match cs with
  | [] => [dot]
  | c :: _ =>
      let rooted := bool_decide (c = sep) in
      let body := join_sep (rev (clean_elems rooted [] (split_sep cs))) in
      match (if rooted then sep :: body else body) with
      | [] => [dot]
      | res => res
      end
  end.

(** [filepath.Clean(path)]. *)
Definition Clean (path : string) : string := str (clean_chars (chars path)).

(** [filepath.Join(a, b)]: the first non-empty argument onwards,
    joined with a separator and cleaned; empty if both are empty. *)
Definition Join (a b : string) : string :=
  if bool_decide (a = "") then
    if bool_decide (b = "") then "" else Clean b
  else Clean (a +:+ "/" +:+ b).

(** The scan of [filepath.Ext] from the end of the path. *)
Fixpoint ext_rev (r acc : list ascii) : list ascii :=
  match r with
  | [] => []
  | c :: r' =>
      if bool_decide (c = sep) then []
      else if bool_decide (c = dot) then c :: acc
      else ext_rev r' (c :: acc)
  end.

(** [filepath.Ext(path)]: the suffix from the last dot of the last
    element, empty if that element has no dot. *)
Definition Ext (path : string) : string := str (ext_rev (rev (chars path)) []).

Fixpoint drop_seps (r : list ascii) : list ascii :=
  match r with
  | c :: r' => if bool_decide (c = sep) then drop_seps r' else r
  | [] => []
  end.

Fixpoint last_elem_rev (r acc : list ascii) : list ascii :=
  match r with
  | [] => acc
  | c :: r' => if bool_decide (c = sep) then acc else last_elem_rev r' (c :: acc)
  end.

(** [filepath.Base(path)]. *)
Definition Base (path : string) : string :=
  match chars path with
  | [] => "."
  | cs =>
      match last_elem_rev (drop_seps (rev cs)) [] with
      | [] => "/"
      | e => str e
      end
  end.

Fixpoint drop_last_elem (r : list ascii) : list ascii :=
  match r with
  | c :: r' => if bool_decide (c = sep) then r else drop_last_elem r'
  | [] => []
  end.

(** [filepath.Dir(path)]: the path up to and including its last
    separator, cleaned. *)
Definition Dir (path : string) : string :=
  str (clean_chars (rev (drop_last_elem (rev (chars path))))).

(** [filepath.IsAbs(path)]. *)
Definition IsAbs (path : string) : bool := gostrings.HasPrefix path "/".

End filepath.

(** ** Errors, process exits and results *)

(** Go [error] values the program can meet. *)
Inductive error :=
| SkipDir                                  (* fs.SkipDir *)
| SkipAll                                  (* fs.SkipAll *)
| ErrInvalid                               (* os.ErrInvalid: a nil *os.File *)
| PathError (op path : string)             (* *fs.PathError of a system call *)
| ErrFormat (path : string)                (* zip or gzip: bad header, data or checksum *)
| ErrGetwd                                 (* os.Getwd failed *)
| ErrInvalidPath (filePath : string).      (* fmt.Errorf("invalid file path: %s") *)

Global Instance error_eq_dec : EqDecision error.
Proof. solve_decision. Defined.

(** The ways the process ends before [main] returns. *)
Inductive exit :=
| LogFatal (msg : string) (e : option error)  (* log.Fatal, log.Fatalf: message, exit status 1 *)
| OsExit (code : N) (printed : option error)  (* os.Exit after flag.Usage or fmt.Println *)
| Panic (what : string).                      (* run-time panic, exit status 2 *)

Inductive result (A : Type) :=
| Ret (a : A)
| Halt (x : exit).
Arguments Ret {A} a.
Arguments Halt {A} x.

(** ** The file system seen by the scan *)

Module fs.

(** The type bits of [fs.FileMode]. *)
Inductive FileType :=
| Regular | Directory | Symlink | NamedPipe | Socket | Device | CharDevice | Irregular.

Global Instance FileType_eq_dec : EqDecision FileType.
Proof. solve_decision. Defined.

Record DirEntry := { Name : string; Typ : FileType }.

Definition IsDir (d : DirEntry) : bool := bool_decide (Typ d = Directory).

End fs.

(** A node of the scanned tree: its directory entry and, for a
    directory, what [os.ReadDir] returns for it: the entries read and
    whether it returns an error with them. [filepath.WalkDir] does not
    follow symbolic links, so only a directory has entries to visit. *)
Inductive tree :=
| Node (d : fs.DirEntry) (entries : list tree) (readFails : bool).

Definition entry_of (t : tree) : fs.DirEntry := match t with Node d _ _ => d end.

(** ** Input files: zip archives and gzip files, already decoded *)

(** A decompressed stream: the bytes it yields and whether reading
    ends with an error after them. *)
Record stream := { sdata : list byte; sfails : bool }.

Module zip.

(** [zip.File]: [f.Name], [f.FileInfo().IsDir()], [f.Mode()] and the
    result of [f.Open()] ([None] when it returns an error). *)
Record File := { Name : string; IsDir : bool; Mode : N; Open : option stream }.

End zip.

(** What opening a path as gzip gives: [os.Open] fails, or
    [gzip.NewReader] fails, or a stream. *)
Inductive gzfile :=
| GzMissing
| GzBadHeader
| GzStream (s : stream).

(** ** Output files *)

Module os.

(** An open [*os.File]: the name it was opened with and whether it
    was opened with [O_APPEND]. A handle without [O_APPEND] is
    written by one [io.Copy] right after it is opened, so its offset
    is 0 when the copy starts. *)
Record File := { Name : string; Append : bool }.

End os.

(** The effects on the output file system, in program order. A write
    records the bytes that reached the file. *)
Inductive event :=
| EvMkdirAll (path : string)
| EvOpenFile (path : string) (append : bool) (perm : N)
| EvWrite (path : string) (append : bool) (data : list byte).

(** The environment of a run. [faulty h e] tells whether the system
    call for [e] fails after the effects [h]: [None] is success,
    [Some k] is failure, for a write after [k] of its bytes. Input
    files are given decoded; output writes are assumed not to change
    them. Paths are identified after resolution against [cwd];
    symbolic and hard links between output paths are not modelled. *)
Record Env := {
  lstatRoot : option tree;                       (* os.Lstat of the -dir directory *)
  OpenReader : string -> option (list zip.File); (* zip.OpenReader *)
  openGz : string -> gzfile;
  cwd : string;
  getwdFails : bool;
  faulty : list event -> event -> option nat
}.

(** The parsed command line. *)
Record Flags := {
  dir : string;
  outdir : string;
  ext : string;
  outdirCatFileName : string;
  help : bool
}.

(** Program state: the output file system, the two globals
    [unzipedFiles] and [catFile], and the effects so far. *)
Record World := {
  files : gmap string (list byte);
  dirs : gset string;
  unzipedFiles : gmap string N;
  catFile : option os.File;
  trace : list event
}.

Definition M (A : Type) : Type := World -> World * result A.

Definition ret {A} (a : A) : M A := fun w => (w, Ret a).

Definition bind {A B} (m : M A) (k : A -> M B) : M B :=
  fun w => match m w with
           | (w', Ret a) => k a w'
           | (w', Halt x) => (w', Halt x)
           end.

Definition halt {A} (x : exit) : M A := fun w => (w, Halt x).

Declare Scope go_scope.
Delimit Scope go_scope with go.
Notation "x <- m ;; k" := (bind m (fun x => k))
  (at level 100, m at next level, right associativity) : go_scope.
Notation "m ;;; k" := (bind m (fun _ => k))
  (at level 100, right associativity) : go_scope.

Fixpoint forEach {A} (l : list A) (body : A -> M unit) : M unit :=
  match l with
  | [] => ret tt
  | a :: rest => (body a ;;; forEach rest body)%go
  end.

Section Program.

Variable env : Env.

(** [filepath.Abs(path)]. *)
Definition Abs (path : string) : string + error :=
  if filepath.IsAbs path then inl (filepath.Clean path)
  else if getwdFails env then inr ErrGetwd
  else inl (filepath.Join (cwd env) path).

(** The file a path names, whatever [os.Getwd] reports. *)
Definition resolve (path : string) : string :=
  if filepath.IsAbs path then filepath.Clean path
  else filepath.Join (cwd env) path.

(** A resolved path and the directories above it: the path cut before
    each of its separators, and the path itself. *)
Fixpoint dir_prefixes (seen rest : list ascii) : list string :=
  match rest with
  | [] => [str (rev seen)]
  | c :: rest' =>
      if bool_decide (c = sep)
      then str (if bool_decide (seen = []) then [sep] else rev seen)
             :: dir_prefixes (c :: seen) rest'
      else dir_prefixes (c :: seen) rest'
  end.

Definition ancestors (key : string) : list string := dir_prefixes [] (chars key).

(** The bytes of a file after [data] is written through a handle:
    at the end with [O_APPEND], from offset 0 otherwise. *)
Definition written (append : bool) (old data : list byte) : list byte :=
  if append then old ++ data else data ++ drop (length data) old.

(** What an effect does to the files: opening with [O_CREATE|O_TRUNC]
    leaves the file empty, a write changes its bytes. *)
Definition effect_files (e : event) (fsm : gmap string (list byte))
  : gmap string (list byte) :=
  match e with
  | EvMkdirAll _ => fsm
  | EvOpenFile name _ _ => <[resolve name := []]> fsm
  | EvWrite name append data =>
      <[resolve name := written append (default [] (fsm !! resolve name)) data]> fsm
  end.

(** What an effect does to the directories. *)
Definition effect_dirs (e : event) (ds : gset string) : gset string :=
  match e with
  | EvMkdirAll path => ds ∪ list_to_set (ancestors (resolve path))
  | _ => ds
  end.

Definition perform (e : event) (w : World) : World :=
  {| files := effect_files e (files w); dirs := effect_dirs e (dirs w);
     unzipedFiles := unzipedFiles w; catFile := catFile w;
     trace := trace w ++ [e] |}.

(** [os.MkdirAll(path, os.ModePerm)]. *)
Definition MkdirAll (path : string) : M (option error) := fun w =>
  match faulty env (trace w) (EvMkdirAll path) with
  | Some _ => (w, Ret (Some (PathError "mkdir" path)))
  | None => (perform (EvMkdirAll path) w, Ret None)
  end.

(** [os.OpenFile(name, O_WRONLY|O_CREATE|O_TRUNC [|O_APPEND], perm)]. *)
Definition OpenFile (name : string) (append : bool) (perm : N)
  : M (os.File + error) := fun w =>
  match faulty env (trace w) (EvOpenFile name append perm) with
  | Some _ => (w, Ret (inr (PathError "open" name)))
  | None =>
      (perform (EvOpenFile name append perm) w,
       Ret (inl {| os.Name := name; os.Append := append |}))
  end.

Definition put (f : os.File) (data : list byte) : World -> World :=
  perform (EvWrite (os.Name f) (os.Append f) data).

(** [io.Copy(dst, src)] with [dst] an [*os.File]: a nil file gives
    [os.ErrInvalid]; a write fault leaves the bytes written before
    it; a read error of the source comes after its bytes. *)
Definition ioCopyTo (dst : option os.File) (src : stream) (srcName : string)
  : M (option error) := fun w =>
  match dst with
  | None => (w, Ret (Some ErrInvalid))
  | Some f =>
      match faulty env (trace w) (EvWrite (os.Name f) (os.Append f) (sdata src)) with
      | Some k => (put f (take k (sdata src)) w, Ret (Some (PathError "write" (os.Name f))))
      | None =>
          (put f (sdata src) w,
           Ret (if sfails src then Some (ErrFormat srcName) else None))
      end
  end.

(** [f.WriteString(s)]. *)
Definition WriteString (dst : option os.File) (data : list byte)
  : M (option error) :=
  ioCopyTo dst {| sdata := data; sfails := false |} "".

Definition newline : list byte := [Byte.x0a].

End Program.

(** ** [filepath.WalkDir] *)

Section WalkDir.

Context {S : Type}.

(** [fs.WalkDirFunc], with the state the closure captures. *)
Definition WalkDirFunc : Type :=
  string -> option fs.DirEntry -> option error -> S -> S * result (option error).

Definition skipped (err : error) (d : fs.DirEntry) : option error :=
  if bool_decide (err = SkipDir) && fs.IsDir d then None else Some err.

(** [walkDir(path, d, fn)]: the callback on the entry; for a
    directory then [os.ReadDir], a second callback on its error, and
    the entries in the order read. *)
Fixpoint walkDir (path : string) (t : tree) (fn : WalkDirFunc) (s : S)
  : S * result (option error) :=
  match t with
  | Node d entries readFails =>
      match fn path (Some d) None s with
      | (s1, Halt x) => (s1, Halt x)
      | (s1, Ret (Some err)) => (s1, Ret (skipped err d))
      | (s1, Ret None) =>
          if negb (fs.IsDir d) then (s1, Ret None)
          else
            match (if readFails
                   then fn path (Some d) (Some (PathError "readdir" path)) s1
                   else (s1, Ret None)) with
            | (s2, Halt x) => (s2, Halt x)
            | (s2, Ret (Some err)) => (s2, Ret (skipped err d))
            | (s2, Ret None) =>
                (fix walkEntries (ds : list tree) (s : S) : S * result (option error) :=
                   match ds with
                   | [] => (s, Ret None)
                   | d1 :: rest =>
                       match walkDir (filepath.Join path (fs.Name (entry_of d1))) d1 fn s with
                       | (s', Halt x) => (s', Halt x)
                       | (s', Ret (Some err)) =>
                           if bool_decide (err = SkipDir) then (s', Ret None)
                           else (s', Ret (Some err))
                       | (s', Ret None) => walkEntries rest s'
                       end
                   end) entries s2
            end
      end
  end.

(** The loop of [walkDir] over the entries of one directory. *)
Definition walkEntries (path : string) (fn : WalkDirFunc)
  : list tree -> S -> S * result (option error) :=
  fix walkEntries (ds : list tree) (s : S) : S * result (option error) :=
    match ds with
    | [] => (s, Ret None)
    | d1 :: rest =>
        match walkDir (filepath.Join path (fs.Name (entry_of d1))) d1 fn s with
        | (s', Halt x) => (s', Halt x)
        | (s', Ret (Some err)) =>
            if bool_decide (err = SkipDir) then (s', Ret None)
            else (s', Ret (Some err))
        | (s', Ret None) => walkEntries rest s'
        end
    end.

(** [filepath.WalkDir(root, fn)]. *)
Definition WalkDir (lstat : option tree) (root : string) (fn : WalkDirFunc) (s : S)
  : S * result (option error) :=
  match (match lstat with
         | None => fn root None (Some (PathError "lstat" root)) s
         | Some t => walkDir root t fn s
         end) with
  | (s', Ret (Some err)) =>
      if bool_decide (err = SkipDir) || bool_decide (err = SkipAll)
      then (s', Ret None) else (s', Ret (Some err))
  | r => r
  end.

End WalkDir.

(** ** The program *)

Section Main.

Variable env : Env.

(** The closure passed to [filepath.WalkDir] in [main]; its state is
    the captured slice [filesInDir]. *)
Definition scanFn (ext : string) : WalkDirFunc (S := list string) :=
  fun path d err filesInDir =>
    match err with
    | Some e => (filesInDir, Ret (Some e))
    | None =>
        match d with
        | None => (filesInDir, Halt (Panic "nil pointer dereference"))
        | Some d =>
            if fs.IsDir d then (filesInDir, Ret None)
            else if bool_decide (filepath.Ext (fs.Name d) = ext)
                 then (filesInDir ++ [path], Ret None)
                 else (filesInDir, Ret None)
        end
    end.

(** [%d] of a [uint]. *)
Definition decimal (n : N) : string := NilZero.string_of_uint (N.to_uint n).

(** The renaming block shared by [autoRenameRepeatedFiles] and
    [unzipFile]: directory and extension kept, the file name without
    extension followed by the counter in parentheses. The slice
    [fileName[:len(fileName)-len(ext)]] panics when out of range. *)
Definition renamedPath (filePath : string) (counter : N) : result string :=
  let dir := filepath.Dir filePath in
  let ext := filepath.Ext filePath in
  let fileName := filepath.Base filePath in
  if (String.length ext <=? String.length fileName)%nat then
    let fileName := String.substring 0 (String.length fileName - String.length ext) fileName in
    let fileName := fileName +:+ "(" +:+ decimal counter +:+ ")" +:+ ext in
    Ret (filepath.Join dir fileName)
  else Halt (Panic "slice bounds out of range").

Definition autoRenameRepeatedFiles (filePath : string) : M string := fun w =>
  match unzipedFiles w !! filePath with
  | Some counter => (w, renamedPath filePath counter)
  | None => (w, Ret filePath)
  end.

Definition uint_max : N := 2 ^ 64.

(** [unzipedFiles[filePath] += 1]. *)
Definition increment (filePath : string) : M unit := fun w =>
  ({| files := files w; dirs := dirs w;
      unzipedFiles :=
        <[filePath := ((default 0 (unzipedFiles w !! filePath) + 1) mod uint_max)%N]>
          (unzipedFiles w);
      catFile := catFile w; trace := trace w |}, Ret tt).

Definition getCatFile : M (option os.File) := fun w => (w, Ret (catFile w)).

Definition setCatFile (f : option os.File) : M unit := fun w =>
  ({| files := files w; dirs := dirs w; unzipedFiles := unzipedFiles w;
      catFile := f; trace := trace w |}, Ret tt).

(** [copyToFile(f, destinationFile)]: [f.Open()], then
    [destinationFile.Name()], which panics on a nil file, then the
    copy. *)
Definition copyToFile (f : zip.File) (destinationFile : option os.File)
  : M (option error) :=
  match zip.Open f with
  | None => ret (Some (ErrFormat (zip.Name f)))
  | Some zippedFile =>
      match destinationFile with
      | None => halt (Panic "nil pointer dereference")
      | Some _ => ioCopyTo env destinationFile zippedFile (zip.Name f)
      end
  end.

Definition unzipFile (f : zip.File) (destination : string) : M (option error) :=
  let filePath := filepath.Join destination (zip.Name f) in
  if negb (gostrings.HasPrefix filePath (filepath.Clean destination +:+ "/"))
  then ret (Some (ErrInvalidPath filePath))
  else if zip.IsDir f then MkdirAll env filePath
  else
    (err <- MkdirAll env (filepath.Dir filePath) ;;
     match err with
     | Some e => ret (Some e)
     | None =>
         table <- (fun w => (w, Ret (unzipedFiles w))) ;;
         filePath <- (match table !! filePath with
                      | Some counter => (fun w => (w, renamedPath filePath counter))
                      | None => ret filePath
                      end) ;;
         opened <- OpenFile env filePath false (zip.Mode f) ;;
         match opened with
         | inr e => ret (Some e)
         | inl destinationFile =>
             err <- copyToFile f (Some destinationFile) ;;
             match err with
             | Some e => ret (Some e)
             | None =>
                 cat <- getCatFile ;;
                 err <- copyToFile f cat ;;
                 match err with
                 | Some e => ret (Some e)
                 | None =>
                     WriteString env cat newline ;;;
                     increment filePath ;;;
                     ret None
                 end
             end
         end
     end)%go.

(** The inner loop of [handleZip] over the entries of one archive. *)
Definition unzipEntries (reader : list zip.File) (destination : string) : M unit :=
  forEach reader (fun f =>
    (err <- unzipFile f destination ;;
     match err with
     | Some e => halt (LogFatal "Unable to to unzip file inside archive: " (Some e))
     | None => ret tt
     end)%go).

Definition handleZip (filesInDir : list string) (ext outdir : string) : M unit :=
  forEach filesInDir (fun f =>
    match OpenReader env f with
    | None => halt (LogFatal ("Unable to read " +:+ ext +:+ " file ") None)
    | Some reader =>
        match Abs env outdir with
        | inr _ => halt (LogFatal ("Unable to find absolute path for dir " +:+ outdir +:+ " ") None)
        | inl destination => unzipEntries reader destination
        end
    end).

(** [copyFileGz(gzFilename, newFilename, writer)]. *)
Definition copyFileGz (gzFilename newFilename : string) (writer : option os.File)
  : M (option error) :=
  match openGz env gzFilename with
  | GzMissing => halt (OsExit 1 (Some (PathError "open" gzFilename)))
  | GzBadHeader => ret (Some (ErrFormat gzFilename))
  | GzStream reader => ioCopyTo env writer reader gzFilename
  end.

Definition fatal (e : error) : M unit := halt (LogFatal "" (Some e)).

(** The body of the loop of [handleGz]. *)
Definition extractGz (gzFilename : string) : M unit :=
  (let newFilename := gostrings.TrimSuffix gzFilename ".gz" in
   newFilename <- autoRenameRepeatedFiles newFilename ;;
   created <- OpenFile env newFilename false 438 ;;
   match created with
   | inr e => fatal e
   | inl writer =>
       err <- copyFileGz gzFilename newFilename (Some writer) ;;
       match err with
       | Some e => fatal e
       | None =>
           cat <- getCatFile ;;
           err <- copyFileGz gzFilename newFilename cat ;;
           match err with
           | Some e => fatal e
           | None => WriteString env cat newline ;;; ret tt
           end
       end
   end)%go.

Definition handleGz (filesInDir : list string) (ext outdir : string) : M unit :=
  forEach filesInDir extractGz.

Definition main (fl : Flags) : M unit :=
  if help fl then halt (OsExit 0 None)
  else
    match WalkDir (lstatRoot env) (dir fl) (scanFn (ext fl)) [] with
    | (_, Halt x) => halt x
    | (filesInDir, Ret _) =>
        (let catFilePath := filepath.Join (outdir fl) (outdirCatFileName fl) in
         opened <- OpenFile env catFilePath true 420 ;;
         setCatFile (match opened with inl f => Some f | inr _ => None end) ;;;
         if bool_decide (filepath.Ext (ext fl) = ".gz")
         then handleGz filesInDir (ext fl) (outdir fl)
         else handleZip filesInDir (ext fl) (outdir fl))%go
    end.

(** The state at process start: the globals as initialised, the
    output file system as found. *)
Definition start (files0 : gmap string (list byte)) (dirs0 : gset string) : World :=
  {| files := files0; dirs := dirs0; unzipedFiles := ∅; catFile := None; trace := [] |}.

Definition run (fl : Flags) (files0 : gmap string (list byte)) (dirs0 : gset string)
  : World * result unit :=
  main fl (start files0 dirs0).

End Main.

(** ** Notions the properties are stated with *)

(** [filePath] lies strictly below [destination]: the cleaned root and
    a separator, followed by at least one more byte. *)
Definition within (destination filePath : string) : Prop :=
  exists rest, rest <> "" /\ filePath = filepath.Clean destination +:+ "/" +:+ rest.

(** The entries of a tree with their paths, a directory before its
    entries, the entries in the order [os.ReadDir] gives them. *)
Fixpoint listing (path : string) (t : tree) : list (string * fs.DirEntry) :=
  match t with
  | Node d entries _ =>
      (path, d) ::
      (if fs.IsDir d then
         (fix below (ds : list tree) : list (string * fs.DirEntry) :=
            match ds with
            | [] => []
            | d1 :: rest =>
                listing (filepath.Join path (fs.Name (entry_of d1))) d1 ++ below rest
            end) entries
       else [])
  end.

Definition below (path : string) : list tree -> list (string * fs.DirEntry) :=
  fix below (ds : list tree) : list (string * fs.DirEntry) :=
    match ds with
    | [] => []
    | d1 :: rest => listing (filepath.Join path (fs.Name (entry_of d1))) d1 ++ below rest
    end.

(** No directory of the tree fails to be read. *)
Fixpoint readable (t : tree) : bool :=
  match t with
  | Node d entries readFails =>
      negb (fs.IsDir d) ||
      (negb readFails &&
       (fix all (ds : list tree) : bool :=
          match ds with
          | [] => true
          | d1 :: rest => readable d1 && all rest
          end) entries)
  end.

Definition allReadable : list tree -> bool :=
  fix all (ds : list tree) : bool :=
    match ds with
    | [] => true
    | d1 :: rest => readable d1 && all rest
    end.

(** The test of the scan: not a directory, and the extension of the
    name is the filter. *)
Definition matches (ext : string) (pd : string * fs.DirEntry) : bool :=
  negb (fs.IsDir (snd pd)) && bool_decide (filepath.Ext (fs.Name (snd pd)) = ext).

Definition selection (ext : string) (l : list (string * fs.DirEntry)) : list string :=
  map fst (List.filter (matches ext) l).

(** The paths the scan of [main] hands to the extractor. *)
Definition scanned (env : Env) (fl : Flags) : list string :=
  fst (WalkDir (lstatRoot env) (dir fl) (scanFn (ext fl)) []).

(** The entries of a tree as [listing] has them, each with a mark
    telling whether it is a directory that [os.ReadDir] fails on: at
    such a directory the walk meets a traversal error. *)
Fixpoint marked (path : string) (t : tree) : list (string * fs.DirEntry * bool) :=
  match t with
  | Node d entries readFails =>
      (path, d, fs.IsDir d && readFails) ::
      (if fs.IsDir d then
         (fix markedBelow (ds : list tree) : list (string * fs.DirEntry * bool) :=
            match ds with
            | [] => []
            | d1 :: rest =>
                marked (filepath.Join path (fs.Name (entry_of d1))) d1 ++ markedBelow rest
            end) entries
       else [])
  end.

Definition markedBelow (path : string) : list tree -> list (string * fs.DirEntry * bool) :=
  fix markedBelow (ds : list tree) : list (string * fs.DirEntry * bool) :=
    match ds with
    | [] => []
    | d1 :: rest =>
        marked (filepath.Join path (fs.Name (entry_of d1))) d1 ++ markedBelow rest
    end.

(** A list up to its first marked element, that element included. *)
Fixpoint upto_error {A} (l : list (A * bool)) : list A :=
  match l with
  | [] => []
  | (a, true) :: _ => [a]
  | (a, false) :: rest => a :: upto_error rest
  end.

Definition unmarked {A} (l : list (A * bool)) : bool := forallb (fun x => negb (snd x)) l.

(** The entries the walk visits: the listing up to the first
    directory that cannot be read. *)
Definition visited (path : string) (t : tree) : list (string * fs.DirEntry) :=
  upto_error (marked path t).

(** The names strictly increase, byte by byte. *)
Fixpoint increasing (names : list string) : bool :=
  match names with
  | a :: (b :: _) as rest => String.ltb a b && increasing rest
  | _ => true
  end.

(** [os.ReadDir] returns the entries of a directory sorted by file
    name: a tree lists every directory in that order. *)
Fixpoint sortedTree (t : tree) : bool :=
  match t with
  | Node _ entries _ =>
      increasing (map (fun e => fs.Name (entry_of e)) entries) && forallb sortedTree entries
  end.

(** The outcome of the walk with the closure of [main] on a tree:
    the selection among the entries visited, and an error of a system
    call exactly when a directory could not be read. *)
Definition scan_upto (acc : list string) (ext : string)
    (l : list (string * fs.DirEntry * bool))
    (r : list string * result (option error)) : Prop :=
  fst r = acc ++ selection ext (upto_error l) /\
  ((unmarked l = true /\ snd r = Ret None)
   \/ (unmarked l = false /\ exists op p, snd r = Ret (Some (PathError op p)))).

(** The reading of the scan that admits regular files only. *)
Definition selects_only_regular (env : Env) (fl : Flags) (t : tree) : Prop :=
  forall p, p ∈ scanned env fl ->
    exists d, (p, d) ∈ listing (dir fl) t /\ fs.Typ d = fs.Regular.

(** The file system after a sequence of effects. *)
Definition replay (env : Env) (evs : list event) (fsm : gmap string (list byte))
  : gmap string (list byte) :=
  fold_left (fun m e => effect_files env e m) evs fsm.

Definition is_write (e : event) : bool :=
  match e with EvWrite _ _ _ => true | _ => false end.

(** The output files created for entries, in order. *)
Definition outputs (tr : list event) : list string :=
  omap (fun e => match e with EvOpenFile p false _ => Some p | _ => None end) tr.

(** Every path opened, the aggregate file included. *)
Definition openedPaths (tr : list event) : list string :=
  omap (fun e => match e with EvOpenFile p _ _ => Some p | _ => None end) tr.

Definition nofault (env : Env) : Prop := forall h e, faulty env h e = None.

Definition payload (f : zip.File) : list byte :=
  match zip.Open f with Some s => sdata s | None => [] end.

(** The decompressed contents the run is to extract, in discovery
    order: the non-directory entries of each archive, or the stream
    of each gzip file. *)
Definition zipPayloads (env : Env) (filesInDir : list string) : list (list byte) :=
  flat_map (fun a =>
    match OpenReader env a with
    | Some reader => flat_map (fun f => if zip.IsDir f then [] else [payload f]) reader
    | None => []
    end) filesInDir.

Definition gzPayload (env : Env) (g : string) : list byte :=
  match openGz env g with GzStream s => sdata s | _ => [] end.

Definition gzPayloads (env : Env) (filesInDir : list string) : list (list byte) :=
  map (gzPayload env) filesInDir.

Definition payloads (env : Env) (fl : Flags) : list (list byte) :=
  if bool_decide (filepath.Ext (ext fl) = ".gz")
  then gzPayloads env (scanned env fl)
  else zipPayloads env (scanned env fl).

(** The writes one extracted payload causes. *)
Definition entryWrites (cat : string) (p : string) (d : list byte) : list event :=
  [EvWrite p false d; EvWrite cat true d; EvWrite cat true newline].

Definition catFilePath (fl : Flags) : string :=
  filepath.Join (outdir fl) (outdirCatFileName fl).

(** What an effect does to the one file [key]. *)
Definition effect_at (env : Env) (key : string) (e : event) (o : option (list byte))
  : option (list byte) :=
  match e with
  | EvMkdirAll _ => o
  | EvOpenFile name _ _ => if bool_decide (resolve env name = key) then Some [] else o
  | EvWrite name append data =>
      if bool_decide (resolve env name = key)
      then Some (written append (default [] o) data) else o
  end.

(** The effects of a fault-free extraction into the aggregate file
    named [cat]: directory creations, and for each payload its output
    file opened and written once, then the aggregate file appended
    with the payload and with a newline. The output paths and the
    payloads are listed in order. *)
Inductive extracted (cat : string)
  : list event -> list string -> list (list byte) -> Prop :=
| extracted_nil : extracted cat [] [] []
| extracted_mkdir path evs ps ds :
    extracted cat evs ps ds ->
    extracted cat (EvMkdirAll path :: evs) ps ds
| extracted_entry p perm d evs ps ds :
    extracted cat evs ps ds ->
    extracted cat (EvOpenFile p false perm :: entryWrites cat p d ++ evs) (p :: ps) (d :: ds).

(** What the program reads of its state: the two globals and the
    effects so far (through the outcome of system calls). It never
    reads back the files it writes. *)
Definition ctl (w : World) : gmap string N * option os.File * list event :=
  (unzipedFiles w, catFile w, trace w).

(** A computation only adds effects, and the files are those effects
    applied to the files before. *)
Definition tracks (env : Env) {A} (m : M A) : Prop :=
  forall w, exists evs,
    trace (fst (m w)) = trace w ++ evs /\
    files (fst (m w)) = replay env evs (files w).

(** A computation's result and what it leaves to read depend only on
    what the program reads. *)
Definition oblivious {A} (m : M A) : Prop :=
  forall w1 w2, ctl w1 = ctl w2 ->
    snd (m w1) = snd (m w2) /\ ctl (fst (m w1)) = ctl (fst (m w2)).

(** What the walk with the closure of [main] gives on a tree: all of
    the selection and no error, or, when some directory cannot be
    read, an error of a system call and the part of the selection
    found before it. *)
Definition scan_ok (acc sel : list string) (ok : bool)
    (r : list string * result (option error)) : Prop :=
  (ok = true /\ r = (acc ++ sel, Ret None))
  \/ (ok = false /\
      exists k op p, r = (acc ++ take k sel, Ret (Some (PathError op p)))).

(** The reading of the aggregate property that asks only for distinct
    output paths among the entries. *)
Definition aggregate_claim (env : Env) (fl : Flags)
    (files0 : gmap string (list byte)) (dirs0 : gset string) : Prop :=
  forall w, run env fl files0 dirs0 = (w, Ret tt) ->
    NoDup (map (resolve env) (outputs (trace w))) ->
    files w !! resolve env (catFilePath fl) =
    Some (concat (map (fun d => d ++ newline) (payloads env fl))).

(** Two computations that do the same from every state. *)
Definition same {A} (m1 m2 : M A) : Prop := forall w, m1 w = m2 w.

(** What the determinism property fixes: the scanned tree and the
    contents of the input files. *)
Definition same_inputs (env1 env2 : Env) : Prop :=
  lstatRoot env1 = lstatRoot env2
  /\ (forall p, OpenReader env1 p = OpenReader env2 p)
  /\ (forall p, openGz env1 p = openGz env2 p).

(** The runs are started from the same working directory. *)
Definition same_place (env1 env2 : Env) : Prop :=
  cwd env1 = cwd env2 /\ getwdFails env1 = getwdFails env2.

(** The system calls on the output side have the same outcomes. *)
Definition same_outcomes (env1 env2 : Env) : Prop :=
  forall h e, faulty env1 h e = faulty env2 h e.

(** Two runs create the same files with the same bytes. *)
Definition same_outputs (env1 env2 : Env) (w1 w2 : World) : Prop :=
  openedPaths (trace w1) = openedPaths (trace w2)
  /\ forall p, p ∈ openedPaths (trace w1) ->
       files w1 !! resolve env1 p = files w2 !! resolve env2 p.

(** The reading of the determinism property that fixes the input
    directory, the input files, the flags and the working directory,
    and nothing of the output side. *)
Definition deterministic_claim : Prop :=
  forall env1 env2 fl files1 dirs1 files2 dirs2,
    same_inputs env1 env2 -> same_place env1 env2 ->
    same_outputs env1 env2 (fst (run env1 fl files1 dirs1))
                           (fst (run env2 fl files2 dirs2)).

(** A computation leaves the collision table as it found it. *)
Definition keeps_table {A} (m : M A) : Prop :=
  forall w, unzipedFiles (fst (m w)) = unzipedFiles w.

(** An element of a cleaned path: not empty, without separator. *)
Definition elem_ok (e : list ascii) : Prop := e <> [] /\ sep ∉ e.

(** ** Concrete inputs *)

Definition bytes (s : string) : list byte := list_byte_of_string s.

Definition noFaults : list event -> event -> option nat := fun _ _ => None.

Definition regular (name : string) : tree :=
  Node {| fs.Name := name; fs.Typ := fs.Regular |} [] false.

Definition symlink (name : string) : tree :=
  Node {| fs.Name := name; fs.Typ := fs.Symlink |} [] false.

Definition directory (name : string) (entries : list tree) : tree :=
  Node {| fs.Name := name; fs.Typ := fs.Directory |} entries false.

Definition unreadable (name : string) : tree :=
  Node {| fs.Name := name; fs.Typ := fs.Directory |} [] true.

Definition zipEntry (name content : string) : zip.File :=
  {| zip.Name := name; zip.IsDir := false; zip.Mode := 420;
     zip.Open := Some {| sdata := bytes content; sfails := false |} |}.

Definition zipDir (name : string) : zip.File :=
  {| zip.Name := name; zip.IsDir := true; zip.Mode := 493;
     zip.Open := Some {| sdata := []; sfails := false |} |}.

Definition noGz : string -> gzfile := fun _ => GzMissing.

Definition zipFlags (outdir : string) : Flags :=
  {| dir := "in"; outdir := outdir; ext := ".zip";
     outdirCatFileName := "unknown_blob"; help := false |}.

Definition gzFlags (outdir : string) : Flags :=
  {| dir := "in"; outdir := outdir; ext := ".gz";
     outdirCatFileName := "unknown_blob"; help := false |}.

(** Three archives, each with one file [a.txt]. *)
Definition threeArchives : Env :=
  {| lstatRoot := Some (directory "in" [regular "a.zip"; regular "b.zip"; regular "c.zip"]);
     OpenReader := fun p =>
       if bool_decide (p = "in/a.zip") then Some [zipEntry "a.txt" "A1"]
       else if bool_decide (p = "in/b.zip") then Some [zipEntry "a.txt" "A2"]
       else if bool_decide (p = "in/c.zip") then Some [zipEntry "a.txt" "A3"]
       else None;
     openGz := noGz; cwd := "/w"; getwdFails := false; faulty := noFaults |}.

(** Two archives, each with one file [a.txt]; a text file beside them. *)
Definition twoArchives : Env :=
  {| lstatRoot := Some (directory "in" [regular "a.zip"; regular "b.zip"; regular "n.txt"]);
     OpenReader := fun p =>
       if bool_decide (p = "in/a.zip") then Some [zipEntry "a.txt" "A1"]
       else if bool_decide (p = "in/b.zip") then Some [zipEntry "a.txt" "A2"]
       else None;
     openGz := noGz; cwd := "/w"; getwdFails := false; faulty := noFaults |}.

(** One archive whose second entry leaves the output directory. *)
Definition slipArchive : list zip.File :=
  [zipEntry "ok.txt" "fine"; zipEntry "../evil.txt" "bad"; zipEntry "late.txt" "never"].

Definition slipEnv : Env :=
  {| lstatRoot := Some (directory "in" [regular "a.zip"]);
     OpenReader := fun p => if bool_decide (p = "in/a.zip") then Some slipArchive else None;
     openGz := noGz; cwd := "/w"; getwdFails := false; faulty := noFaults |}.

(** The state of [main] once the aggregate file is open. *)
Definition aggregateOpen (name : string) : World :=
  {| files := {[ "/w/" +:+ name := [] ]}; dirs := ∅; unzipedFiles := ∅;
     catFile := Some {| os.Name := name; os.Append := true |};
     trace := [EvOpenFile name true 420] |}.

(** One archive with a directory entry and a file below it. *)
Definition dirEnv : Env :=
  {| lstatRoot := Some (directory "in" [regular "a.zip"]);
     OpenReader := fun p =>
       if bool_decide (p = "in/a.zip") then Some [zipDir "sub/"; zipEntry "sub/x.txt" "X"]
       else None;
     openGz := noGz; cwd := "/w"; getwdFails := false; faulty := noFaults |}.

(** One archive whose only entry has the name of the aggregate file;
    the output directory is the working directory. *)
Definition blobEnv : Env :=
  {| lstatRoot := Some (directory "in" [regular "a.zip"]);
     OpenReader := fun p =>
       if bool_decide (p = "in/a.zip") then Some [zipEntry "unknown_blob" "X"] else None;
     openGz := noGz; cwd := "/w"; getwdFails := false; faulty := noFaults |}.

(** A directory with a gzip file, a symbolic link of a matching name,
    a directory of a matching name and names that differ in case or
    carry a further extension. *)
Definition mixedTree : tree :=
  directory "in"
    [regular "a.gz"; regular "c.GZ"; directory "d.gz" [regular "b.gz"];
     regular "e.gz.bak"; regular "f.tar.gz"; symlink "l.gz"].

Definition mixedEnv : Env :=
  {| lstatRoot := Some mixedTree; OpenReader := fun _ => None;
     openGz := fun _ => GzStream {| sdata := bytes "hi"; sfails := false |};
     cwd := "/w"; getwdFails := false; faulty := noFaults |}.

(** The gzip file of the specification's example. *)
Definition csvEnv : Env :=
  {| lstatRoot := Some (directory "in" [regular "data.csv.gz"]);
     OpenReader := fun _ => None;
     openGz := fun p =>
       if bool_decide (p = "in/data.csv.gz")
       then GzStream {| sdata := bytes "x,y
1,2
"; sfails := false |}
       else GzMissing;
     cwd := "/w"; getwdFails := false; faulty := noFaults |}.

(** Two gzip streams under one name. *)
Definition gzTwiceEnv : Env :=
  {| lstatRoot := Some (directory "in" [regular "a.gz"]);
     OpenReader := fun _ => None;
     openGz := fun p =>
       if bool_decide (p = "in/a.gz")
       then GzStream {| sdata := bytes "one"; sfails := false |}
       else GzMissing;
     cwd := "/w"; getwdFails := false; faulty := noFaults |}.

(** A gzip file found before a directory that cannot be read. *)
Definition unreadableEnv : Env :=
  {| lstatRoot := Some (directory "in" [regular "a.gz"; unreadable "sub"; regular "z.gz"]);
     OpenReader := fun _ => None;
     openGz := fun p =>
       if bool_decide (p = "in/a.gz")
       then GzStream {| sdata := bytes "hi"; sfails := false |}
       else GzMissing;
     cwd := "/w"; getwdFails := false; faulty := noFaults |}.

(** The aggregate file cannot be created. *)
Definition aggregateFails : list event -> event -> option nat :=
  fun _ e => match e with EvOpenFile _ true _ => Some 0%nat | _ => None end.

(** A regular file stands where the output directory is to be:
    [os.MkdirAll] and every [os.OpenFile] below it fail. *)
Definition outdirIsFile : list event -> event -> option nat :=
  fun _ e =>
    match e with
    | EvMkdirAll _ | EvOpenFile _ _ _ => Some 0%nat
    | EvWrite _ _ _ => None
    end.

(** The newline after a payload cannot be written. *)
Definition newlineFails : list event -> event -> option nat :=
  fun _ e =>
    match e with
    | EvWrite _ true data => if bool_decide (data = newline) then Some 0%nat else None
    | _ => None
    end.

Definition emptyDirEnv (faults : list event -> event -> option nat) : Env :=
  {| lstatRoot := Some (directory "in" []);
     OpenReader := fun _ => None; openGz := noGz;
     cwd := "/w"; getwdFails := false; faulty := faults |}.

Definition withFaults (env : Env) (faults : list event -> event -> option nat) : Env :=
  {| lstatRoot := lstatRoot env; OpenReader := OpenReader env; openGz := openGz env;
     cwd := cwd env; getwdFails := getwdFails env; faulty := faults |}.

(** ** Notions for the further properties *)

(** A proper element of a path: not empty, without separator, and
    neither [.] nor [..]. *)
Definition real (e : list ascii) : Prop :=
  e <> [] /\ (sep ∉ e) /\ e <> [dot] /\ e <> filepath.dotdot.

(** The rooted path with the given elements. *)
Definition rooted_path (elems : list (list ascii)) : list ascii :=
  sep :: filepath.join_sep elems.

(** The path [unzipFile] opens for the requested [filePath]: the path
    itself when the table does not hold it, the renamed path
    otherwise. *)
Definition target (table : gmap string N) (filePath p : string) : Prop :=
  match table !! filePath with
  | Some counter => renamedPath filePath counter = Ret p
  | None => p = filePath
  end.

(** The effects of [unzipFile] on a non-directory entry, up to the
    point where it stops. *)
Inductive entry_trace (dirPath p : string) (perm : N) (cat : option os.File)
  : list event -> Prop :=
| entry_trace_none : entry_trace dirPath p perm cat []
| entry_trace_mkdir : entry_trace dirPath p perm cat [EvMkdirAll dirPath]
| entry_trace_open :
    entry_trace dirPath p perm cat [EvMkdirAll dirPath; EvOpenFile p false perm]
| entry_trace_copy d1 :
    entry_trace dirPath p perm cat
      [EvMkdirAll dirPath; EvOpenFile p false perm; EvWrite p false d1]
| entry_trace_cat c d1 d2 :
    cat = Some c ->
    entry_trace dirPath p perm cat
      [EvMkdirAll dirPath; EvOpenFile p false perm; EvWrite p false d1;
       EvWrite (os.Name c) (os.Append c) d2]
| entry_trace_newline c d1 d2 d3 :
    cat = Some c ->
    entry_trace dirPath p perm cat
      [EvMkdirAll dirPath; EvOpenFile p false perm; EvWrite p false d1;
       EvWrite (os.Name c) (os.Append c) d2; EvWrite (os.Name c) (os.Append c) d3].

(** The table after [unzipedFiles[p] += 1]. *)
Definition bumped (p : string) (table : gmap string N) : gmap string N :=
  <[p := ((default 0 (table !! p) + 1) mod uint_max)%N]> table.

(** The effects of [handleGz] on one input, up to the point where it
    stops. *)
Inductive gz_trace (p : string) (cat : option os.File) : list event -> Prop :=
| gz_trace_none : gz_trace p cat []
| gz_trace_open : gz_trace p cat [EvOpenFile p false 438]
| gz_trace_copy d1 : gz_trace p cat [EvOpenFile p false 438; EvWrite p false d1]
| gz_trace_cat c d1 d2 :
    cat = Some c ->
    gz_trace p cat
      [EvOpenFile p false 438; EvWrite p false d1; EvWrite (os.Name c) (os.Append c) d2]
| gz_trace_newline c d1 d2 d3 :
    cat = Some c ->
    gz_trace p cat
      [EvOpenFile p false 438; EvWrite p false d1;
       EvWrite (os.Name c) (os.Append c) d2; EvWrite (os.Name c) (os.Append c) d3].

(** An effect that stays at or below [destination], or appends to
    the aggregate file [cat]. *)
Definition stays_below (destination : string) (cat : option os.File) (e : event) : Prop :=
  match e with
  | EvMkdirAll p => p = filepath.Clean destination \/ within destination p
  | EvOpenFile p append _ => append = false /\ within destination p
  | EvWrite p append _ =>
      (append = false /\ within destination p)
      \/ (exists c, cat = Some c /\ p = os.Name c /\ append = os.Append c)
  end.

(** Every write in a trace goes to a path the trace has opened. *)
Definition accounted (tr : list event) : Prop :=
  forall p a d, EvWrite p a d ∈ tr -> p ∈ openedPaths tr.

(** The aggregate handle, when there is one, comes from an open
    recorded in the trace. *)
Definition handle_opened (w : World) : Prop :=
  forall c, catFile w = Some c -> os.Name c ∈ openedPaths (trace w).

Definition sound (w : World) : Prop := accounted (trace w) /\ handle_opened w.

(** The writes among new effects go to paths opened among them or to
    the aggregate file. *)
Definition local_ok (cat : option os.File) (evs : list event) : Prop :=
  forall p a d, EvWrite p a d ∈ evs ->
    p ∈ openedPaths evs \/ (exists c, cat = Some c /\ p = os.Name c).

(** The exits of the zip extractor, given the aggregate handle. *)
Definition zip_exit (cat : option os.File) (x : exit) : Prop :=
  (exists m e, x = LogFatal m e) \/ (cat = None /\ x = Panic "nil pointer dereference").

(** The exits of the gzip extractor. *)
Definition gz_exit (x : exit) : Prop :=
  exists e, x = LogFatal "" (Some e) \/ x = OsExit 1 (Some e).

(** The number of output files created at [p] among the effects. *)
Definition created (p : string) (evs : list event) : nat :=
  length (List.filter (fun q => bool_decide (q = p)) (outputs evs)).

(** The table after the increments for a list of output paths. *)
Definition tally (ps : list string) (table : gmap string N) : gmap string N :=
  fold_left (fun t q => bumped q t) ps table.

(** The computation, when it returns, has added effects and
    incremented the table once for each output file created. *)
Definition counts (w w' : World) : Prop :=
  exists evs, trace w' = trace w ++ evs /\
              unzipedFiles w' = tally (outputs evs) (unzipedFiles w).

(** What the extraction of payload [pd.2] to the output path [pd.1]
    leaves in the file [key]. *)
Definition lands (env : Env) (key : string) (o : option (list byte))
    (pd : string * list byte) : option (list byte) :=
  if bool_decide (resolve env pd.1 = key) then Some pd.2 else o.

(** ** The earlier version of the program, for zip archives only *)

Module zipOnly.
Section Program.

Variable env : Env.

(** [copyToFile(f, destinationFile)]: [f.Open()], then [io.Copy]
    straight into the file; [destinationFile.Name()] is only called
    after the copy has succeeded. *)
Definition copyToFile (f : zip.File) (destinationFile : option os.File)
  : M (option error) :=
  match zip.Open f with
  | None => ret (Some (ErrFormat (zip.Name f)))
  | Some zippedFile => ioCopyTo env destinationFile zippedFile (zip.Name f)
  end.

Definition unzipFile (f : zip.File) (destination : string) : M (option error) :=
  let filePath := filepath.Join destination (zip.Name f) in
  if negb (gostrings.HasPrefix filePath (filepath.Clean destination +:+ "/"))
  then ret (Some (ErrInvalidPath filePath))
  else if zip.IsDir f then MkdirAll env filePath
  else
    (err <- MkdirAll env (filepath.Dir filePath) ;;
     match err with
     | Some e => ret (Some e)
     | None =>
         table <- (fun w => (w, Ret (unzipedFiles w))) ;;
         filePath <- (match table !! filePath with
                      | Some counter => (fun w => (w, renamedPath filePath counter))
                      | None => ret filePath
                      end) ;;
         opened <- OpenFile env filePath false (zip.Mode f) ;;
         match opened with
         | inr e => ret (Some e)
         | inl destinationFile =>
             err <- copyToFile f (Some destinationFile) ;;
             match err with
             | Some e => ret (Some e)
             | None =>
                 cat <- getCatFile ;;
                 err <- copyToFile f cat ;;
                 match err with
                 | Some e => ret (Some e)
                 | None =>
                     WriteString env cat newline ;;;
                     increment filePath ;;;
                     ret None
                 end
             end
         end
     end)%go.

(** The loop over the entries of one archive, written in [main]. *)
Definition unzipEntries (reader : list zip.File) (destination : string) : M unit :=
  forEach reader (fun f =>
    (err <- unzipFile f destination ;;
     match err with
     | Some e => halt (LogFatal "Unable to to unzip file inside archive: " (Some e))
     | None => ret tt
     end)%go).

(** [main] of the earlier version: the scan and the aggregate file as
    in the current one, then the loop over the archives. *)
Definition main (fl : Flags) : M unit :=
  if help fl then halt (OsExit 0 None)
  else
    match WalkDir (lstatRoot env) (dir fl) (scanFn (ext fl)) [] with
    | (_, Halt x) => halt x
    | (filesInDir, Ret _) =>
        (let catFilePath := filepath.Join (outdir fl) (outdirCatFileName fl) in
         opened <- OpenFile env catFilePath true 420 ;;
         setCatFile (match opened with inl f => Some f | inr _ => None end) ;;;
         forEach filesInDir (fun f =>
           match OpenReader env f with
           | None => halt (LogFatal ("Unable to read " +:+ ext fl +:+ " file ") None)
           | Some reader =>
               match Abs env (outdir fl) with
               | inr _ =>
                   halt (LogFatal ("Unable to find absolute path for dir "
                                     +:+ outdir fl +:+ " ") None)
               | inl destination => unzipEntries reader destination
               end
           end))%go
    end.

Definition run (fl : Flags) (files0 : gmap string (list byte)) (dirs0 : gset string)
  : World * result unit :=
  main fl (start files0 dirs0).

End Program.
End zipOnly.

(** Two outcomes that are the same but for the way a nil aggregate
    file stops the process: a panic in the current version, the error
    [old] in the earlier one. *)
Definition same_but_nil {A} (old : result A) (r r' : World * result A) : Prop :=
  fst r = fst r' /\
  (snd r = snd r' \/
   (snd r = Halt (Panic "nil pointer dereference") /\ snd r' = old)).

(** [p] is a cleaned rooted path: the elements of the cleaned
    [destination] followed by at least one more proper element. *)
Definition inside (destination p : string) : Prop :=
  exists ds es,
    ds <> [] /\ es <> [] /\ Forall real ds /\ Forall real es /\
    filepath.Clean destination = str (rooted_path ds) /\
    p = str (rooted_path (ds ++ es)).

(** An effect on such a path (or, for a directory, on the destination
    itself), or an append to the aggregate file [cat]. *)
Definition stays_inside (destination : string) (cat : option os.File) (e : event) : Prop :=
  match e with
  | EvMkdirAll p => p = filepath.Clean destination \/ inside destination p
  | EvOpenFile p append _ => append = false /\ inside destination p
  | EvWrite p append _ =>
      (append = false /\ inside destination p)
      \/ (exists c, cat = Some c /\ p = os.Name c /\ append = os.Append c)
  end.

(** The directories after a sequence of effects. *)
Definition replay_dirs (env : Env) (evs : list event) (ds : gset string) : gset string :=
  fold_left (fun s e => effect_dirs env e s) evs ds.

(** A computation only adds effects, and the directories are those
    effects applied to the directories before. *)
Definition tracks_dirs (env : Env) {A} (m : M A) : Prop :=
  forall w, exists evs,
    trace (fst (m w)) = trace w ++ evs /\
    dirs (fst (m w)) = replay_dirs env evs (dirs w).

(** The directories the zip extractor can bring into being: the
    destination, the directories on the way to it from the root
    (which [os.MkdirAll] creates when they are missing), and the
    directories below it. *)
Definition dir_in_reach (destination d : string) : Prop :=
  d ∈ ancestors destination \/ within destination d.

(** The files the zip extractor can create or change: those strictly
    below the destination, and the aggregate file. *)
Definition file_in_reach (env : Env) (destination : string) (cat : option os.File)
    (key : string) : Prop :=
  within destination key \/ exists c, cat = Some c /\ key = resolve env (os.Name c).

(** * Properties *)

(** ** Strings and paths *)

Lemma str_chars (s : string) : str (chars s) = s.
Proof. apply string_of_list_ascii_of_string. Qed.

Lemma chars_str (cs : list ascii) : chars (str cs) = cs.
Proof. apply list_ascii_of_string_of_list_ascii. Qed.

Lemma chars_inj (a b : string) : chars a = chars b -> a = b.
Proof. intros H. rewrite <- (str_chars a), <- (str_chars b). by rewrite H. Qed.

Lemma chars_append (a b : string) : chars (a +:+ b) = chars a ++ chars b.
Proof. induction a as [|c a IH]; simpl; [done | by rewrite IH]. Qed.

Lemma chars_nil (s : string) : chars s = [] -> s = "".
Proof. by destruct s. Qed.

Lemma HasPrefix_true (s p : string) :
  gostrings.HasPrefix s p = true <-> exists r, s = p +:+ r.
Proof.
  unfold gostrings.HasPrefix. revert s.
  induction p as [|c p IH]; intros [|d s]; simpl.
  - split; [intros _; by exists "" | done].
  - split; [intros _; by exists (String d s) | done].
  - split; [done | intros [r Hr]; discriminate].
  - destruct (ascii_dec c d) as [->|Hne].
    + rewrite IH. split; intros [r Hr]; exists r; [by rewrite Hr | by injection Hr].
    + split; [done | intros [r Hr]; injection Hr; congruence].
Qed.

Lemma split_sep_no_sep (cs : list ascii) :
  Forall (fun e => sep ∉ e) (filepath.split_sep cs).
Proof.
  induction cs as [|c cs IH]; simpl.
  - constructor; [apply not_elem_of_nil | constructor].
  - case_bool_decide as Hc.
    + constructor; [apply not_elem_of_nil | done].
    + destruct (filepath.split_sep cs) as [|h t].
      * constructor; [| constructor].
        apply not_elem_of_cons. split; [congruence | apply not_elem_of_nil].
      * inversion IH; subst. constructor; [| done].
        apply not_elem_of_cons. split; [congruence | done].
Qed.

Lemma dotdot_ok : elem_ok filepath.dotdot.
Proof.
  split; [done |]. unfold filepath.dotdot.
  rewrite !not_elem_of_cons. repeat split; try done. apply not_elem_of_nil.
Qed.

Lemma clean_elems_ok (rooted : bool) (elems out : list (list ascii)) :
  Forall elem_ok out ->
  Forall (fun e => sep ∉ e) elems ->
  Forall elem_ok (filepath.clean_elems rooted out elems).
Proof.
  revert out. induction elems as [|e rest IH]; intros out Hout Hel; simpl; [done |].
  inversion Hel as [|? ? He Hrest]; subst.
  repeat case_bool_decide; try (by apply IH).
  - destruct out as [|top out'].
    + apply IH; [| done]. destruct rooted; [done |].
      constructor; [apply dotdot_ok | done].
    + inversion Hout; subst. case_bool_decide.
      * apply IH; [| done]. destruct rooted; [done |].
        constructor; [apply dotdot_ok | done].
      * by apply IH.
  - apply IH; [| done]. constructor; [| done]. by split.
Qed.

Lemma join_sep_last (l : list (list ascii)) :
  Forall elem_ok l -> l <> [] ->
  exists body c, filepath.join_sep l = body ++ [c] /\ c <> sep.
Proof.
  induction l as [|e l IH]; intros Hl Hne; [done |].
  inversion Hl as [|? ? [He1 He2] Hl']; subst.
  destruct l as [|e' l'].
  - simpl. destruct (exists_last He1) as [body [c ->]].
    exists body, c. split; [done |]. intros ->.
    apply He2, elem_of_app. right. apply list_elem_of_here.
  - destruct IH as (body & c & Hj & Hc); [done | done |].
    change (filepath.join_sep (e :: e' :: l'))
      with (e ++ sep :: filepath.join_sep (e' :: l')).
    rewrite Hj. exists (e ++ sep :: body), c. split; [| done].
    by rewrite <- app_assoc.
Qed.

(** A cleaned path is not empty, and ends with a separator only when
    it is the root. *)
Lemma clean_chars_shape (cs : list ascii) :
  exists body c, filepath.clean_chars cs = body ++ [c] /\ (c = sep -> body = []).
Proof.
  unfold filepath.clean_chars. destruct cs as [|c0 cs]; [by exists [], dot |].
  set (rooted := bool_decide (c0 = sep)).
  set (elems := filepath.clean_elems rooted [] (filepath.split_sep (c0 :: cs))).
  assert (Hok : Forall elem_ok (rev elems)).
  { apply Forall_rev. unfold elems. apply clean_elems_ok; [done |].
    apply split_sep_no_sep. }
  destruct (rev elems) as [|e l] eqn:Hrev.
  - simpl. destruct rooted; [by exists [], sep | by exists [], dot].
  - destruct (join_sep_last (e :: l)) as (body & c & Hj & Hc); [done | done |].
    rewrite Hj. destruct rooted.
    + exists (sep :: body), c. split; [| done].
      simpl. by destruct (body ++ [c]) eqn:E.
    + exists body, c. split; [| done]. destruct (body ++ [c]) eqn:E; [| done].
      by destruct body.
Qed.

Lemma Clean_nonempty (p : string) : filepath.Clean p <> "".
Proof.
  unfold filepath.Clean. destruct (clean_chars_shape (chars p)) as (body & c & -> & _).
  intros H. apply (f_equal chars) in H. rewrite chars_str in H.
  by destruct body.
Qed.

Lemma Clean_not_trailing (p r : string) : filepath.Clean p = r +:+ "/" -> r = "".
Proof.
  unfold filepath.Clean. destruct (clean_chars_shape (chars p)) as (body & c & -> & Hc).
  intros H. apply (f_equal chars) in H. rewrite chars_str, chars_append in H.
  apply app_inj_tail in H as [Hb Hs]. apply chars_nil. rewrite <- Hb. by apply Hc.
Qed.

Lemma Join_not_trailing (a b r : string) : filepath.Join a b = r +:+ "/" -> r = "".
Proof.
  unfold filepath.Join. repeat case_bool_decide; try apply Clean_not_trailing.
  intros Heq. apply (f_equal chars) in Heq. rewrite chars_append in Heq.
  by destruct (chars r).
Qed.

Lemma append_assoc (a b c : string) : (a +:+ b) +:+ c = a +:+ (b +:+ c).
Proof. apply chars_inj. by rewrite !chars_append, app_assoc. Qed.

Lemma append_empty_r (a : string) : a +:+ "" = a.
Proof. apply chars_inj. by rewrite chars_append, app_nil_r. Qed.

(** The test of [unzipFile] on the joined path is the strict
    containment [within]. *)
Lemma HasPrefix_within (destination name : string) :
  gostrings.HasPrefix (filepath.Join destination name)
    (filepath.Clean destination +:+ "/") = true
  <-> within destination (filepath.Join destination name).
Proof.
  rewrite HasPrefix_true. unfold within. split.
  - intros [r Hr]. exists r. rewrite append_assoc in Hr. split; [| done].
    intros ->. rewrite append_empty_r in Hr.
    apply Join_not_trailing in Hr. by apply Clean_nonempty in Hr.
  - intros (r & _ & Hr). exists r. by rewrite append_assoc.
Qed.

Lemma HasPrefix_escape (destination name : string) :
  gostrings.HasPrefix (filepath.Join destination name)
    (filepath.Clean destination +:+ "/") = false
  <-> ~ within destination (filepath.Join destination name).
Proof.
  rewrite <- HasPrefix_within. by destruct (gostrings.HasPrefix _ _).
Qed.

(** The extension is never longer than the base name, so the slice
    in the renaming block is always in range. *)
Lemma last_elem_rev_length (r acc : list ascii) :
  length acc <= length (filepath.last_elem_rev r acc).
Proof.
  revert acc. induction r as [|c r IH]; intros acc; simpl; [lia |].
  case_bool_decide; [lia |]. specialize (IH (c :: acc)). simpl in IH. lia.
Qed.

Lemma ext_rev_length (r acc : list ascii) :
  length (filepath.ext_rev r acc) <= length (filepath.last_elem_rev r acc).
Proof.
  revert acc. induction r as [|c r IH]; intros acc; simpl; [lia |].
  case_bool_decide; [simpl; lia |]. case_bool_decide; [| apply IH].
  pose proof (last_elem_rev_length r (c :: acc)). simpl in *. lia.
Qed.

Lemma length_str (cs : list ascii) : String.length (str cs) = length cs.
Proof. induction cs as [|c cs IH]; simpl; [done | by rewrite IH]. Qed.

Lemma Ext_le_Base (path : string) :
  String.length (filepath.Ext path) <= String.length (filepath.Base path).
Proof.
  unfold filepath.Ext, filepath.Base. rewrite length_str.
  destruct (chars path) as [|c0 cs]; [simpl; lia |].
  generalize (rev (c0 :: cs)). intros [|c r]; [simpl; lia |].
  destruct (decide (c = sep)) as [->|Hne].
  - cbn [filepath.ext_rev]. rewrite bool_decide_eq_true_2 by done. simpl length. lia.
  - assert (Hd : filepath.drop_seps (c :: r) = c :: r).
    { cbn [filepath.drop_seps]. by rewrite bool_decide_eq_false_2. }
    rewrite Hd. pose proof (ext_rev_length (c :: r) []) as Hle.
    destruct (filepath.last_elem_rev (c :: r) []) as [|e es].
    + simpl in *. lia.
    + by rewrite length_str.
Qed.

Lemma renamedPath_total (filePath : string) (counter : N) :
  exists p, renamedPath filePath counter = Ret p.
Proof.
  unfold renamedPath. pose proof (Ext_le_Base filePath) as Hle.
  apply Nat.leb_le in Hle. rewrite Hle. eauto.
Qed.

(** ** Loops *)

Lemma forEach_app {A} (l1 l2 : list A) (body : A -> M unit) (w : World) :
  forEach (l1 ++ l2) body w =
  match forEach l1 body w with
  | (w', Ret _) => forEach l2 body w'
  | (w', Halt x) => (w', Halt x)
  end.
Proof.
  revert w. induction l1 as [|a l1 IH]; intros w; simpl; [done |].
  unfold bind. destruct (body a w) as [w1 [[]|x]]; [apply IH | done].
Qed.

Lemma forEach_cons {A} (a : A) (l : list A) (body : A -> M unit) (w : World) :
  forEach (a :: l) body w =
  match body a w with
  | (w', Ret _) => forEach l body w'
  | (w', Halt x) => (w', Halt x)
  end.
Proof. done. Qed.

(** ** The path check of [unzipFile] *)

Lemma unzipFile_escape (env : Env) (f : zip.File) (destination : string) (w : World) :
  ~ within destination (filepath.Join destination (zip.Name f)) ->
  unzipFile env f destination w =
  (w, Ret (Some (ErrInvalidPath (filepath.Join destination (zip.Name f))))).
Proof.
  intros H. apply HasPrefix_escape in H. unfold unzipFile. by rewrite H.
Qed.

Lemma unzipFile_checked (env : Env) (f : zip.File) (destination : string) (w w' : World) :
  unzipFile env f destination w = (w', Ret None) ->
  within destination (filepath.Join destination (zip.Name f)).
Proof.
  intros H. apply HasPrefix_within.
  destruct (gostrings.HasPrefix _ _) eqn:E; [done |].
  apply HasPrefix_escape in E. by rewrite unzipFile_escape in H.
Qed.

(** C1. Every zip entry's output path, the output root joined with
    the entry's name, is tested for having the cleaned root followed
    by a separator as a strict prefix: an entry that [unzipFile]
    accepts lies strictly below the root. For an entry that does not,
    [unzipFile] returns the invalid-path error with the state
    untouched (nothing created, nothing written), and [handleZip]
    ends the run on it with a fatal log in the state reached before
    that entry, the remaining entries and archives unprocessed. *)
Theorem zip_slip_check (env : Env) (f : zip.File) (destination : string)
    (archives1 archives2 : list string) (a : string) (before after : list zip.File)
    (ext outdir : string) (w0 w1 w : World) :
  let filePath := filepath.Join destination (zip.Name f) in
  (forall w', unzipFile env f destination w = (w', Ret None) ->
              within destination filePath)
  /\ (~ within destination filePath ->
      unzipFile env f destination w = (w, Ret (Some (ErrInvalidPath filePath)))
      /\ (OpenReader env a = Some (before ++ f :: after) ->
          Abs env outdir = inl destination ->
          handleZip env archives1 ext outdir w0 = (w1, Ret tt) ->
          unzipEntries env before destination w1 = (w, Ret tt) ->
          handleZip env (archives1 ++ a :: archives2) ext outdir w0 =
          (w, Halt (LogFatal "Unable to to unzip file inside archive: "
                             (Some (ErrInvalidPath filePath)))))).
Proof.
  intros filePath. split; [intros w'; apply unzipFile_checked |].
  intros Hesc. split; [by apply unzipFile_escape |].
  intros Hopen Habs Hpre Hbefore.
  unfold handleZip in *. rewrite forEach_app, Hpre, forEach_cons, Hopen, Habs.
  unfold unzipEntries in *. rewrite forEach_app, Hbefore, forEach_cons.
  unfold bind. by rewrite unzipFile_escape.
Qed.

(** ** Effects are tracked, and the program does not read its output *)

Section Structure.

Variable env : Env.

Lemma replay_app (evs1 evs2 : list event) (m : gmap string (list byte)) :
  replay env (evs1 ++ evs2) m = replay env evs2 (replay env evs1 m).
Proof. unfold replay. apply fold_left_app. Qed.

Lemma tracks_ret {A} (a : A) : tracks env (ret a).
Proof. intros w. exists []. simpl. by rewrite app_nil_r. Qed.

Lemma tracks_halt {A} (x : exit) : tracks env (halt (A := A) x).
Proof. intros w. exists []. simpl. by rewrite app_nil_r. Qed.

Lemma tracks_read {A} (g : World -> result A) : tracks env (fun w => (w, g w)).
Proof. intros w. exists []. simpl. by rewrite app_nil_r. Qed.

Lemma tracks_bind {A B} (m : M A) (k : A -> M B) :
  tracks env m -> (forall a, tracks env (k a)) -> tracks env (bind m k).
Proof.
  intros Hm Hk w. unfold bind. destruct (Hm w) as (evs1 & Ht1 & Hf1).
  destruct (m w) as [w1 [a|x]]; simpl in *; [| by exists evs1].
  destruct (Hk a w1) as (evs2 & Ht2 & Hf2). exists (evs1 ++ evs2).
  by rewrite Ht2, Hf2, Ht1, Hf1, replay_app, app_assoc.
Qed.

Lemma tracks_forEach {A} (l : list A) (body : A -> M unit) :
  (forall a, tracks env (body a)) -> tracks env (forEach l body).
Proof.
  intros Hb. induction l as [|a l IH]; simpl; [apply tracks_ret |].
  apply tracks_bind; [apply Hb | by intros _].
Qed.

Lemma tracks_perform {A} (e : event) (r : result A) (w : World) :
  exists evs,
    trace (fst (perform env e w, r)) = trace w ++ evs /\
    files (fst (perform env e w, r)) = replay env evs (files w).
Proof. by exists [e]. Qed.

Lemma tracks_MkdirAll (path : string) : tracks env (MkdirAll env path).
Proof.
  intros w. unfold MkdirAll. destruct (faulty _ _ _); [| apply tracks_perform].
  exists []. simpl. by rewrite app_nil_r.
Qed.

Lemma tracks_OpenFile (name : string) (append : bool) (perm : N) :
  tracks env (OpenFile env name append perm).
Proof.
  intros w. unfold OpenFile. destruct (faulty _ _ _); [| apply tracks_perform].
  exists []. simpl. by rewrite app_nil_r.
Qed.

Lemma tracks_ioCopyTo (dst : option os.File) (src : stream) (srcName : string) :
  tracks env (ioCopyTo env dst src srcName).
Proof.
  intros w. unfold ioCopyTo, put. destruct dst as [f|].
  - destruct (faulty _ _ _); apply tracks_perform.
  - exists []. simpl. by rewrite app_nil_r.
Qed.

Lemma tracks_increment (filePath : string) : tracks env (increment filePath).
Proof. intros w. exists []. simpl. by rewrite app_nil_r. Qed.

Lemma tracks_setCatFile (f : option os.File) : tracks env (setCatFile f).
Proof. intros w. exists []. simpl. by rewrite app_nil_r. Qed.

Lemma oblivious_ret {A} (a : A) : oblivious (ret a).
Proof. by intros w1 w2 H. Qed.

Lemma oblivious_halt {A} (x : exit) : oblivious (halt (A := A) x).
Proof. by intros w1 w2 H. Qed.

Lemma oblivious_read {A} (g : World -> result A) :
  (forall w1 w2, ctl w1 = ctl w2 -> g w1 = g w2) ->
  oblivious (fun w => (w, g w)).
Proof. intros Hg w1 w2 H. simpl. split; [by apply Hg | done]. Qed.

Lemma oblivious_bind {A B} (m : M A) (k : A -> M B) :
  oblivious m -> (forall a, oblivious (k a)) -> oblivious (bind m k).
Proof.
  intros Hm Hk w1 w2 H. unfold bind. destruct (Hm w1 w2 H) as [Hr Hc].
  destruct (m w1) as [w1' [a|x]], (m w2) as [w2' [a'|x']]; simpl in *;
    try discriminate; [| by injection Hr as ->].
  injection Hr as <-. by apply Hk.
Qed.

Lemma oblivious_forEach {A} (l : list A) (body : A -> M unit) :
  (forall a, oblivious (body a)) -> oblivious (forEach l body).
Proof.
  intros Hb. induction l as [|a l IH]; simpl; [apply oblivious_ret |].
  apply oblivious_bind; [apply Hb | by intros _].
Qed.

Lemma ctl_eq (w1 w2 : World) :
  ctl w1 = ctl w2 ->
  unzipedFiles w1 = unzipedFiles w2 /\ catFile w1 = catFile w2 /\ trace w1 = trace w2.
Proof. unfold ctl. intros H. by injection H. Qed.

Lemma ctl_perform (e : event) (w1 w2 : World) :
  ctl w1 = ctl w2 -> ctl (perform env e w1) = ctl (perform env e w2).
Proof. intros (Hu & Hc & Ht)%ctl_eq. unfold ctl. simpl. by rewrite Hu, Hc, Ht. Qed.

Lemma ctl_trace (w1 w2 : World) : ctl w1 = ctl w2 -> trace w1 = trace w2.
Proof. by intros (_ & _ & Ht)%ctl_eq. Qed.

Lemma oblivious_MkdirAll (path : string) : oblivious (MkdirAll env path).
Proof.
  intros w1 w2 H. unfold MkdirAll. rewrite (ctl_trace _ _ H).
  destruct (faulty _ _ _); simpl; [done |]. split; [done | by apply ctl_perform].
Qed.

Lemma oblivious_OpenFile (name : string) (append : bool) (perm : N) :
  oblivious (OpenFile env name append perm).
Proof.
  intros w1 w2 H. unfold OpenFile. rewrite (ctl_trace _ _ H).
  destruct (faulty _ _ _); simpl; [done |]. split; [done | by apply ctl_perform].
Qed.

Lemma oblivious_ioCopyTo (dst : option os.File) (src : stream) (srcName : string) :
  oblivious (ioCopyTo env dst src srcName).
Proof.
  intros w1 w2 H. unfold ioCopyTo, put. destruct dst as [f|]; [| done].
  rewrite (ctl_trace _ _ H).
  destruct (faulty _ _ _); simpl; (split; [done | by apply ctl_perform]).
Qed.

Lemma oblivious_increment (filePath : string) : oblivious (increment filePath).
Proof.
  intros w1 w2 (Hu & Hc & Ht)%ctl_eq. unfold ctl, increment. simpl.
  by rewrite ?Hu, ?Hc, ?Ht.
Qed.

Lemma oblivious_setCatFile (f : option os.File) : oblivious (setCatFile f).
Proof.
  intros w1 w2 (Hu & Hc & Ht)%ctl_eq. unfold ctl, setCatFile. simpl.
  by rewrite ?Hu, ?Hc, ?Ht.
Qed.

Lemma oblivious_getCatFile : oblivious getCatFile.
Proof.
  intros w1 w2 (Hu & Hc & Ht)%ctl_eq. unfold ctl, getCatFile. simpl.
  by rewrite ?Hu, ?Hc, ?Ht.
Qed.

End Structure.

Ltac structural_step :=
  first
    [ apply tracks_ret | apply tracks_halt | apply tracks_MkdirAll
    | apply tracks_OpenFile | apply tracks_ioCopyTo | apply tracks_increment
    | apply tracks_setCatFile | apply tracks_forEach | apply tracks_bind
    | apply tracks_read
    | apply oblivious_ret | apply oblivious_halt | apply oblivious_MkdirAll
    | apply oblivious_OpenFile | apply oblivious_ioCopyTo
    | apply oblivious_increment | apply oblivious_setCatFile
    | apply oblivious_getCatFile | apply oblivious_forEach | apply oblivious_bind
    | match goal with
      | |- forall _, _ => intros ?
      | |- tracks _ (match ?x with _ => _ end) => destruct x
      | |- oblivious (match ?x with _ => _ end) => destruct x
      end ].

Ltac structural := repeat structural_step.

Section ProgramStructure.

Variable env : Env.

Lemma tracks_copyToFile (f : zip.File) (dst : option os.File) :
  tracks env (copyToFile env f dst).
Proof. unfold copyToFile. structural. Qed.

Lemma oblivious_copyToFile (f : zip.File) (dst : option os.File) :
  oblivious (copyToFile env f dst).
Proof. unfold copyToFile. structural. Qed.

Lemma oblivious_table : oblivious (fun w => (w, Ret (unzipedFiles w))).
Proof. apply oblivious_read. intros w1 w2 (Hu & _)%ctl_eq. by rewrite Hu. Qed.

Lemma oblivious_const {A} (r : result A) : oblivious (fun w => (w, r)).
Proof. by apply oblivious_read. Qed.

Lemma tracks_unzipFile (f : zip.File) (destination : string) :
  tracks env (unzipFile env f destination).
Proof.
  unfold unzipFile, WriteString, getCatFile. cbv zeta. structural.
  all: apply tracks_copyToFile.
Qed.

Lemma oblivious_unzipFile (f : zip.File) (destination : string) :
  oblivious (unzipFile env f destination).
Proof.
  unfold unzipFile, WriteString. cbv zeta. structural.
  all: first [ apply oblivious_table | apply oblivious_const
             | apply oblivious_copyToFile ].
Qed.

Lemma tracks_handleZip (l : list string) (ext outdir : string) :
  tracks env (handleZip env l ext outdir).
Proof.
  unfold handleZip, unzipEntries. structural. all: apply tracks_unzipFile.
Qed.

Lemma oblivious_handleZip (l : list string) (ext outdir : string) :
  oblivious (handleZip env l ext outdir).
Proof.
  unfold handleZip, unzipEntries. structural. all: apply oblivious_unzipFile.
Qed.

Lemma tracks_copyFileGz (g n : string) (dst : option os.File) :
  tracks env (copyFileGz env g n dst).
Proof. unfold copyFileGz. structural. Qed.

Lemma oblivious_copyFileGz (g n : string) (dst : option os.File) :
  oblivious (copyFileGz env g n dst).
Proof. unfold copyFileGz. structural. Qed.

Lemma tracks_autoRename (filePath : string) :
  tracks env (autoRenameRepeatedFiles filePath).
Proof.
  intros w. exists []. unfold autoRenameRepeatedFiles.
  destruct (unzipedFiles w !! filePath); simpl; by rewrite app_nil_r.
Qed.

Lemma oblivious_autoRename (filePath : string) :
  oblivious (autoRenameRepeatedFiles filePath).
Proof.
  intros w1 w2 H. unfold autoRenameRepeatedFiles.
  destruct (ctl_eq _ _ H) as (-> & _).
  by destruct (unzipedFiles w2 !! filePath).
Qed.

Lemma tracks_handleGz (l : list string) (ext outdir : string) :
  tracks env (handleGz env l ext outdir).
Proof.
  unfold handleGz, extractGz, WriteString, getCatFile, fatal. cbv zeta. structural.
  all: first [ apply tracks_autoRename | apply tracks_copyFileGz ].
Qed.

Lemma oblivious_handleGz (l : list string) (ext outdir : string) :
  oblivious (handleGz env l ext outdir).
Proof.
  unfold handleGz, extractGz, WriteString, fatal. cbv zeta. structural.
  all: first [ apply oblivious_autoRename | apply oblivious_copyFileGz ].
Qed.

Lemma tracks_main (fl : Flags) : tracks env (main env fl).
Proof.
  unfold main. cbv zeta. structural.
  all: first [ apply tracks_autoRename | apply tracks_copyFileGz
             | apply tracks_unzipFile ].
Qed.

Lemma oblivious_main (fl : Flags) : oblivious (main env fl).
Proof.
  unfold main. cbv zeta. structural.
  all: first [ apply oblivious_autoRename | apply oblivious_copyFileGz
             | apply oblivious_unzipFile ].
Qed.

End ProgramStructure.

(** ** One file at a time *)

Section Replay.

Variable env : Env.

Lemma effect_files_lookup (e : event) (m : gmap string (list byte)) (key : string) :
  effect_files env e m !! key = effect_at env key e (m !! key).
Proof.
  destruct e as [path|name append perm|name append data]; simpl; [done | |];
    case_bool_decide as Hk.
  - subst key. by rewrite lookup_insert_eq.
  - by rewrite lookup_insert_ne.
  - subst key. by rewrite lookup_insert_eq.
  - by rewrite lookup_insert_ne.
Qed.

Lemma replay_lookup (evs : list event) (m : gmap string (list byte)) (key : string) :
  replay env evs m !! key = fold_left (fun o e => effect_at env key e o) evs (m !! key).
Proof.
  revert m. induction evs as [|e evs IH]; intros m; [done |].
  unfold replay in *. simpl. by rewrite IH, effect_files_lookup.
Qed.

(** Once a path has been opened, its bytes no longer depend on what
    the file held before. *)
Lemma opened_forgets (evs : list event) (p : string) (o1 o2 : option (list byte)) :
  p ∈ openedPaths evs ->
  fold_left (fun o e => effect_at env (resolve env p) e o) evs o1 =
  fold_left (fun o e => effect_at env (resolve env p) e o) evs o2.
Proof.
  revert o1 o2. induction evs as [|e evs IH]; intros o1 o2 Hp.
  - by apply elem_of_nil in Hp.
  - simpl. destruct (decide (p ∈ openedPaths evs)) as [Hin|Hnin]; [by apply IH |].
    unfold openedPaths in Hp, Hnin. simpl in Hp.
    destruct e as [path|name append perm|name append data];
      try (by exfalso; apply Hnin).
    apply elem_of_cons in Hp as [->|Hp]; [| by exfalso; apply Hnin].
    simpl. by rewrite bool_decide_eq_true_2.
Qed.

End Replay.

(** A run does not read what the output directory holds: from two
    prior states, with the same outcomes of every system call, it
    ends the same way, performs the same effects and leaves the same
    bytes in every file it opened. *)
Lemma run_forgets_prior_state (env : Env) (fl : Flags)
    (files1 files2 : gmap string (list byte)) (dirs1 dirs2 : gset string) :
  let r1 := run env fl files1 dirs1 in
  let r2 := run env fl files2 dirs2 in
  snd r1 = snd r2
  /\ trace (fst r1) = trace (fst r2)
  /\ forall p, p ∈ openedPaths (trace (fst r1)) ->
       files (fst r1) !! resolve env p = files (fst r2) !! resolve env p.
Proof.
  intros r1 r2. unfold r1, r2, run.
  destruct (oblivious_main env fl (start files1 dirs1) (start files2 dirs2))
    as [Hres Hctl]; [done |].
  apply ctl_trace in Hctl.
  split; [done |]. split; [done |].
  intros p Hp.
  destruct (tracks_main env fl (start files1 dirs1)) as (evs1 & Ht1 & Hf1).
  destruct (tracks_main env fl (start files2 dirs2)) as (evs2 & Ht2 & Hf2).
  simpl in Ht1, Ht2, Hf1, Hf2. rewrite Ht1 in Hctl, Hp. rewrite Ht2 in Hctl.
  subst evs2. rewrite Hf1, Hf2, !replay_lookup. by apply opened_forgets.
Qed.

(** ** Two runs on the same inputs *)

Lemma same_refl {A} (m : M A) : same m m.
Proof. by intros w. Qed.

Lemma same_bind {A B} (m1 m2 : M A) (k1 k2 : A -> M B) :
  same m1 m2 -> (forall a, same (k1 a) (k2 a)) -> same (bind m1 k1) (bind m2 k2).
Proof.
  intros Hm Hk w. unfold bind. rewrite (Hm w).
  destruct (m2 w) as [w1 [a|x]]; [apply Hk | done].
Qed.

Lemma same_forEach {A} (l : list A) (body1 body2 : A -> M unit) :
  (forall a, same (body1 a) (body2 a)) -> same (forEach l body1) (forEach l body2).
Proof.
  intros Hb. induction l as [|a l IH]; simpl; [apply same_refl |].
  apply same_bind; [apply Hb | by intros _].
Qed.

Section TwoRuns.

Variables env1 env2 : Env.
Hypothesis Hin : same_inputs env1 env2.
Hypothesis Hplace : same_place env1 env2.
Hypothesis Hout : same_outcomes env1 env2.

Lemma resolve_same (p : string) : resolve env1 p = resolve env2 p.
Proof. unfold resolve. by rewrite (proj1 Hplace). Qed.

Lemma Abs_same (p : string) : Abs env1 p = Abs env2 p.
Proof. unfold Abs. destruct Hplace as [-> ->]. done. Qed.

Lemma perform_same (e : event) (w : World) : perform env1 e w = perform env2 e w.
Proof.
  unfold perform, effect_files, effect_dirs.
  destruct e; by rewrite ?resolve_same.
Qed.

Lemma MkdirAll_same (path : string) : same (MkdirAll env1 path) (MkdirAll env2 path).
Proof. intros w. unfold MkdirAll. by rewrite Hout, perform_same. Qed.

Lemma OpenFile_same (name : string) (append : bool) (perm : N) :
  same (OpenFile env1 name append perm) (OpenFile env2 name append perm).
Proof. intros w. unfold OpenFile. by rewrite Hout, perform_same. Qed.

Lemma ioCopyTo_same (dst : option os.File) (src : stream) (srcName : string) :
  same (ioCopyTo env1 dst src srcName) (ioCopyTo env2 dst src srcName).
Proof.
  intros w. unfold ioCopyTo, put. destruct dst as [f|]; [| done].
  rewrite Hout. destruct (faulty env2 _ _); by rewrite perform_same.
Qed.

Ltac same_step :=
  first
    [ apply same_refl | apply MkdirAll_same | apply OpenFile_same
    | apply ioCopyTo_same | apply same_forEach | apply same_bind
    | match goal with
      | |- forall _, _ => intros ?
      | |- same (match ?x with _ => _ end) (match ?x with _ => _ end) => destruct x
      | |- same (if ?x then _ else _) (if ?x then _ else _) => destruct x
      end ].

Lemma copyToFile_same (f : zip.File) (dst : option os.File) :
  same (copyToFile env1 f dst) (copyToFile env2 f dst).
Proof. unfold copyToFile. repeat same_step. Qed.

Lemma unzipFile_same (f : zip.File) (destination : string) :
  same (unzipFile env1 f destination) (unzipFile env2 f destination).
Proof.
  unfold unzipFile, WriteString. cbv zeta.
  repeat first [ apply copyToFile_same | same_step ].
Qed.

Lemma handleZip_same (l : list string) (ext outdir : string) :
  same (handleZip env1 l ext outdir) (handleZip env2 l ext outdir).
Proof.
  unfold handleZip, unzipEntries. apply same_forEach. intros a.
  rewrite (proj1 (proj2 Hin) a), Abs_same.
  repeat first [ apply unzipFile_same | same_step ].
Qed.

Lemma copyFileGz_same (g n : string) (dst : option os.File) :
  same (copyFileGz env1 g n dst) (copyFileGz env2 g n dst).
Proof. unfold copyFileGz. rewrite (proj2 (proj2 Hin) g). repeat same_step. Qed.

Lemma handleGz_same (l : list string) (ext outdir : string) :
  same (handleGz env1 l ext outdir) (handleGz env2 l ext outdir).
Proof.
  unfold handleGz, extractGz, WriteString. cbv zeta.
  repeat first [ apply copyFileGz_same | same_step ].
Qed.

Lemma main_same (fl : Flags) : same (main env1 fl) (main env2 fl).
Proof.
  unfold main. rewrite (proj1 Hin). cbv zeta.
  repeat first [ apply handleGz_same | apply handleZip_same | same_step ].
Qed.

End TwoRuns.


(** ** Directory entries *)

Lemma dir_prefixes_self (rest seen : list ascii) :
  str (rev seen ++ rest) ∈ dir_prefixes seen rest.
Proof.
  revert seen. induction rest as [|c rest IH]; intros seen; simpl.
  - rewrite app_nil_r. apply list_elem_of_here.
  - assert (Hself : str (rev seen ++ c :: rest) ∈ dir_prefixes (c :: seen) rest).
    { specialize (IH (c :: seen)). simpl in IH. by rewrite <- app_assoc in IH. }
    case_bool_decide; [by apply list_elem_of_further | done].
Qed.

Lemma ancestors_self (key : string) : key ∈ ancestors key.
Proof.
  unfold ancestors. rewrite <- (str_chars key) at 1. apply (dir_prefixes_self _ []).
Qed.

(** C9. A zip entry that is a directory changes no file (so nothing
    is written for it and the aggregate file receives neither bytes
    nor a newline), leaves the collision table and the aggregate
    handle as they were, and performs at most the one effect of
    creating its directory. When its path passes the check of C1 and
    [os.MkdirAll] succeeds, [unzipFile] returns nil and the directory
    exists together with the directories above it. *)
Theorem directory_entry_frame (env : Env) (f : zip.File) (destination : string)
    (w : World) :
  zip.IsDir f = true ->
  let filePath := filepath.Join destination (zip.Name f) in
  let w' := fst (unzipFile env f destination w) in
  (files w' = files w /\ unzipedFiles w' = unzipedFiles w /\ catFile w' = catFile w
   /\ (trace w' = trace w \/ trace w' = trace w ++ [EvMkdirAll filePath]))
  /\ (within destination filePath ->
      faulty env (trace w) (EvMkdirAll filePath) = None ->
      snd (unzipFile env f destination w) = Ret None
      /\ trace w' = trace w ++ [EvMkdirAll filePath]
      /\ resolve env filePath ∈ dirs w'
      /\ forall d, d ∈ ancestors (resolve env filePath) -> d ∈ dirs w').
Proof.
  intros Hdir filePath w'. unfold w', unzipFile. fold filePath. rewrite Hdir.
  destruct (gostrings.HasPrefix filePath _) eqn:Hpre; simpl.
  - unfold MkdirAll. destruct (faulty env (trace w) (EvMkdirAll filePath)) eqn:Hf; simpl.
    + split; [by eauto |]. by intros _ ?.
    + split; [by eauto |]. intros _ _. repeat split; try done.
      * apply elem_of_union_r, elem_of_list_to_set, ancestors_self.
      * intros d Hd. by apply elem_of_union_r, elem_of_list_to_set.
  - split; [by eauto |]. intros Hin. apply HasPrefix_within in Hin.
    unfold filePath in Hpre. congruence.
Qed.

(** ** The scan *)

Lemma tree_nested_ind (P : tree -> Prop) :
  (forall d entries readFails, Forall P entries -> P (Node d entries readFails)) ->
  forall t, P t.
Proof.
  intros step. fix IH 1. intros [d entries readFails]. apply step.
  induction entries as [|t entries IHl]; constructor; [apply IH | exact IHl].
Qed.

Lemma walkDir_Node {S} (path : string) (d : fs.DirEntry) (entries : list tree)
    (readFails : bool) (fn : WalkDirFunc) (s : S) :
  walkDir path (Node d entries readFails) fn s =
  match fn path (Some d) None s with
  | (s1, Halt x) => (s1, Halt x)
  | (s1, Ret (Some err)) => (s1, Ret (skipped err d))
  | (s1, Ret None) =>
      if negb (fs.IsDir d) then (s1, Ret None)
      else
        match (if readFails
               then fn path (Some d) (Some (PathError "readdir" path)) s1
               else (s1, Ret None)) with
        | (s2, Halt x) => (s2, Halt x)
        | (s2, Ret (Some err)) => (s2, Ret (skipped err d))
        | (s2, Ret None) => walkEntries path fn entries s2
        end
  end.
Proof. done. Qed.

Lemma listing_Node (path : string) (d : fs.DirEntry) (entries : list tree)
    (readFails : bool) :
  listing path (Node d entries readFails) =
  (path, d) :: (if fs.IsDir d then below path entries else []).
Proof. done. Qed.

Lemma readable_Node (d : fs.DirEntry) (entries : list tree) (readFails : bool) :
  readable (Node d entries readFails) =
  negb (fs.IsDir d) || (negb readFails && allReadable entries).
Proof. done. Qed.

Section Scan.

Variable ext : string.

Lemma selection_app (l1 l2 : list (string * fs.DirEntry)) :
  selection ext (l1 ++ l2) = selection ext l1 ++ selection ext l2.
Proof. unfold selection. by rewrite List.filter_app, map_app. Qed.

Lemma scanFn_entry (path : string) (d : fs.DirEntry) (acc : list string) :
  scanFn ext path (Some d) None acc = (acc ++ selection ext [(path, d)], Ret None).
Proof.
  unfold scanFn, selection, matches. simpl. destruct (fs.IsDir d); simpl.
  - by rewrite app_nil_r.
  - case_bool_decide; simpl; [done | by rewrite app_nil_r].
Qed.

Lemma walkEntries_scan (path : string) (entries : list tree) :
  Forall (fun t => forall path acc,
            scan_ok acc (selection ext (listing path t)) (readable t)
                    (walkDir path t (scanFn ext) acc)) entries ->
  forall acc,
    scan_ok acc (selection ext (below path entries)) (allReadable entries)
            (walkEntries path (scanFn ext) entries acc).
Proof.
  induction 1 as [|t entries Ht _ IHl]; intros acc.
  - left. split; [done |]. simpl. by rewrite app_nil_r.
  - change (below path (t :: entries))
      with (listing (filepath.Join path (fs.Name (entry_of t))) t ++ below path entries).
    change (allReadable (t :: entries)) with (readable t && allReadable entries).
    rewrite selection_app.
    specialize (Ht (filepath.Join path (fs.Name (entry_of t))) acc).
    cbn [walkEntries].
    destruct Ht as [[Hok Ht] | (Hbad & k & op & p & Ht)]; rewrite Ht.
    + rewrite Hok. simpl.
      destruct (IHl (acc ++ selection ext
                       (listing (filepath.Join path (fs.Name (entry_of t))) t)))
        as [[Hok' Hl] | (Hbad & k & op & p & Hl)]; rewrite Hl.
      * left. by rewrite app_assoc.
      * right. split; [done |].
        exists (length (selection ext
                  (listing (filepath.Join path (fs.Name (entry_of t))) t)) + k), op, p.
        by rewrite take_app_add, app_assoc.
    + right. rewrite Hbad. split; [done |].
      rewrite bool_decide_eq_false_2 by done.
      exists (k `min` length (selection ext
                (listing (filepath.Join path (fs.Name (entry_of t))) t))), op, p.
      rewrite take_app_le by lia. by rewrite <- take_take, firstn_all.
Qed.

Lemma walkDir_scan (t : tree) :
  forall path acc,
    scan_ok acc (selection ext (listing path t)) (readable t)
            (walkDir path t (scanFn ext) acc).
Proof.
  induction t as [d entries readFails IH] using tree_nested_ind.
  intros path acc.
  rewrite walkDir_Node, listing_Node, readable_Node.
  change ((path, d) :: ?l) with ([(path, d)] ++ l).
  rewrite selection_app, scanFn_entry.
  generalize (selection ext [(path, d)]) as here. intros here.
  destruct (fs.IsDir d) eqn:Hd; simpl.
  2:{ left. split; [done |]. by rewrite app_nil_r. }
  destruct readFails; simpl.
  { right. split; [done |]. exists (length here), "readdir", path.
    by rewrite take_app_length. }
  destruct (walkEntries_scan path entries IH (acc ++ here))
    as [[Hok Hl] | (Hbad & k & op & p & Hl)]; rewrite Hl.
  - left. by rewrite app_assoc.
  - right. split; [done |]. exists (length here + k), op, p.
    by rewrite take_app_add, app_assoc.
Qed.

End Scan.

Lemma selection_elem (ext p : string) (l : list (string * fs.DirEntry)) :
  p ∈ selection ext l <->
  exists d, (p, d) ∈ l /\ fs.IsDir d = false /\ filepath.Ext (fs.Name d) = ext.
Proof.
  unfold selection. rewrite list_elem_of_fmap. split.
  - intros ([p' d] & -> & Hin). rewrite list_elem_of_In in Hin.
    apply List.filter_In in Hin as [Hin Hm].
    exists d. split; [by apply list_elem_of_In |].
    unfold matches in Hm. apply andb_prop in Hm as [Hd He]. simpl in *.
    apply bool_decide_eq_true in He. split; [by destruct (fs.IsDir d) | done].
  - intros (d & Hin & Hd & He). exists (p, d). split; [done |].
    rewrite list_elem_of_In. apply List.filter_In. split; [by apply list_elem_of_In |].
    unfold matches. simpl. by rewrite Hd, bool_decide_eq_true_2.
Qed.

(** ** The walk up to the first traversal error *)

Lemma marked_Node (path : string) (d : fs.DirEntry) (entries : list tree)
    (readFails : bool) :
  marked path (Node d entries readFails) =
  (path, d, fs.IsDir d && readFails) ::
  (if fs.IsDir d then markedBelow path entries else []).
Proof. done. Qed.

Lemma markedBelow_cons (path : string) (t : tree) (entries : list tree) :
  markedBelow path (t :: entries) =
  marked (filepath.Join path (fs.Name (entry_of t))) t ++ markedBelow path entries.
Proof. done. Qed.

Lemma below_cons (path : string) (t : tree) (entries : list tree) :
  below path (t :: entries) =
  listing (filepath.Join path (fs.Name (entry_of t))) t ++ below path entries.
Proof. done. Qed.

Lemma unmarked_app {A} (l1 l2 : list (A * bool)) :
  unmarked (l1 ++ l2) = unmarked l1 && unmarked l2.
Proof. unfold unmarked. apply forallb_app. Qed.

Lemma upto_error_app {A} (l1 l2 : list (A * bool)) :
  upto_error (l1 ++ l2) =
  if unmarked l1 then map fst l1 ++ upto_error l2 else upto_error l1.
Proof.
  induction l1 as [|[a []] l1 IH]; [done | done |].
  cbn [app upto_error]. rewrite IH. unfold unmarked. cbn. by destruct (forallb _ l1).
Qed.

Lemma upto_error_unmarked {A} (l : list (A * bool)) :
  unmarked l = true -> upto_error l = map fst l.
Proof.
  unfold unmarked. induction l as [|[a []] l IH]; cbn; [done | done |].
  intros H. by rewrite IH.
Qed.

(** The marked listing is the listing, and a tree is readable when
    nothing in it is marked. *)
Lemma marked_listing (t : tree) :
  forall path, map fst (marked path t) = listing path t
               /\ unmarked (marked path t) = readable t.
Proof.
  induction t as [d entries readFails IH] using tree_nested_ind. intros path.
  rewrite marked_Node, listing_Node, readable_Node.
  assert (Hb : map fst (markedBelow path entries) = below path entries
               /\ unmarked (markedBelow path entries) = allReadable entries).
  { induction IH as [|t entries Ht _ IHl]; [done |].
    rewrite markedBelow_cons, below_cons, map_app, unmarked_app.
    destruct (Ht (filepath.Join path (fs.Name (entry_of t)))) as [-> ->].
    destruct IHl as [-> ->]. done. }
  destruct Hb as [Hb1 Hb2]. cbn [map fst]. unfold unmarked in *. cbn [forallb snd].
  destruct (fs.IsDir d); cbn.
  - rewrite Hb1, Hb2. by destruct readFails.
  - done.
Qed.

Lemma visited_prefix (path : string) (t : tree) :
  visited path t `prefix_of` listing path t.
Proof.
  unfold visited. destruct (marked_listing t path) as [<- _].
  generalize (marked path t). intros l.
  induction l as [|[a []] l [k IH]].
  - by exists [].
  - by exists (map fst l).
  - exists k. cbn [upto_error map fst]. by rewrite IH at 1.
Qed.

Section ScanUpto.

Variable ext : string.

Lemma walkEntries_upto (path : string) (entries : list tree) :
  Forall (fun t => forall path acc,
            scan_upto acc ext (marked path t) (walkDir path t (scanFn ext) acc)) entries ->
  forall acc,
    scan_upto acc ext (markedBelow path entries)
              (walkEntries path (scanFn ext) entries acc).
Proof.
  unfold scan_upto. induction 1 as [|t entries Ht _ IHl]; intros acc.
  - split; [by rewrite app_nil_r | by left].
  - rewrite markedBelow_cons, upto_error_app, unmarked_app. cbn [walkEntries].
    destruct (Ht (filepath.Join path (fs.Name (entry_of t))) acc) as [Hf Hs].
    destruct (walkDir _ t (scanFn ext) acc) as [s r]. cbn [fst snd] in Hf, Hs. subst s.
    destruct Hs as [[Hok ->] | (Hbad & op & p & ->)].
    + rewrite Hok. rewrite (upto_error_unmarked _ Hok) in *.
      destruct (IHl (acc ++ selection ext (map fst
                       (marked (filepath.Join path (fs.Name (entry_of t))) t))))
        as [Hf' Hs'].
      split; [by rewrite Hf', selection_app, app_assoc | done].
    + rewrite Hbad. rewrite bool_decide_eq_false_2 by done.
      split; [done |]. right. split; [done | by exists op, p].
Qed.

Lemma walkDir_upto (t : tree) :
  forall path acc,
    scan_upto acc ext (marked path t) (walkDir path t (scanFn ext) acc).
Proof.
  induction t as [d entries readFails IH] using tree_nested_ind.
  intros path acc. unfold scan_upto. rewrite walkDir_Node, marked_Node, scanFn_entry.
  destruct (fs.IsDir d) eqn:Hd; cbn [negb andb].
  2:{ split; [done | by left]. }
  destruct readFails; cbn [upto_error].
  { split; [done |]. right. split; [done | by exists "readdir", path]. }
  destruct (walkEntries_upto path entries IH (acc ++ selection ext [(path, d)]))
    as [Hf Hs].
  destruct (walkEntries path (scanFn ext) entries _) as [s r]. cbn [fst snd] in *.
  split.
  - rewrite Hf, <- app_assoc. f_equal. by rewrite <- selection_app.
  - unfold unmarked in *. by cbn.
Qed.

End ScanUpto.

Lemma scanned_visited (env : Env) (fl : Flags) (t : tree) :
  lstatRoot env = Some t ->
  scanned env fl = selection (ext fl) (visited (dir fl) t).
Proof.
  intros Ht. unfold scanned, WalkDir, visited. rewrite Ht.
  destruct (walkDir_upto (ext fl) t (dir fl) []) as [Hf Hs].
  destruct (walkDir (dir fl) t (scanFn (ext fl)) []) as [s r]. cbn [fst snd] in *.
  destruct Hs as [[_ ->] | (_ & op & p & ->)]; by subst s.
Qed.

(** C8, amended. The scan selects the entries that are not
    directories and whose name has the filter as its extension
    ([filepath.Ext], compared byte for byte), in the order the walk
    lists them, up to the first traversal error: it is exactly the
    selection among the entries the walk visits, which are the
    listing of the tree cut after the first directory that cannot be
    read, all of the listing when every directory can be read. Every
    selected path is such an entry, so a directory is never selected,
    nor a name whose extension differs from the filter in case or in
    length. The test is [d.IsDir()] alone: a symbolic link or a
    special file with a matching name is selected like a regular
    file. *)
Theorem scan_selects_matching (env : Env) (fl : Flags) :
  match lstatRoot env with
  | None => scanned env fl = []
  | Some t =>
      let all := selection (ext fl) (listing (dir fl) t) in
      scanned env fl = selection (ext fl) (visited (dir fl) t)
      /\ visited (dir fl) t `prefix_of` listing (dir fl) t
      /\ (readable t = true -> visited (dir fl) t = listing (dir fl) t)
      /\ (exists k, scanned env fl = take k all)
      /\ (readable t = true -> scanned env fl = all)
      /\ (forall p, p ∈ scanned env fl ->
            exists d, (p, d) ∈ listing (dir fl) t /\ fs.IsDir d = false
                      /\ filepath.Ext (fs.Name d) = ext fl)
  end.
Proof.
  destruct (lstatRoot env) as [t|] eqn:Ht.
  2:{ unfold scanned, WalkDir. by rewrite Ht. }
  cbv zeta. pose proof (scanned_visited env fl t Ht) as Hs.
  pose proof (visited_prefix (dir fl) t) as Hpre.
  assert (Hall : readable t = true -> visited (dir fl) t = listing (dir fl) t).
  { intros Hr. unfold visited. destruct (marked_listing t (dir fl)) as [<- Hu].
    apply upto_error_unmarked. by rewrite Hu. }
  split; [done |]. split; [done |]. split; [done |].
  split.
  { destruct Hpre as [k Hk]. exists (length (selection (ext fl) (visited (dir fl) t))).
    by rewrite Hs, Hk, selection_app, take_app_length. }
  split; [intros Hr; by rewrite Hs, Hall |].
  intros p Hp. rewrite Hs in Hp. apply selection_elem in Hp as (d & Hin & Hd & He).
  exists d. split; [| done]. destruct Hpre as [k ->]. apply elem_of_app. by left.
Qed.

(** ** Runs without faults *)

Section NoFault.

Variable env : Env.
Hypothesis Hnf : nofault env.

Lemma MkdirAll_nofault (path : string) (w : World) :
  MkdirAll env path w = (perform env (EvMkdirAll path) w, Ret None).
Proof. unfold MkdirAll. by rewrite Hnf. Qed.

Lemma OpenFile_nofault (name : string) (append : bool) (perm : N) (w : World) :
  OpenFile env name append perm w =
  (perform env (EvOpenFile name append perm) w,
   Ret (inl {| os.Name := name; os.Append := append |})).
Proof. unfold OpenFile. by rewrite Hnf. Qed.

Lemma ioCopyTo_nofault (f : os.File) (src : stream) (srcName : string) (w : World) :
  ioCopyTo env (Some f) src srcName w =
  (put env f (sdata src) w,
   Ret (if sfails src then Some (ErrFormat srcName) else None)).
Proof. unfold ioCopyTo. by rewrite Hnf. Qed.

Lemma extracted_app (cat : string) (evs1 evs2 : list event)
    (ps1 ps2 : list string) (ds1 ds2 : list (list byte)) :
  extracted cat evs1 ps1 ds1 -> extracted cat evs2 ps2 ds2 ->
  extracted cat (evs1 ++ evs2) (ps1 ++ ps2) (ds1 ++ ds2).
Proof.
  induction 1 as [|path evs ps ds _ IH|p perm d evs ps ds _ IH]; intros H2; simpl.
  - done.
  - constructor. by apply IH.
  - apply (extracted_entry cat p perm d (evs ++ evs2)). by apply IH.
Qed.

Lemma unzipFile_nofault (f : zip.File) (destination : string) (cat : os.File)
    (w w' : World) :
  catFile w = Some cat -> os.Append cat = true ->
  unzipFile env f destination w = (w', Ret None) ->
  catFile w' = Some cat /\
  exists evs ps,
    trace w' = trace w ++ evs /\
    extracted (os.Name cat) evs ps (if zip.IsDir f then [] else [payload f]).
Proof.
  intros Hcat Happ. unfold unzipFile. cbv zeta.
  destruct (negb _); [done |]. destruct (zip.IsDir f).
  - rewrite MkdirAll_nofault. intros [= <-]. split; [done |].
    eexists _, []. split; [done |]. repeat constructor.
  - unfold bind. rewrite MkdirAll_nofault.
    set (filePath := filepath.Join destination (zip.Name f)).
    simpl (unzipedFiles (perform _ _ _)).
    destruct (unzipedFiles w !! filePath) as [counter|];
      [destruct (renamedPath filePath counter) as [p|x]; [| done]
      | pose (p := filePath)];
    unfold ret; rewrite OpenFile_nofault; unfold copyToFile, payload;
    (destruct (zip.Open f) as [s|]; [| done]);
    rewrite ioCopyTo_nofault; (destruct (sfails s) eqn:Hs; [done |]);
    unfold getCatFile; simpl; rewrite Hcat, ioCopyTo_nofault, Hs;
    unfold WriteString; rewrite ioCopyTo_nofault; simpl;
    intros [= <-]; (split; [done |]); simpl;
    eexists _, [p]; rewrite <- !app_assoc, Happ; (split; [done |]); simpl;
    apply extracted_mkdir;
    apply (extracted_entry (os.Name cat) p (zip.Mode f) (sdata s) [] [] []);
    constructor.
Qed.

Lemma unzipEntries_nofault (reader : list zip.File) (destination : string)
    (cat : os.File) :
  os.Append cat = true ->
  forall w w',
    catFile w = Some cat ->
    unzipEntries env reader destination w = (w', Ret tt) ->
    catFile w' = Some cat /\
    exists evs ps,
      trace w' = trace w ++ evs /\
      extracted (os.Name cat) evs ps
        (flat_map (fun f => if zip.IsDir f then [] else [payload f]) reader).
Proof.
  intros Happ. unfold unzipEntries.
  induction reader as [|f reader IH]; intros w w' Hcat.
  - intros [= <-]. split; [done |]. exists [], []. rewrite app_nil_r.
    split; [done | constructor].
  - rewrite forEach_cons. unfold bind at 1.
    destruct (unzipFile env f destination w) as [w1 [[e|]|x]] eqn:Hf; [done | | done].
    destruct (unzipFile_nofault f destination cat w w1 Hcat Happ Hf)
      as (Hcat1 & evs1 & ps1 & Ht1 & Hx1).
    simpl. intros Hrest.
    destruct (IH w1 w' Hcat1 Hrest) as (Hcat' & evs2 & ps2 & Ht2 & Hx2).
    split; [done |]. exists (evs1 ++ evs2), (ps1 ++ ps2).
    split; [by rewrite Ht2, Ht1, app_assoc | by apply extracted_app].
Qed.

Lemma handleZip_nofault (filesInDir : list string) (ext outdir : string)
    (cat : os.File) :
  os.Append cat = true ->
  forall w w',
    catFile w = Some cat ->
    handleZip env filesInDir ext outdir w = (w', Ret tt) ->
    exists evs ps,
      trace w' = trace w ++ evs /\
      extracted (os.Name cat) evs ps (zipPayloads env filesInDir).
Proof.
  intros Happ. unfold handleZip, zipPayloads.
  induction filesInDir as [|a l IH]; intros w w' Hcat.
  - intros [= <-]. exists [], []. rewrite app_nil_r. split; [done | constructor].
  - rewrite forEach_cons. cbn [flat_map].
    destruct (OpenReader env a) as [reader|]; [| done].
    destruct (Abs env outdir) as [destination|]; [| done].
    destruct (unzipEntries env reader destination w) as [w1 [[]|x]] eqn:Ha; [| done].
    destruct (unzipEntries_nofault reader destination cat Happ w w1 Hcat Ha)
      as (Hcat1 & evs1 & ps1 & Ht1 & Hx1).
    intros Hrest. destruct (IH w1 w' Hcat1 Hrest) as (evs2 & ps2 & Ht2 & Hx2).
    exists (evs1 ++ evs2), (ps1 ++ ps2). simpl.
    split; [by rewrite Ht2, Ht1, app_assoc | by apply extracted_app].
Qed.

Lemma extractGz_nofault (g : string) (cat : os.File) (w w' : World) :
  os.Append cat = true ->
  catFile w = Some cat ->
  extractGz env g w = (w', Ret tt) ->
  catFile w' = Some cat /\
  exists p,
    trace w' = trace w ++ EvOpenFile p false 438
                            :: entryWrites (os.Name cat) p (gzPayload env g).
Proof.
  intros Happ Hcat. unfold extractGz, autoRenameRepeatedFiles, bind. cbv zeta.
  destruct (unzipedFiles w !! gostrings.TrimSuffix g ".gz") as [counter|];
    [destruct (renamedPath _ counter) as [p|x]; [| done]
    | pose (p := gostrings.TrimSuffix g ".gz")];
  rewrite OpenFile_nofault; unfold copyFileGz, gzPayload;
  (destruct (openGz env g) as [| |s]; [done | done |]);
  rewrite ioCopyTo_nofault; (destruct (sfails s) eqn:Hs; [done |]);
  unfold getCatFile; simpl; rewrite Hcat, ioCopyTo_nofault, Hs;
  unfold WriteString; rewrite ioCopyTo_nofault; simpl;
  intros [= <-]; (split; [done |]); exists p; simpl;
  by rewrite <- !app_assoc, Happ.
Qed.

Lemma handleGz_nofault (filesInDir : list string) (ext outdir : string)
    (cat : os.File) :
  os.Append cat = true ->
  forall w w',
    catFile w = Some cat ->
    handleGz env filesInDir ext outdir w = (w', Ret tt) ->
    exists evs ps,
      trace w' = trace w ++ evs /\
      extracted (os.Name cat) evs ps (gzPayloads env filesInDir).
Proof.
  intros Happ. unfold handleGz, gzPayloads.
  induction filesInDir as [|g l IH]; intros w w' Hcat.
  - intros [= <-]. exists [], []. rewrite app_nil_r. split; [done | constructor].
  - rewrite forEach_cons. cbn [map].
    destruct (extractGz env g w) as [w1 [[]|x]] eqn:Hg; [| done].
    destruct (extractGz_nofault g cat w w1 Happ Hcat Hg) as (Hcat1 & p & Ht1).
    intros Hrest. destruct (IH w1 w' Hcat1 Hrest) as (evs2 & ps2 & Ht2 & Hx2).
    exists ((EvOpenFile p false 438 :: entryWrites (os.Name cat) p (gzPayload env g))
              ++ evs2), (p :: ps2).
    split; [by rewrite Ht2, Ht1, <- app_assoc |].
    by apply (extracted_entry (os.Name cat) p 438 (gzPayload env g)).
Qed.

Lemma main_nofault (fl : Flags) (w0 w : World) :
  trace w0 = [] ->
  main env fl w0 = (w, Ret tt) ->
  exists evs ps,
    trace w = EvOpenFile (catFilePath fl) true 420 :: evs /\
    extracted (catFilePath fl) evs ps (payloads env fl).
Proof.
  intros Hstart. unfold main, payloads, scanned. destruct (help fl); [done |].
  destruct (WalkDir _ _ _ _) as [filesInDir [r|x]]; [| done].
  cbv zeta. unfold bind. fold (catFilePath fl). rewrite OpenFile_nofault.
  cbn [setCatFile fst snd].
  set (cat := {| os.Name := catFilePath fl; os.Append := true |}).
  set (w1 := Build_World _ _ _ _ _).
  assert (Hcat : catFile w1 = Some cat) by done.
  assert (Ht : trace w1 = [EvOpenFile (catFilePath fl) true 420])
    by (simpl; by rewrite Hstart).
  case_bool_decide; intros Hrun.
  - destruct (handleGz_nofault filesInDir (ext fl) (outdir fl) cat eq_refl w1 w Hcat Hrun)
      as (evs & ps & Hw & Hx).
    exists evs, ps. by rewrite Hw, Ht.
  - destruct (handleZip_nofault filesInDir (ext fl) (outdir fl) cat eq_refl w1 w Hcat Hrun)
      as (evs & ps & Hw & Hx).
    exists evs, ps. by rewrite Hw, Ht.
Qed.

End NoFault.

Lemma extracted_outputs (cat : string) (evs : list event) (ps : list string)
    (ds : list (list byte)) :
  extracted cat evs ps ds -> outputs evs = ps /\ length ps = length ds.
Proof.
  induction 1 as [|path evs ps ds _ [IH1 IH2]|p perm d evs ps ds _ [IH1 IH2]]; simpl.
  - done.
  - done.
  - unfold outputs in *. simpl. by rewrite IH1, IH2.
Qed.

Lemma extracted_writes (cat : string) (evs : list event) (ps : list string)
    (ds : list (list byte)) :
  extracted cat evs ps ds ->
  List.filter is_write evs = concat (zip_with (entryWrites cat) ps ds).
Proof.
  induction 1 as [|path evs ps ds _ IH|p perm d evs ps ds _ IH]; simpl;
    [done | done | by rewrite IH].
Qed.

(** The aggregate file after a fault-free extraction none of whose
    output files is the aggregate file itself. *)
Lemma extracted_aggregate (env : Env) (cat : string) (evs : list event)
    (ps : list string) (ds : list (list byte)) :
  extracted cat evs ps ds ->
  (forall p, p ∈ ps -> resolve env p <> resolve env cat) ->
  forall old,
    fold_left (fun o e => effect_at env (resolve env cat) e o) evs (Some old) =
    Some (old ++ concat (map (fun d => d ++ newline) ds)).
Proof.
  induction 1 as [|path evs ps ds _ IH|p perm d evs ps ds _ IH]; intros Hp old; simpl.
  - by rewrite app_nil_r.
  - by apply IH.
  - assert (Hne : resolve env p <> resolve env cat) by (apply Hp; left).
    rewrite !(bool_decide_eq_false_2 (resolve env p = resolve env cat) Hne).
    rewrite !(bool_decide_eq_true_2 (resolve env cat = resolve env cat) eq_refl).
    simpl.
    rewrite IH; [| intros q Hq; apply Hp; by right].
    by rewrite <- !app_assoc.
Qed.

(** C2, amended. In a run that meets no file-system fault and
    returns normally, every extracted payload (each non-directory zip
    entry, or each gzip file) causes exactly one write of its bytes
    to its own output file and then one write of its bytes and one
    of a newline to the aggregate file, in discovery order, and these
    are all the writes of the run. If moreover no output file of an
    entry is the aggregate file itself, the aggregate file ends as
    the concatenation, in discovery order, of each payload followed
    by one newline. Entries that share an output path with each other
    do not affect this. *)
Theorem aggregate_is_concatenation (env : Env) (fl : Flags)
    (files0 : gmap string (list byte)) (dirs0 : gset string) (w : World) :
  nofault env ->
  run env fl files0 dirs0 = (w, Ret tt) ->
  let cat := catFilePath fl in
  let ds := payloads env fl in
  let ps := outputs (trace w) in
  length ps = length ds
  /\ List.filter is_write (trace w) = concat (zip_with (entryWrites cat) ps ds)
  /\ ((forall p, p ∈ ps -> resolve env p <> resolve env cat) ->
      files w !! resolve env cat = Some (concat (map (fun d => d ++ newline) ds))).
Proof.
  intros Hnf Hrun cat ds ps. unfold run in Hrun.
  destruct (main_nofault env Hnf fl (start files0 dirs0) w eq_refl Hrun)
    as (evs & qs & Ht & Hx).
  destruct (extracted_outputs _ _ _ _ Hx) as [Hout Hlen].
  assert (Hps : ps = qs) by (unfold ps; by rewrite Ht).
  rewrite Hps. split; [done |]. split.
  - rewrite Ht. simpl. by apply extracted_writes.
  - intros Hdistinct.
    destruct (tracks_main env fl (start files0 dirs0)) as (evs' & Ht' & Hf').
    rewrite Hrun in Ht', Hf'. simpl in Ht', Hf'. subst evs'.
    rewrite Hf', replay_lookup, Ht. simpl.
    rewrite bool_decide_eq_true_2 by done.
    by rewrite (extracted_aggregate env cat evs qs ds Hx Hdistinct []).
Qed.

(** ** The properties on concrete inputs *)

Lemma within_intro (destination name : string) :
  gostrings.HasPrefix (filepath.Join destination name)
    (filepath.Clean destination +:+ "/") = true ->
  within destination (filepath.Join destination name).
Proof. apply HasPrefix_within. Qed.

Lemma escape_intro (destination name : string) :
  gostrings.HasPrefix (filepath.Join destination name)
    (filepath.Clean destination +:+ "/") = false ->
  ~ within destination (filepath.Join destination name).
Proof. apply HasPrefix_escape. Qed.

(** C1 on an archive whose second entry is [../evil.txt]: the first
    entry lies below the output root and is extracted; the run ends
    at the second with a fatal log, nothing written for it, and the
    third entry is never reached. *)
Lemma zip_slip_check_witness :
  within "/w/out" (filepath.Join "/w/out" "ok.txt")
  /\ unzipFile slipEnv (zipEntry "../evil.txt" "bad") "/w/out"
       (fst (unzipEntries slipEnv [zipEntry "ok.txt" "fine"] "/w/out"
               (aggregateOpen "out/unknown_blob")))
     = (fst (unzipEntries slipEnv [zipEntry "ok.txt" "fine"] "/w/out"
               (aggregateOpen "out/unknown_blob")),
        Ret (Some (ErrInvalidPath "/w/evil.txt")))
  /\ handleZip slipEnv ["in/a.zip"] ".zip" "out" (aggregateOpen "out/unknown_blob")
     = (fst (unzipEntries slipEnv [zipEntry "ok.txt" "fine"] "/w/out"
               (aggregateOpen "out/unknown_blob")),
        Halt (LogFatal "Unable to to unzip file inside archive: "
                       (Some (ErrInvalidPath "/w/evil.txt")))).
Proof.
  split.
  - apply (proj1 (zip_slip_check slipEnv (zipEntry "ok.txt" "fine") "/w/out"
                    [] [] "in/a.zip" [] [] ".zip" "out"
                    (aggregateOpen "out/unknown_blob") (aggregateOpen "out/unknown_blob")
                    (aggregateOpen "out/unknown_blob"))
                 (fst (unzipFile slipEnv (zipEntry "ok.txt" "fine") "/w/out"
                         (aggregateOpen "out/unknown_blob")))).
    vm_compute. reflexivity.
  - destruct (proj2 (zip_slip_check slipEnv (zipEntry "../evil.txt" "bad") "/w/out"
                       [] [] "in/a.zip" [zipEntry "ok.txt" "fine"]
                       [zipEntry "late.txt" "never"] ".zip" "out"
                       (aggregateOpen "out/unknown_blob")
                       (aggregateOpen "out/unknown_blob")
                       (fst (unzipEntries slipEnv [zipEntry "ok.txt" "fine"] "/w/out"
                               (aggregateOpen "out/unknown_blob")))))
      as [Herr Hrun].
    + apply escape_intro. vm_compute. reflexivity.
    + split; [exact Herr |].
      apply Hrun; vm_compute; reflexivity.
Defined.

(** C9 on the directory entry [sub/]: the directory and those above
    it exist afterwards, and no file has changed. *)
Lemma directory_entry_frame_witness :
  "/w/out/sub" ∈ dirs (fst (unzipFile dirEnv (zipDir "sub/") "/w/out"
                             (aggregateOpen "out/unknown_blob")))
  /\ files (fst (unzipFile dirEnv (zipDir "sub/") "/w/out"
                   (aggregateOpen "out/unknown_blob")))
     = files (aggregateOpen "out/unknown_blob").
Proof.
  destruct (directory_entry_frame dirEnv (zipDir "sub/") "/w/out"
              (aggregateOpen "out/unknown_blob") eq_refl) as [Hframe Hmade].
  split.
  - destruct Hmade as (_ & _ & Hdir & _).
    + apply within_intro. vm_compute. reflexivity.
    + reflexivity.
    + exact Hdir.
  - exact (proj1 Hframe).
Defined.



(** C2 on the specification's two archives: the aggregate file holds
    [A1], a newline, [A2], a newline. *)
Lemma aggregate_is_concatenation_witness :
  files (fst (run twoArchives (zipFlags "out") ∅ ∅)) !! "/w/out/unknown_blob"
  = Some (bytes "A1" ++ newline ++ bytes "A2" ++ newline).
Proof.
  destruct (aggregate_is_concatenation twoArchives (zipFlags "out") ∅ ∅
              (fst (run twoArchives (zipFlags "out") ∅ ∅)))
    as (_ & _ & Hagg).
  - intros h e. reflexivity.
  - vm_compute. reflexivity.
  - apply Hagg. intros p Hp. vm_compute in Hp.
    apply elem_of_cons in Hp as [-> | Hp]; [vm_compute; discriminate |].
    apply elem_of_cons in Hp as [-> | Hp]; [vm_compute; discriminate |].
    by apply elem_of_nil in Hp.
Defined.

(** C2 as stated fails: one archive, one entry named like the
    aggregate file, no fault and no two entries on one path; the
    aggregate file ends with the payload twice. *)
Lemma aggregate_overwritten_by_entry :
  nofault blobEnv
  /\ files (fst (run blobEnv (zipFlags ".") ∅ ∅)) !! "/w/unknown_blob"
     = Some (bytes "X" ++ bytes "X" ++ newline)
  /\ ~ aggregate_claim blobEnv (zipFlags ".") ∅ ∅.
Proof.
  split; [by intros h e |]. split; [by vm_compute |].
  intros Hclaim.
  specialize (Hclaim (fst (run blobEnv (zipFlags ".") ∅ ∅))).
  assert (Hrun : run blobEnv (zipFlags ".") ∅ ∅
                 = (fst (run blobEnv (zipFlags ".") ∅ ∅), Ret tt)) by (by vm_compute).
  specialize (Hclaim Hrun).
  assert (Hnodup : NoDup (map (resolve blobEnv)
                            (outputs (trace (fst (run blobEnv (zipFlags ".") ∅ ∅)))))).
  { vm_compute. apply NoDup_singleton. }
  specialize (Hclaim Hnodup). vm_compute in Hclaim. discriminate.
Qed.

(** C8 on a mixed directory, its entries in the order of their names
    as [os.ReadDir] gives them: the selection, in walk order. And on
    a directory whose subdirectory [sub] cannot be read: the walk
    ends at [sub], so [a.gz] before it is selected and [z.gz] behind
    it is not. *)
Lemma scan_selects_matching_witness :
  sortedTree mixedTree = true
  /\ readable mixedTree = true
  /\ scanned mixedEnv (gzFlags "out")
     = ["in/a.gz"; "in/d.gz/b.gz"; "in/f.tar.gz"; "in/l.gz"]
  /\ scanned unreadableEnv (gzFlags "out") = ["in/a.gz"].
Proof.
  split; [reflexivity |]. split; [reflexivity |]. split.
  - pose proof (scan_selects_matching mixedEnv (gzFlags "out")) as H.
    cbn [lstatRoot mixedEnv] in H. destruct H as (_ & _ & _ & _ & H & _).
    rewrite H by reflexivity. vm_compute. reflexivity.
  - pose proof (scan_selects_matching unreadableEnv (gzFlags "out")) as H.
    cbn [lstatRoot unreadableEnv] in H. destruct H as (H & _).
    rewrite H. vm_compute. reflexivity.
Defined.

(** C8 as stated fails: the symbolic link [l.gz] is selected. *)
Lemma scan_selects_symlink :
  "in/l.gz" ∈ scanned mixedEnv (gzFlags "out")
  /\ ("in/l.gz", {| fs.Name := "l.gz"; fs.Typ := fs.Symlink |}) ∈ listing "in" mixedTree
  /\ ~ selects_only_regular mixedEnv (gzFlags "out") mixedTree.
Proof.
  assert (Hsel : "in/l.gz" ∈ scanned mixedEnv (gzFlags "out")).
  { vm_compute. do 3 apply list_elem_of_further. apply list_elem_of_here. }
  split; [exact Hsel |]. split.
  { vm_compute. do 7 apply list_elem_of_further. apply list_elem_of_here. }
  intros Hclaim. destruct (Hclaim "in/l.gz" Hsel) as (d & Hin & Hreg).
  apply list_elem_of_In in Hin. vm_compute in Hin.
  repeat (destruct Hin as [Hin | Hin];
          [first [ discriminate Hin
                 | injection Hin as <-; discriminate Hreg ] |]).
  exact Hin.
Qed.

(** ** Where the program departs from the specification *)

Lemma keeps_table_ret {A} (a : A) : keeps_table (ret a).
Proof. done. Qed.

Lemma keeps_table_halt {A} (x : exit) : keeps_table (halt (A := A) x).
Proof. done. Qed.

Lemma keeps_table_bind {A B} (m : M A) (k : A -> M B) :
  keeps_table m -> (forall a, keeps_table (k a)) -> keeps_table (bind m k).
Proof.
  intros Hm Hk w. unfold bind. specialize (Hm w).
  destruct (m w) as [w1 [a|x]]; simpl in *; [| done]. by rewrite Hk.
Qed.

Lemma keeps_table_forEach {A} (l : list A) (body : A -> M unit) :
  (forall a, keeps_table (body a)) -> keeps_table (forEach l body).
Proof.
  intros Hb. induction l as [|a l IH]; simpl; [done |].
  apply keeps_table_bind; [apply Hb | by intros _].
Qed.

Lemma keeps_table_OpenFile (env : Env) (name : string) (append : bool) (perm : N) :
  keeps_table (OpenFile env name append perm).
Proof. intros w. unfold OpenFile. by destruct (faulty _ _ _). Qed.

Lemma keeps_table_ioCopyTo (env : Env) (dst : option os.File) (src : stream)
    (srcName : string) :
  keeps_table (ioCopyTo env dst src srcName).
Proof.
  intros w. unfold ioCopyTo. destruct dst as [f|]; [| done].
  by destruct (faulty _ _ _).
Qed.

Lemma keeps_table_autoRename (filePath : string) :
  keeps_table (autoRenameRepeatedFiles filePath).
Proof.
  intros w. unfold autoRenameRepeatedFiles. by destruct (unzipedFiles w !! filePath).
Qed.

Lemma keeps_table_copyFileGz (env : Env) (g n : string) (dst : option os.File) :
  keeps_table (copyFileGz env g n dst).
Proof.
  unfold copyFileGz. destruct (openGz env g); [done | done |].
  apply keeps_table_ioCopyTo.
Qed.

(** The gzip extractor never writes the collision table. *)
Lemma handleGz_keeps_table (env : Env) (l : list string) (ext outdir : string)
    (w : World) :
  unzipedFiles (fst (handleGz env l ext outdir w)) = unzipedFiles w.
Proof.
  revert w. change (keeps_table (handleGz env l ext outdir)).
  unfold handleGz, extractGz, WriteString, fatal. cbv zeta.
  apply keeps_table_forEach. intros g.
  apply keeps_table_bind; [apply keeps_table_autoRename | intros p].
  apply keeps_table_bind; [apply keeps_table_OpenFile | intros [writer|e]; [| done]].
  apply keeps_table_bind; [apply keeps_table_copyFileGz | intros [e|]; [done |]].
  apply keeps_table_bind; [done | intros cat].
  apply keeps_table_bind; [apply keeps_table_copyFileGz | intros [e|]; [done |]].
  apply keeps_table_bind; [apply keeps_table_ioCopyTo | done].
Qed.

(** C3 at three archives that each hold [a.txt]: the counter is kept
    under the path written, not under the path asked for, so the
    third [a.txt] is given the name of the second, [a(1).txt], and
    replaces its bytes. *)
Theorem third_duplicate_overwrites_second :
  let r := run threeArchives (zipFlags "out") ∅ ∅ in
  snd r = Ret tt
  /\ outputs (trace (fst r)) = ["/w/out/a.txt"; "/w/out/a(1).txt"; "/w/out/a(1).txt"]
  /\ files (fst r) !! "/w/out/a.txt" = Some (bytes "A1")
  /\ files (fst r) !! "/w/out/a(1).txt" = Some (bytes "A3")
  /\ unzipedFiles (fst r) !! "/w/out/a.txt" = Some 1%N
  /\ unzipedFiles (fst r) !! "/w/out/a(1).txt" = Some 2%N.
Proof. vm_compute. repeat split. Qed.

(** C4 at one gzip path handed twice to [handleGz]: both streams are
    written to the same path [in/a], and the table holds no path
    afterwards; it never does, whatever the inputs. *)
Theorem gzip_never_records :
  (let r := handleGz gzTwiceEnv ["in/a.gz"; "in/a.gz"] ".gz" "out"
              (aggregateOpen "out/unknown_blob") in
   snd r = Ret tt
   /\ outputs (trace (fst r)) = ["in/a"; "in/a"]
   /\ unzipedFiles (fst r) = ∅)
  /\ (forall env l ext outdir w,
        unzipedFiles (fst (handleGz env l ext outdir w)) = unzipedFiles w).
Proof.
  split; [| apply handleGz_keeps_table].
  split; [by vm_compute |]. split; [by vm_compute |].
  apply handleGz_keeps_table.
Qed.

(** C5 at [in/data.csv.gz] with [-outdir out]: the extracted file is
    [in/data.csv], beside its input; under [out] there is only the
    aggregate file. [handleGz] does not use its [outdir] argument. *)
Theorem gzip_output_beside_input :
  (let r := run csvEnv (gzFlags "out") ∅ ∅ in
   snd r = Ret tt
   /\ outputs (trace (fst r)) = ["in/data.csv"]
   /\ files (fst r) !! "/w/in/data.csv" = Some (gzPayload csvEnv "in/data.csv.gz")
   /\ files (fst r) !! "/w/out/data.csv" = None
   /\ dom (files (fst r)) = {[ "/w/in/data.csv"; "/w/out/unknown_blob" ]})
  /\ (forall env l ext outdir outdir' w,
        handleGz env l ext outdir w = handleGz env l ext outdir' w).
Proof.
  split; [| done].
  split; [by vm_compute |]. split; [by vm_compute |]. split; [by vm_compute |].
  split; [by vm_compute |].
  by vm_compute.
Qed.

(** C6 at an aggregate file that cannot be created: with nothing to
    extract the run returns normally, no fatal log and exit status 0;
    with archives to extract the first output file is written before
    the process stops, and it stops by a nil-pointer panic. At
    newlines that cannot be written the run returns normally and the
    aggregate file lacks them. The error of opening the aggregate
    file and the error of [WriteString] are both dropped. *)
Theorem aggregate_errors_are_dropped :
  (let r := run (emptyDirEnv aggregateFails) (zipFlags "out") ∅ ∅ in
   snd r = Ret tt /\ catFile (fst r) = None /\ trace (fst r) = [])
  /\ (let r := run (withFaults twoArchives aggregateFails) (zipFlags "out") ∅ ∅ in
      snd r = Halt (Panic "nil pointer dereference")
      /\ files (fst r) !! "/w/out/a.txt" = Some (bytes "A1"))
  /\ (let r := run (withFaults twoArchives newlineFails) (zipFlags "out") ∅ ∅ in
      snd r = Ret tt
      /\ files (fst r) !! "/w/out/unknown_blob" = Some (bytes "A1" ++ bytes "A2")).
Proof. vm_compute. repeat split. Qed.

(** C7 at a directory that cannot be read: the walk stops there and
    returns the error, [z.gz] behind it is not found, and [main],
    which drops what [filepath.WalkDir] returns, extracts [a.gz],
    found before the error, and returns normally. *)
Theorem traversal_error_is_dropped :
  WalkDir (lstatRoot unreadableEnv) "in" (scanFn ".gz") []
  = (["in/a.gz"], Ret (Some (PathError "readdir" "in/sub")))
  /\ (let r := run unreadableEnv (gzFlags "out") ∅ ∅ in
      snd r = Ret tt
      /\ outputs (trace (fst r)) = ["in/a"]
      /\ files (fst r) !! "/w/in/a" = Some (bytes "hi")).
Proof. vm_compute. repeat split. Qed.

(** ** The path functions on sample paths *)

Example Clean_ex1 : filepath.Clean "abc//def//ghi" = "abc/def/ghi".
Proof. reflexivity. Qed.
Example Clean_ex2 : filepath.Clean "/../abc" = "/abc".
Proof. reflexivity. Qed.
Example Clean_ex3 : filepath.Clean "abc/../../././../def" = "../../def".
Proof. reflexivity. Qed.
Example Clean_ex4 : filepath.Clean "abc/def/../../.." = "..".
Proof. reflexivity. Qed.
Example Clean_ex5 : filepath.Clean "/abc/def/../../.." = "/".
Proof. reflexivity. Qed.
Example Clean_ex6 : filepath.Clean "abc/./../def" = "def".
Proof. reflexivity. Qed.
Example Clean_ex7 : filepath.Clean "" = ".".
Proof. reflexivity. Qed.
Example Clean_ex8 : filepath.Clean "abc/def/.." = "abc".
Proof. reflexivity. Qed.
Example Clean_ex9 : filepath.Clean "../../abc/" = "../../abc".
Proof. reflexivity. Qed.
Example Clean_ex10 : filepath.Clean "///" = "/".
Proof. reflexivity. Qed.
Example Join_ex1 : filepath.Join "/out" "../etc/passwd" = "/etc/passwd".
Proof. reflexivity. Qed.
Example Join_ex2 : filepath.Join "" "a/b/" = "a/b".
Proof. reflexivity. Qed.
Example Ext_ex1 : filepath.Ext "a/b.tar.gz" = ".gz".
Proof. reflexivity. Qed.
Example Ext_ex2 : filepath.Ext "a.b/c" = "".
Proof. reflexivity. Qed.
Example Base_ex1 : filepath.Base "/a/b.txt" = "b.txt".
Proof. reflexivity. Qed.
Example Base_ex2 : filepath.Base "a/b//" = "b".
Proof. reflexivity. Qed.
Example Base_ex3 : filepath.Base "//" = "/".
Proof. reflexivity. Qed.
Example Dir_ex1 : filepath.Dir "/a/b.txt" = "/a".
Proof. reflexivity. Qed.
Example Dir_ex2 : filepath.Dir "b.txt" = ".".
Proof. reflexivity. Qed.
Example Dir_ex3 : filepath.Dir "/b.txt" = "/".
Proof. reflexivity. Qed.
Example TrimSuffix_ex1 : gostrings.TrimSuffix "in/data.csv.gz" ".gz" = "in/data.csv".
Proof. reflexivity. Qed.
Example TrimSuffix_ex2 : gostrings.TrimSuffix "in/data.csv" ".gz" = "in/data.csv".
Proof. reflexivity. Qed.

(** * Further properties *)

(** ** Cleaned rooted paths *)

Lemma split_sep_plain (e : list ascii) : sep ∉ e -> filepath.split_sep e = [e].
Proof.
  induction e as [|c e IH]; intros He; simpl; [done |].
  apply not_elem_of_cons in He as [Hc He].
  rewrite bool_decide_eq_false_2 by congruence. by rewrite IH.
Qed.

Lemma split_sep_app (e rest : list ascii) :
  sep ∉ e -> filepath.split_sep (e ++ sep :: rest) = e :: filepath.split_sep rest.
Proof.
  induction e as [|c e IH]; intros He; simpl.
  - done.
  - apply not_elem_of_cons in He as [Hc He].
    rewrite bool_decide_eq_false_2 by congruence. by rewrite IH.
Qed.

Lemma join_sep_cons (e : list ascii) (es : list (list ascii)) :
  es <> [] -> filepath.join_sep (e :: es) = e ++ sep :: filepath.join_sep es.
Proof. by destruct es. Qed.

Lemma join_sep_app (ds t : list (list ascii)) :
  ds <> [] -> t <> [] ->
  filepath.join_sep (ds ++ t) = filepath.join_sep ds ++ sep :: filepath.join_sep t.
Proof.
  induction ds as [|d ds IH]; intros Hd Ht; [done |].
  destruct ds as [|d' ds].
  - simpl. by destruct t.
  - change ((d :: d' :: ds) ++ t) with (d :: (d' :: ds) ++ t).
    change (filepath.join_sep (d :: (d' :: ds) ++ t))
      with (d ++ sep :: filepath.join_sep ((d' :: ds) ++ t)).
    rewrite IH by done. rewrite (join_sep_cons d (d' :: ds)) by done.
    by rewrite <- app_assoc.
Qed.

Lemma split_join_app (ds : list (list ascii)) (rest : list ascii) :
  Forall (fun e => sep ∉ e) ds -> ds <> [] ->
  filepath.split_sep (filepath.join_sep ds ++ sep :: rest)
  = ds ++ filepath.split_sep rest.
Proof.
  induction ds as [|d ds IH]; intros Hds Hne; [done |].
  inversion Hds as [|? ? Hd Hds']; subst. destruct ds as [|d' ds].
  - simpl. by apply split_sep_app.
  - rewrite (join_sep_cons d (d' :: ds)) by done.
    rewrite <- app_assoc, <- app_comm_cons.
    rewrite split_sep_app by done. by rewrite IH.
Qed.

Lemma split_join (es : list (list ascii)) :
  Forall (fun e => sep ∉ e) es -> es <> [] ->
  filepath.split_sep (filepath.join_sep es) = es.
Proof.
  induction es as [|e es IH]; intros Hes Hne; [done |].
  inversion Hes as [|? ? He Hes']; subst. destruct es as [|e' es].
  - simpl. by apply split_sep_plain.
  - rewrite (join_sep_cons e (e' :: es)) by done.
    rewrite split_sep_app by done. by rewrite IH.
Qed.

Lemma real_no_sep (es : list (list ascii)) :
  Forall real es -> Forall (fun e => sep ∉ e) es.
Proof. intros H. eapply Forall_impl; [exact H |]. by intros e (_ & He & _). Qed.

(** Proper elements pass through the loop of [Clean] unchanged. *)
Lemma clean_elems_real (rooted : bool) (es out rest : list (list ascii)) :
  Forall real es ->
  filepath.clean_elems rooted out (es ++ rest)
  = filepath.clean_elems rooted (rev es ++ out) rest.
Proof.
  revert out. induction es as [|e es IH]; intros out Hes; [done |].
  inversion Hes as [|? ? (H1 & H2 & H3 & H4) Hes']; subst. simpl.
  rewrite !bool_decide_eq_false_2 by done.
  rewrite IH by done. by rewrite <- app_assoc.
Qed.

(** On a rooted path the loop of [Clean] keeps proper elements only. *)
Lemma clean_elems_rooted_real (elems out : list (list ascii)) :
  Forall real out ->
  Forall (fun e => sep ∉ e) elems ->
  Forall real (filepath.clean_elems true out elems).
Proof.
  revert out. induction elems as [|e rest IH]; intros out Hout Hel; simpl; [done |].
  inversion Hel as [|? ? He Hrest]; subst.
  repeat case_bool_decide; try (by apply IH).
  - destruct out as [|top out']; [by apply IH |].
    inversion Hout; subst. case_bool_decide; by apply IH.
  - apply IH; [| done]. constructor; [| done]. by repeat split.
Qed.

Lemma clean_rooted_path (es : list (list ascii)) :
  Forall real es -> filepath.clean_chars (rooted_path es) = rooted_path es.
Proof.
  intros Hes. unfold rooted_path, filepath.clean_chars.
  rewrite bool_decide_eq_true_2 by done.
  destruct es as [|e es']; [done |].
  set (es := e :: es') in *.
  change (filepath.split_sep (sep :: filepath.join_sep es))
    with ([] :: filepath.split_sep (filepath.join_sep es)).
  rewrite split_join by (by apply real_no_sep || done).
  change (filepath.clean_elems true [] ([] :: es))
    with (filepath.clean_elems true [] es).
  rewrite <- (app_nil_r es) at 1. rewrite clean_elems_real by done.
  cbn [filepath.clean_elems]. by rewrite app_nil_r, rev_involutive.
Qed.

(** A cleaned rooted path is the root followed by proper elements. *)
Lemma clean_chars_rooted (cs : list ascii) :
  exists es, Forall real es /\ filepath.clean_chars (sep :: cs) = rooted_path es.
Proof.
  unfold filepath.clean_chars. rewrite bool_decide_eq_true_2 by done.
  exists (rev (filepath.clean_elems true [] (filepath.split_sep (sep :: cs)))).
  split; [| done]. apply Forall_rev, clean_elems_rooted_real; [done |].
  apply split_sep_no_sep.
Qed.

Lemma rooted_path_snoc (init : list (list ascii)) (l : list ascii) :
  init <> [] -> rooted_path (init ++ [l]) = rooted_path init ++ sep :: l.
Proof. intros H. unfold rooted_path. by rewrite join_sep_app. Qed.

Lemma clean_rooted_trailing (init : list (list ascii)) :
  Forall real init -> init <> [] ->
  filepath.clean_chars (rooted_path init ++ [sep]) = rooted_path init.
Proof.
  intros Hes Hne. unfold rooted_path, filepath.clean_chars.
  rewrite <- app_comm_cons. rewrite bool_decide_eq_true_2 by done.
  change (filepath.split_sep (sep :: ?x)) with ([] :: filepath.split_sep x).
  rewrite split_join_app by (by apply real_no_sep || done).
  change (filepath.clean_elems true [] ([] :: ?x)) with (filepath.clean_elems true [] x).
  rewrite clean_elems_real by done.
  cbn [filepath.split_sep filepath.clean_elems]. rewrite bool_decide_eq_true_2 by done.
  rewrite app_nil_r, rev_involutive. by destruct init.
Qed.

Lemma drop_last_elem_app (r rest : list ascii) :
  sep ∉ r -> filepath.drop_last_elem (r ++ sep :: rest) = sep :: rest.
Proof.
  induction r as [|c r IH]; intros Hr; simpl.
  - done.
  - apply not_elem_of_cons in Hr as [Hc Hr].
    rewrite bool_decide_eq_false_2 by congruence. by apply IH.
Qed.

Lemma last_elem_rev_app (r rest acc : list ascii) :
  sep ∉ r -> filepath.last_elem_rev (r ++ sep :: rest) acc = rev r ++ acc.
Proof.
  revert acc. induction r as [|c r IH]; intros acc Hr; simpl.
  - done.
  - apply not_elem_of_cons in Hr as [Hc Hr].
    rewrite bool_decide_eq_false_2 by congruence. rewrite IH by done.
    by rewrite <- app_assoc.
Qed.

Lemma ext_rev_app (r rest acc : list ascii) :
  sep ∉ r -> filepath.ext_rev (r ++ sep :: rest) acc = filepath.ext_rev r acc.
Proof.
  revert acc. induction r as [|c r IH]; intros acc Hr; simpl.
  - done.
  - apply not_elem_of_cons in Hr as [Hc Hr].
    rewrite bool_decide_eq_false_2 by congruence.
    case_bool_decide; [done | by apply IH].
Qed.

Lemma not_elem_of_rev {A} (x : A) (l : list A) : x ∉ l -> x ∉ rev l.
Proof.
  intros H Hin. apply H. apply list_elem_of_In, in_rev. by apply list_elem_of_In.
Qed.

Lemma rev_app_sep (a l : list ascii) : rev (a ++ sep :: l) = rev l ++ sep :: rev a.
Proof. rewrite rev_app_distr. simpl. by rewrite <- app_assoc. Qed.

Lemma rev_cons_rev (a : list ascii) : rev (sep :: rev a) = a ++ [sep].
Proof. simpl. by rewrite rev_involutive. Qed.

Section Snoc.

Variables (init : list (list ascii)) (l : list ascii).
Hypothesis Hinit : Forall real init.
Hypothesis Hne : init <> [].
Hypothesis Hl : real l.

Lemma Dir_snoc :
  filepath.Dir (str (rooted_path (init ++ [l]))) = str (rooted_path init).
Proof.
  destruct Hl as (_ & Hsep & _).
  unfold filepath.Dir. rewrite chars_str, rooted_path_snoc by done.
  rewrite rev_app_sep, drop_last_elem_app by by apply not_elem_of_rev.
  by rewrite rev_cons_rev, clean_rooted_trailing.
Qed.

Lemma Base_snoc : filepath.Base (str (rooted_path (init ++ [l]))) = str l.
Proof.
  destruct Hl as (Hnil & Hsep & _).
  unfold filepath.Base. rewrite chars_str, rooted_path_snoc by done.
  destruct (rooted_path init ++ sep :: l) as [|c0 cs] eqn:E;
    [by destruct (rooted_path init) |].
  rewrite <- E, rev_app_sep. clear E. destruct (rev l) as [|c r] eqn:Hrev.
  { apply (f_equal (@rev ascii)) in Hrev. rewrite rev_involutive in Hrev. done. }
  assert (Hcr : sep ∉ c :: r) by (rewrite <- Hrev; by apply not_elem_of_rev).
  pose proof Hcr as [Hc _]%not_elem_of_cons.
  rewrite <- app_comm_cons. cbn [filepath.drop_seps].
  rewrite bool_decide_eq_false_2 by congruence.
  rewrite app_comm_cons, last_elem_rev_app by done.
  rewrite app_nil_r, <- Hrev, rev_involutive. by destruct l.
Qed.

Lemma Ext_snoc :
  filepath.Ext (str (rooted_path (init ++ [l]))) = str (filepath.ext_rev (rev l) []).
Proof.
  destruct Hl as (_ & Hsep & _).
  unfold filepath.Ext. rewrite chars_str, rooted_path_snoc by done.
  by rewrite rev_app_sep, ext_rev_app by by apply not_elem_of_rev.
Qed.

End Snoc.

(** ** Extensions *)

Lemma ext_rev_found (pre rest acc : list ascii) :
  dot ∉ pre -> sep ∉ pre ->
  filepath.ext_rev (pre ++ dot :: rest) acc = dot :: rev pre ++ acc.
Proof.
  revert acc. induction pre as [|c pre IH]; intros acc Hd Hs; simpl.
  - done.
  - apply not_elem_of_cons in Hd as [Hd1 Hd2]. apply not_elem_of_cons in Hs as [Hs1 Hs2].
    rewrite !bool_decide_eq_false_2 by congruence. rewrite IH by done.
    by rewrite <- app_assoc.
Qed.

Lemma ext_rev_none (r acc : list ascii) : dot ∉ r -> filepath.ext_rev r acc = [].
Proof.
  revert acc. induction r as [|c r IH]; intros acc Hd; simpl; [done |].
  apply not_elem_of_cons in Hd as [Hd1 Hd2]. case_bool_decide; [done |].
  rewrite bool_decide_eq_false_2 by congruence. by apply IH.
Qed.

Lemma ext_rev_shape (r acc : list ascii) :
  filepath.ext_rev r acc = []
  \/ (exists pre, (dot ∉ pre) /\ (sep ∉ pre) /\
         filepath.ext_rev r acc = dot :: rev pre ++ acc).
Proof.
  revert acc. induction r as [|c r IH]; intros acc; simpl; [by left |].
  case_bool_decide as Hs; [by left |]. case_bool_decide as Hd.
  - right. exists []. subst c. repeat split; apply not_elem_of_nil.
  - destruct (IH (c :: acc)) as [He | (pre & H1 & H2 & He)]; [by left |].
    right. exists (c :: pre). rewrite He. simpl. rewrite <- app_assoc.
    repeat split; try done; apply not_elem_of_cons; split; congruence.
Qed.

(** The extension of an extension is the extension itself. *)
Lemma Ext_idem (path : string) : filepath.Ext (filepath.Ext path) = filepath.Ext path.
Proof.
  unfold filepath.Ext. rewrite chars_str.
  destruct (ext_rev_shape (rev (chars path)) []) as [-> | (pre & H1 & H2 & ->)]; [done |].
  rewrite app_nil_r. simpl rev. rewrite rev_involutive.
  by rewrite ext_rev_found, app_nil_r.
Qed.

Lemma ext_rev_nil_no_dot (r acc : list ascii) :
  sep ∉ r -> filepath.ext_rev r acc = [] -> dot ∉ r.
Proof.
  revert acc. induction r as [|c r IH]; intros acc Hs He; [apply not_elem_of_nil |].
  apply not_elem_of_cons in Hs as [Hs1 Hs2]. simpl in He.
  rewrite bool_decide_eq_false_2 in He by congruence.
  case_bool_decide; [done |]. apply not_elem_of_cons. split; [congruence |].
  by apply (IH (c :: acc)).
Qed.

Lemma rooted_prefix (es ds : list (list ascii)) (rest : list ascii) :
  Forall real es -> Forall real ds ->
  rooted_path es = rooted_path ds ++ sep :: rest ->
  ds <> [] /\ exists t, t <> [] /\ es = ds ++ t.
Proof.
  intros Hes Hds Heq. unfold rooted_path in Heq. injection Heq as Heq.
  assert (Hes' : es <> []) by (intros ->; by destruct (filepath.join_sep ds)).
  destruct ds as [|d ds'].
  - exfalso. destruct es as [|e es']; [done |].
    inversion Hes as [|? ? (Hnil & Hsep & _) _]; subst.
    destruct e as [|c e]; [done |]. apply not_elem_of_cons in Hsep as [Hc _].
    destruct es'; simpl in Heq; injection Heq as Hc' _; congruence.
  - split; [done |]. exists (filepath.split_sep rest).
    split; [by destruct rest as [|c rest]; simpl; repeat case_match |].
    rewrite <- (split_join es) by (by apply real_no_sep || done).
    rewrite Heq. by rewrite split_join_app by (by apply real_no_sep || done).
Qed.

Lemma chars_substring (k : nat) (s : string) :
  chars (String.substring 0 k s) = take k (chars s).
Proof.
  revert s. induction k as [|k IH]; intros [|c s]; simpl; try done.
  by rewrite IH.
Qed.

Lemma ext_rev_no_sep (r acc : list ascii) :
  sep ∉ acc -> sep ∉ filepath.ext_rev r acc.
Proof.
  revert acc. induction r as [|c r IH]; intros acc Hacc; simpl.
  - apply not_elem_of_nil.
  - case_bool_decide; [apply not_elem_of_nil |].
    case_bool_decide; [| apply IH]; apply not_elem_of_cons; by split.
Qed.

Lemma digits_no_sep (d : Decimal.uint) : sep ∉ chars (NilEmpty.string_of_uint d).
Proof.
  induction d; simpl; try apply not_elem_of_nil;
    apply not_elem_of_cons; (split; [done | assumption]).
Qed.

Lemma digits_no_dot (d : Decimal.uint) : dot ∉ chars (NilEmpty.string_of_uint d).
Proof.
  induction d; simpl; try apply not_elem_of_nil;
    apply not_elem_of_cons; (split; [done | assumption]).
Qed.

Lemma decimal_no_dot (n : N) : dot ∉ chars (decimal n).
Proof.
  unfold decimal, NilZero.string_of_uint.
  destruct (N.to_uint n) eqn:E; try (rewrite <- E; apply digits_no_dot).
  simpl. apply not_elem_of_cons. split; [done | apply not_elem_of_nil].
Qed.

Lemma decimal_no_sep (n : N) : sep ∉ chars (decimal n).
Proof.
  unfold decimal, NilZero.string_of_uint.
  destruct (N.to_uint n) eqn:E; try (rewrite <- E; apply digits_no_sep).
  simpl. apply not_elem_of_cons. split; [done | apply not_elem_of_nil].
Qed.

(** The file name the renaming block builds is a proper element. *)
Lemma newName_real (l : list ascii) (counter : N) :
  sep ∉ l ->
  real (take (length l - length (filepath.ext_rev (rev l) [])) l
        ++ chars "(" ++ chars (decimal counter) ++ chars ")"
        ++ filepath.ext_rev (rev l) []).
Proof.
  intros Hl.
  assert (Hparen : "("%char ∈ take (length l - length (filepath.ext_rev (rev l) [])) l
            ++ chars "(" ++ chars (decimal counter) ++ chars ")"
            ++ filepath.ext_rev (rev l) []).
  { apply elem_of_app. right. apply list_elem_of_here. }
  split; [intros E; rewrite E in Hparen; by apply elem_of_nil in Hparen |].
  split.
  - rewrite !not_elem_of_app. repeat split.
    + intros Hin. apply Hl. by apply elem_of_take in Hin as (i & Hi%list_elem_of_lookup_2 & _).
    + simpl. apply not_elem_of_cons. split; [done | apply not_elem_of_nil].
    + apply decimal_no_sep.
    + simpl. apply not_elem_of_cons. split; [done | apply not_elem_of_nil].
    + apply ext_rev_no_sep, not_elem_of_nil.
  - split; intros E; rewrite E in Hparen; unfold filepath.dotdot in Hparen;
      repeat (apply elem_of_cons in Hparen as [Hparen | Hparen]; [discriminate |]);
      by apply elem_of_nil in Hparen.
Qed.

(** The file name the renaming block builds has the extension of the
    name it was built from. *)
Lemma newName_ext (l : list ascii) (counter : N) :
  sep ∉ l ->
  filepath.ext_rev
    (rev (take (length l - length (filepath.ext_rev (rev l) [])) l
          ++ chars "(" ++ chars (decimal counter) ++ chars ")"
          ++ filepath.ext_rev (rev l) [])) []
  = filepath.ext_rev (rev l) [].
Proof.
  intros Hl.
  destruct (ext_rev_shape (rev l) []) as [He | (pre & H1 & H2 & He)].
  - pose proof (ext_rev_nil_no_dot (rev l) [] (not_elem_of_rev _ _ Hl) He) as Hd.
    rewrite He. apply ext_rev_none, not_elem_of_rev.
    rewrite !not_elem_of_app. repeat split.
    + intros Hin. apply Hd, list_elem_of_In, (proj1 (in_rev _ _)), list_elem_of_In.
      by apply elem_of_take in Hin as (i & Hi%list_elem_of_lookup_2 & _).
    + simpl. apply not_elem_of_cons. split; [done | apply not_elem_of_nil].
    + apply decimal_no_dot.
    + simpl. apply not_elem_of_cons. split; [done | apply not_elem_of_nil].
    + apply not_elem_of_nil.
  - rewrite He, app_nil_r. rewrite !app_assoc, rev_app_distr. simpl rev at 1.
    rewrite rev_involutive, <- app_assoc. simpl app.
    by rewrite ext_rev_found, app_nil_r.
Qed.

(** The renaming block on a cleaned rooted path: the last element is
    replaced, the directory kept. *)
Lemma renamedPath_snoc (init : list (list ascii)) (l : list ascii) (counter : N) :
  Forall real init -> init <> [] -> real l ->
  exists n, real n /\
    length l < length n /\
    filepath.ext_rev (rev n) [] = filepath.ext_rev (rev l) [] /\
    renamedPath (str (rooted_path (init ++ [l]))) counter
    = Ret (str (rooted_path (init ++ [n]))).
Proof.
  intros Hinit Hne Hl.
  set (x := filepath.ext_rev (rev l) []).
  exists (take (length l - length x) l
          ++ chars "(" ++ chars (decimal counter) ++ chars ")" ++ x).
  pose proof (newName_real l counter (proj1 (proj2 Hl))) as Hn. fold x in Hn.
  split; [done |].
  assert (Hx : length x <= length l).
  { pose proof (Ext_le_Base (str (rooted_path (init ++ [l])))) as H3.
    rewrite (Base_snoc init l Hne Hl), (Ext_snoc init l Hne Hl) in H3.
    by rewrite !length_str in H3. }
  split.
  { rewrite !length_app, length_take. simpl. lia. }
  split; [apply newName_ext, Hl |].
  unfold renamedPath.
  rewrite (Dir_snoc init l Hinit Hne Hl), (Base_snoc init l Hne Hl),
    (Ext_snoc init l Hne Hl). fold x. rewrite !length_str.
  apply Nat.leb_le in Hx as Hx'. rewrite Hx'. f_equal.
  unfold filepath.Join. rewrite bool_decide_eq_false_2 by done.
  unfold filepath.Clean. f_equal.
  rewrite !chars_append, chars_substring, !chars_str.
  etransitivity; [| apply clean_rooted_path, Forall_app; split; [done | by constructor]].
  f_equal. by rewrite rooted_path_snoc.
Qed.

Lemma IsAbs_chars (p : string) :
  filepath.IsAbs p = true -> exists cs, chars p = sep :: cs.
Proof.
  unfold filepath.IsAbs. intros [r ->]%HasPrefix_true. by exists (chars r).
Qed.

Lemma Clean_rooted (p : string) :
  filepath.IsAbs p = true ->
  exists es, Forall real es /\ filepath.Clean p = str (rooted_path es).
Proof.
  intros [cs Hcs]%IsAbs_chars. unfold filepath.Clean. rewrite Hcs.
  destruct (clean_chars_rooted cs) as (es & Hes & ->). by exists es.
Qed.

Lemma Join_rooted (a b : string) :
  filepath.IsAbs a = true ->
  exists es, Forall real es /\ filepath.Join a b = str (rooted_path es).
Proof.
  intros Ha. unfold filepath.Join.
  destruct (IsAbs_chars a Ha) as [cs Hcs].
  rewrite bool_decide_eq_false_2 by (intros ->; discriminate).
  apply Clean_rooted. unfold filepath.IsAbs. apply HasPrefix_true.
  apply IsAbs_chars in Ha as [cs' Ha]. destruct a as [|c a]; [done |].
  injection Ha as -> _. by eexists.
Qed.

(** A path the check of [unzipFile] accepts under a rooted
    destination: the elements of the cleaned destination, followed by
    at least one more proper element. *)
Lemma within_rooted (destination name : string) :
  filepath.IsAbs destination = true ->
  within destination (filepath.Join destination name) ->
  exists ds t l,
    ds <> [] /\ Forall real (ds ++ t) /\ real l /\
    filepath.Clean destination = str (rooted_path ds) /\
    filepath.Join destination name = str (rooted_path ((ds ++ t) ++ [l])).
Proof.
  intros Habs (rest & Hrest & Hin).
  destruct (Clean_rooted destination Habs) as (ds & Hds & Hclean).
  destruct (Join_rooted destination name Habs) as (es & Hes & Hjoin).
  rewrite Hjoin, Hclean in Hin. apply (f_equal chars) in Hin.
  rewrite !chars_append, !chars_str in Hin. change (chars "/") with [sep] in Hin.
  simpl app in Hin.
  destruct (rooted_prefix es ds (chars rest) Hes Hds Hin) as (Hne & t & Ht & ->).
  destruct (exists_last Ht) as (t' & l & ->).
  exists ds, t', l. rewrite app_assoc in Hes, Hjoin.
  apply Forall_app in Hes as [Hinit Hl]. inversion Hl as [|? ? Hl' _]; subst.
  exact (conj Hne (conj Hinit (conj Hl' (conj Hclean Hjoin)))).
Qed.

Lemma join_sep_snoc_nonempty (t : list (list ascii)) (n : list ascii) :
  n <> [] -> filepath.join_sep (t ++ [n]) <> [].
Proof.
  intros Hn. destruct t as [|e t]; [done |].
  rewrite (join_sep_app (e :: t) [n]) by done. by destruct (filepath.join_sep (e :: t)).
Qed.

Lemma rooted_within (destination : string) (ds t : list (list ascii)) (n : list ascii) :
  ds <> [] -> n <> [] ->
  filepath.Clean destination = str (rooted_path ds) ->
  within destination (str (rooted_path ((ds ++ t) ++ [n]))).
Proof.
  intros Hne Hn Hclean. exists (str (filepath.join_sep (t ++ [n]))). split.
  - intros E. apply (f_equal chars) in E. rewrite chars_str in E.
    by apply (join_sep_snoc_nonempty t n).
  - rewrite Hclean. apply chars_inj. rewrite !chars_append, !chars_str.
    rewrite <- app_assoc. unfold rooted_path.
    rewrite join_sep_app; [done | done | by destruct t].
Qed.

(** ** What [unzipFile] does, case by case *)

Lemma target_exists (table : gmap string N) (filePath : string) :
  exists p, target table filePath p.
Proof.
  unfold target. destruct (table !! filePath) as [c|]; [| by eexists].
  destruct (renamedPath_total filePath c) as [p Hp]. by exists p.
Qed.

Lemma unzipedFiles_perform (env : Env) (e : event) (w : World) :
  unzipedFiles (perform env e w) = unzipedFiles w.
Proof. done. Qed.

Lemma catFile_perform (env : Env) (e : event) (w : World) :
  catFile (perform env e w) = catFile w.
Proof. done. Qed.

Lemma trace_perform (env : Env) (e : event) (w : World) :
  trace (perform env e w) = trace w ++ [e].
Proof. done. Qed.

(** A leaf of the case analysis: the computation has stopped with an
    error result after the effects performed so far. *)
Ltac stopped r :=
  subst r;
  first [ exists []; simpl; rewrite app_nil_r; split; [reflexivity |]
        | eexists; simpl; rewrite <- ?app_assoc; split; [reflexivity |] ];
  (split; [done |]); (split; [by intros ? [=] |]);
  (split; [by econstructor | left; by split]).

Lemma unzipFile_cases (env : Env) (f : zip.File) (destination : string) (w : World) :
  let filePath := filepath.Join destination (zip.Name f) in
  let r := unzipFile env f destination w in
  exists evs,
    trace (fst r) = trace w ++ evs /\ catFile (fst r) = catFile w /\
    (forall x, snd r = Halt x ->
       catFile w = None /\ x = Panic "nil pointer dereference") /\
    ((~ within destination filePath /\ evs = [] /\
      unzipedFiles (fst r) = unzipedFiles w /\ snd r <> Ret None)
     \/ (within destination filePath /\ zip.IsDir f = true /\
         unzipedFiles (fst r) = unzipedFiles w /\
         ((evs = [] /\ snd r <> Ret None) \/
          (evs = [EvMkdirAll filePath] /\ snd r = Ret None)))
     \/ (within destination filePath /\ zip.IsDir f = false /\
         exists p, target (unzipedFiles w) filePath p /\
           entry_trace (filepath.Dir filePath) p (zip.Mode f) (catFile w) evs /\
           ((snd r <> Ret None /\ unzipedFiles (fst r) = unzipedFiles w) \/
            (snd r = Ret None /\
             exists c d3,
               catFile w = Some c /\
               evs = [EvMkdirAll (filepath.Dir filePath); EvOpenFile p false (zip.Mode f);
                      EvWrite p false (payload f);
                      EvWrite (os.Name c) (os.Append c) (payload f);
                      EvWrite (os.Name c) (os.Append c) d3] /\
               unzipedFiles (fst r) = bumped p (unzipedFiles w))))).
Proof.
  intros filePath r. unfold r, unzipFile. clear r. fold filePath.
  destruct (gostrings.HasPrefix filePath _) eqn:Hpre; cbn [negb]; cbv beta iota.
  2:{ exists []. simpl. rewrite app_nil_r. split; [done |]. split; [done |].
      split; [done |]. left. apply HasPrefix_escape in Hpre. by repeat split. }
  apply HasPrefix_within in Hpre. fold filePath in Hpre. clearbody filePath.
  destruct (zip.IsDir f) eqn:Hdir; cbv beta iota.
  { unfold MkdirAll. cbv beta iota.
    destruct (faulty env (trace w) (EvMkdirAll filePath)).
    - exists []. simpl. rewrite app_nil_r. split; [done |]. split; [done |].
      split; [done |]. right. left. repeat split; try done. by left.
    - exists [EvMkdirAll filePath]. simpl. split; [done |]. split; [done |].
      split; [done |]. right. left. repeat split; try done. by right. }
  destruct (target_exists (unzipedFiles w) filePath) as [p Hp].
  match goal with |- context [?comp w] =>
    match comp with bind _ _ => remember (comp w) as r eqn:Hr end end.
  cut (exists evs,
         trace r.1 = trace w ++ evs /\ catFile r.1 = catFile w /\
         (forall x, r.2 = Halt x ->
            catFile w = None /\ x = Panic "nil pointer dereference") /\
         entry_trace (filepath.Dir filePath) p (zip.Mode f) (catFile w) evs /\
         ((r.2 <> Ret None /\ unzipedFiles r.1 = unzipedFiles w) \/
          (r.2 = Ret None /\
           exists c d3,
             catFile w = Some c /\
             evs = [EvMkdirAll (filepath.Dir filePath); EvOpenFile p false (zip.Mode f);
                    EvWrite p false (payload f);
                    EvWrite (os.Name c) (os.Append c) (payload f);
                    EvWrite (os.Name c) (os.Append c) d3] /\
             unzipedFiles r.1 = bumped p (unzipedFiles w)))).
  { intros (evs & Ht & Hc & Hh & He & Hres). exists evs.
    split; [done |]. split; [done |]. split; [done |].
    right. right. split; [done |]. split; [done |]. by exists p. }
  unfold bind, MkdirAll in Hr.
  destruct (faulty env (trace w) (EvMkdirAll (filepath.Dir filePath))) as [k|];
    [stopped r |].
  cbv beta iota in Hr. rewrite unzipedFiles_perform in Hr.
  assert (Hsel : (match unzipedFiles w !! filePath return M string with
                  | Some counter => fun w0 : World => (w0, renamedPath filePath counter)
                  | None => ret filePath
                  end) = (fun w0 => (w0, Ret p))).
  { unfold target in Hp. destruct (unzipedFiles w !! filePath); by rewrite Hp. }
  rewrite Hsel in Hr. clear Hsel. cbv beta iota in Hr. unfold OpenFile in Hr.
  simpl trace in Hr.
  destruct (faulty env _ (EvOpenFile p false (zip.Mode f))) as [k|]; [stopped r |].
  cbv beta iota in Hr. unfold copyToFile, payload in *.
  destruct (zip.Open f) as [s|]; [| stopped r].
  unfold ioCopyTo at 1 in Hr. simpl trace in Hr. simpl os.Name in Hr. simpl os.Append in Hr.
  destruct (faulty env _ (EvWrite p false (sdata s))) as [k|]; [stopped r |].
  destruct (sfails s) eqn:Hs; [stopped r |].
  cbv beta iota in Hr. unfold getCatFile, put in Hr. cbv beta iota in Hr.
  rewrite !catFile_perform in Hr.
  destruct (catFile w) as [c|] eqn:Hcat.
  2:{ subst r. eexists. simpl. rewrite <- !app_assoc. split; [reflexivity |].
      split; [done |]. split; [by intros x [= <-] |].
      split; [constructor | left; by split]. }
  unfold ioCopyTo at 1 in Hr. simpl trace in Hr.
  destruct (faulty env _ (EvWrite (os.Name c) (os.Append c) (sdata s))) as [k|];
    [stopped r |].
  rewrite Hs in Hr. cbv beta iota in Hr. unfold WriteString, ioCopyTo in Hr.
  simpl in Hr.
  destruct (faulty env _ (EvWrite (os.Name c) (os.Append c) newline)) as [k|];
    subst r; eexists; simpl; rewrite <- !app_assoc;
    (split; [reflexivity |]); (split; [done |]); (split; [by intros ? [=] |]);
    (split; [by econstructor | right; split; [done |]; by eexists _, _]).
Qed.

(** ** What the body of [handleGz] does, case by case *)

Ltac gz_stopped r :=
  subst r;
  first [ exists []; simpl; rewrite app_nil_r; split; [reflexivity |]
        | eexists; simpl; rewrite <- ?app_assoc; split; [reflexivity |] ];
  (split; [done |]); (split; [done |]); (split; [by econstructor |]);
  right; eexists; (split; [reflexivity |]); eauto.

Lemma extractGz_cases (env : Env) (g : string) (w : World) :
  let r := extractGz env g w in
  exists p,
    target (unzipedFiles w) (gostrings.TrimSuffix g ".gz") p /\
    exists evs,
    trace (fst r) = trace w ++ evs /\ catFile (fst r) = catFile w /\
    unzipedFiles (fst r) = unzipedFiles w /\
    gz_trace p (catFile w) evs /\
    ((snd r = Ret tt /\
      exists c d3,
        catFile w = Some c /\
        evs = [EvOpenFile p false 438; EvWrite p false (gzPayload env g);
               EvWrite (os.Name c) (os.Append c) (gzPayload env g);
               EvWrite (os.Name c) (os.Append c) d3])
     \/ (exists x, snd r = Halt x /\
           exists e, x = LogFatal "" (Some e) \/ x = OsExit 1 (Some e))).
Proof.
  intros r.
  destruct (target_exists (unzipedFiles w) (gostrings.TrimSuffix g ".gz")) as [p Hp].
  exists p. split; [done |].
  remember r as r' eqn:Hr. unfold r, extractGz in Hr. clear r. rename r' into r.
  cbv zeta in Hr. unfold bind at 1 in Hr.
  assert (Hsel : autoRenameRepeatedFiles (gostrings.TrimSuffix g ".gz") w = (w, Ret p)).
  { unfold autoRenameRepeatedFiles, target in *.
    destruct (unzipedFiles w !! gostrings.TrimSuffix g ".gz"); by rewrite Hp. }
  rewrite Hsel in Hr. clear Hsel. unfold bind, OpenFile, fatal, halt in Hr.
  destruct (faulty env (trace w) (EvOpenFile p false 438)) as [k|]; [gz_stopped r |].
  cbv beta iota in Hr. unfold copyFileGz, gzPayload, halt, ret in *.
  destruct (openGz env g) as [| |s]; [gz_stopped r | gz_stopped r |].
  unfold ioCopyTo at 1 in Hr. simpl trace in Hr. simpl os.Name in Hr. simpl os.Append in Hr.
  destruct (faulty env _ (EvWrite p false (sdata s))) as [k|]; [gz_stopped r |].
  destruct (sfails s) eqn:Hs; [gz_stopped r |].
  cbv beta iota in Hr. unfold getCatFile, put in Hr. cbv beta iota in Hr.
  rewrite !catFile_perform in Hr.
  destruct (catFile w) as [c|] eqn:Hcat; [| gz_stopped r].
  unfold ioCopyTo at 1 in Hr. simpl trace in Hr.
  destruct (faulty env _ (EvWrite (os.Name c) (os.Append c) (sdata s))) as [k|];
    [gz_stopped r |].
  rewrite Hs in Hr. cbv beta iota in Hr. unfold WriteString, ioCopyTo in Hr.
  simpl in Hr.
  destruct (faulty env _ (EvWrite (os.Name c) (os.Append c) newline)) as [k|];
    subst r; eexists; simpl; rewrite <- !app_assoc;
    (split; [reflexivity |]); (split; [done |]); (split; [done |]);
    (split; [by econstructor | left; split; [done |]; by eexists _, _]).
Qed.

(** ** Renamed paths stay in place *)

Lemma str_inj (a b : list ascii) : str a = str b -> a = b.
Proof. intros H. apply (f_equal chars) in H. by rewrite !chars_str in H. Qed.

Lemma renamedPath_elements (destination name : string) (counter : N) :
  filepath.IsAbs destination = true ->
  within destination (filepath.Join destination name) ->
  exists ds t l n,
    ds <> [] /\ Forall real (ds ++ t) /\ real l /\ real n /\
    length l < length n /\
    filepath.ext_rev (rev n) [] = filepath.ext_rev (rev l) [] /\
    filepath.Clean destination = str (rooted_path ds) /\
    filepath.Join destination name = str (rooted_path ((ds ++ t) ++ [l])) /\
    renamedPath (filepath.Join destination name) counter
    = Ret (str (rooted_path ((ds ++ t) ++ [n]))).
Proof.
  intros Habs Hin.
  destruct (within_rooted destination name Habs Hin)
    as (ds & t & l & Hne & Hinit & Hl & Hclean & Hjoin).
  assert (Hne' : ds ++ t <> []) by by destruct ds.
  destruct (renamedPath_snoc (ds ++ t) l counter Hinit Hne' Hl)
    as (n & Hn & Hlen & Hext & Hren).
  exists ds, t, l, n. rewrite Hjoin.
  exact (conj Hne (conj Hinit (conj Hl (conj Hn (conj Hlen (conj Hext
          (conj Hclean (conj eq_refl Hren)))))))).
Qed.

Lemma renamedPath_within (destination name : string) (counter : N) :
  filepath.IsAbs destination = true ->
  within destination (filepath.Join destination name) ->
  exists p, renamedPath (filepath.Join destination name) counter = Ret p
            /\ within destination p.
Proof.
  intros Habs Hin.
  destruct (renamedPath_elements destination name counter Habs Hin)
    as (ds & t & l & n & Hne & Hinit & Hl & Hn & Hlen & Hext & Hclean & Hjoin & Hren).
  eexists. split; [exact Hren |]. apply rooted_within; [done | apply Hn | done].
Qed.

(** The directory of an accepted path is the destination or lies
    below it. *)
Lemma Dir_within (destination name : string) :
  filepath.IsAbs destination = true ->
  within destination (filepath.Join destination name) ->
  filepath.Dir (filepath.Join destination name) = filepath.Clean destination
  \/ within destination (filepath.Dir (filepath.Join destination name)).
Proof.
  intros Habs Hin.
  destruct (within_rooted destination name Habs Hin)
    as (ds & t & l & Hne & Hinit & Hl & Hclean & Hjoin).
  assert (Hne' : ds ++ t <> []) by by destruct ds.
  rewrite Hjoin, (Dir_snoc (ds ++ t) l Hinit Hne' Hl).
  destruct t as [|e t] using rev_ind.
  - left. by rewrite app_nil_r, Hclean.
  - right. rewrite app_assoc in Hinit |- *.
    apply Forall_app in Hinit as [_ He]. inversion He as [|? ? [He1 _] _]; subst.
    by apply rooted_within.
Qed.

(** X1. Under an absolute destination, the renaming block applied to
    a path that passed the check of [unzipFile] always returns a
    path (the slice is in range); that path still lies strictly below
    the destination, differs from the path it was made from, and has
    the same directory and the same extension. *)
Theorem renaming_keeps_place (destination name : string) (counter : N) :
  filepath.IsAbs destination = true ->
  within destination (filepath.Join destination name) ->
  exists p,
    renamedPath (filepath.Join destination name) counter = Ret p
    /\ within destination p
    /\ p <> filepath.Join destination name
    /\ filepath.Dir p = filepath.Dir (filepath.Join destination name)
    /\ filepath.Ext p = filepath.Ext (filepath.Join destination name).
Proof.
  intros Habs Hin.
  destruct (renamedPath_elements destination name counter Habs Hin)
    as (ds & t & l & n & Hne & Hinit & Hl & Hn & Hlen & Hext & Hclean & Hjoin & Hren).
  assert (Hne' : ds ++ t <> []) by by destruct ds.
  eexists. split; [exact Hren |]. rewrite Hjoin.
  split; [apply rooted_within; [done | apply Hn | done] |].
  split.
  - intros E%str_inj. rewrite !rooted_path_snoc in E by done.
    apply app_inv_head in E. injection E as ->. lia.
  - rewrite !Dir_snoc, !Ext_snoc by done. by rewrite Hext.
Qed.

(** X1 on the second use of [/w/out/a.txt]: the new name is
    [/w/out/a(1).txt]. *)
Lemma renaming_keeps_place_witness :
  exists p,
    renamedPath (filepath.Join "/w/out" "a.txt") 1 = Ret p /\
    within "/w/out" p /\
    p <> filepath.Join "/w/out" "a.txt" /\
    filepath.Dir p = filepath.Dir (filepath.Join "/w/out" "a.txt") /\
    filepath.Ext p = filepath.Ext (filepath.Join "/w/out" "a.txt").
Proof.
  apply (renaming_keeps_place "/w/out" "a.txt" 1); [reflexivity |].
  apply within_intro; reflexivity.
Defined.

(** ** The zip extractor stays below its destination *)

Lemma IsAbs_rooted_path (es : list (list ascii)) :
  filepath.IsAbs (str (rooted_path es)) = true.
Proof. unfold filepath.IsAbs. apply HasPrefix_true. by eexists. Qed.

Lemma Abs_rooted (env : Env) (outdir destination : string) :
  filepath.IsAbs (cwd env) = true ->
  Abs env outdir = inl destination ->
  filepath.IsAbs destination = true.
Proof.
  intros Hcwd. unfold Abs. destruct (filepath.IsAbs outdir) eqn:Hout.
  - intros [= <-]. destruct (Clean_rooted outdir Hout) as (es & _ & ->).
    apply IsAbs_rooted_path.
  - destruct (getwdFails env); [done |]. intros [= <-].
    destruct (Join_rooted (cwd env) outdir Hcwd) as (es & _ & ->).
    apply IsAbs_rooted_path.
Qed.

(** A loop whose body only adds effects satisfying [Q] and keeps the
    aggregate handle does so as a whole. *)
Lemma forEach_emits {A} (Q : option os.File -> event -> Prop) (body : A -> M unit) (l : list A) :
  (forall a w, exists evs,
      trace (fst (body a w)) = trace w ++ evs /\
      catFile (fst (body a w)) = catFile w /\ Forall (Q (catFile w)) evs) ->
  forall w, exists evs,
    trace (fst (forEach l body w)) = trace w ++ evs /\
    catFile (fst (forEach l body w)) = catFile w /\ Forall (Q (catFile w)) evs.
Proof.
  intros Hbody. induction l as [|a l IH]; intros w.
  - exists []. simpl. by rewrite app_nil_r.
  - rewrite forEach_cons. destruct (Hbody a w) as (evs1 & Ht1 & Hc1 & Hq1).
    destruct (body a w) as [w1 [[]|x]]; simpl in *; [| by exists evs1].
    destruct (IH w1) as (evs2 & Ht2 & Hc2 & Hq2). exists (evs1 ++ evs2).
    rewrite Ht2, Ht1, Hc2, Hc1, <- app_assoc. repeat split.
    apply Forall_app. split; [done |]. by rewrite <- Hc1.
Qed.

(** ** What the effects do to the directories and the files *)

Lemma inside_within (destination p : string) :
  inside destination p -> within destination p.
Proof.
  intros (ds & es & Hds & Hes & _ & Hreal & Hclean & ->).
  destruct (exists_last Hes) as (t & n & ->).
  apply Forall_app in Hreal as [_ Hn]. inversion Hn as [|? ? [Hn' _] _]; subst.
  rewrite app_assoc. by apply rooted_within.
Qed.

Lemma Clean_rooted_path (es : list (list ascii)) :
  Forall real es -> filepath.Clean (str (rooted_path es)) = str (rooted_path es).
Proof. intros H. unfold filepath.Clean. by rewrite chars_str, clean_rooted_path. Qed.

Lemma resolve_rooted_path (env : Env) (es : list (list ascii)) :
  Forall real es -> resolve env (str (rooted_path es)) = str (rooted_path es).
Proof.
  intros H. unfold resolve. rewrite IsAbs_rooted_path. by apply Clean_rooted_path.
Qed.

Lemma inside_resolve (env : Env) (destination p : string) :
  inside destination p -> resolve env p = p.
Proof.
  intros (ds & es & _ & _ & Hds & Hes & _ & ->). apply resolve_rooted_path.
  apply Forall_app. by split.
Qed.

Lemma Join_inside (destination name : string) :
  filepath.IsAbs destination = true ->
  within destination (filepath.Join destination name) ->
  inside destination (filepath.Join destination name).
Proof.
  intros Habs Hin.
  destruct (within_rooted destination name Habs Hin)
    as (ds & t & l & Hne & Hinit & Hl & Hclean & Hjoin).
  apply Forall_app in Hinit as [Hds Ht].
  exists ds, (t ++ [l]). rewrite app_assoc.
  repeat split; try done; [by destruct t |].
  apply Forall_app. split; [done | by constructor].
Qed.

Lemma Dir_inside (destination name : string) :
  filepath.IsAbs destination = true ->
  within destination (filepath.Join destination name) ->
  filepath.Dir (filepath.Join destination name) = filepath.Clean destination
  \/ inside destination (filepath.Dir (filepath.Join destination name)).
Proof.
  intros Habs Hin.
  destruct (within_rooted destination name Habs Hin)
    as (ds & t & l & Hne & Hinit & Hl & Hclean & Hjoin).
  assert (Hne' : ds ++ t <> []) by by destruct ds.
  rewrite Hjoin, (Dir_snoc (ds ++ t) l Hinit Hne' Hl).
  destruct t as [|e t].
  - left. by rewrite app_nil_r, Hclean.
  - right. apply Forall_app in Hinit as [Hds Ht]. by exists ds, (e :: t).
Qed.

Lemma target_inside (destination name : string) (table : gmap string N) (p : string) :
  filepath.IsAbs destination = true ->
  within destination (filepath.Join destination name) ->
  target table (filepath.Join destination name) p ->
  inside destination p.
Proof.
  intros Habs Hin. unfold target.
  destruct (table !! filepath.Join destination name) as [c|].
  2:{ intros ->. by apply Join_inside. }
  destruct (renamedPath_elements destination name c Habs Hin)
    as (ds & t & l & n & Hne & Hinit & Hl & Hn & _ & _ & Hclean & _ & ->).
  intros [= <-]. apply Forall_app in Hinit as [Hds Ht].
  exists ds, (t ++ [n]). rewrite app_assoc.
  repeat split; try done; [by destruct t |].
  apply Forall_app. split; [done | by constructor].
Qed.

Lemma stays_inside_below (destination : string) (cat : option os.File) (e : event) :
  stays_inside destination cat e -> stays_below destination cat e.
Proof.
  destruct e as [p|p a perm|p a d]; simpl.
  - intros [-> | H]; [by left | right; by apply inside_within].
  - intros [-> H]. split; [done | by apply inside_within].
  - intros [[-> H] | H]; [left; split; [done | by apply inside_within] | by right].
Qed.

Lemma unzipFile_inside (env : Env) (f : zip.File) (destination : string) (w : World) :
  filepath.IsAbs destination = true ->
  exists evs,
    trace (fst (unzipFile env f destination w)) = trace w ++ evs /\
    catFile (fst (unzipFile env f destination w)) = catFile w /\
    Forall (stays_inside destination (catFile w)) evs.
Proof.
  intros Habs.
  destruct (unzipFile_cases env f destination w)
    as (evs & Ht & Hc & _ & [(_ & E & _) | [(Hin & _ & _ & Hd) | (Hin & _ & p & Hp & He & _)]]);
    exists evs; (split; [done |]); (split; [done |]).
  - rewrite E. constructor.
  - destruct Hd as [[E _] | [E _]]; rewrite E; [constructor |].
    constructor; [simpl; right; by apply Join_inside | constructor].
  - pose proof (target_inside destination (zip.Name f) _ p Habs Hin Hp) as Hpin.
    pose proof (Dir_inside destination (zip.Name f) Habs Hin) as Hdir.
    destruct He;
      repeat (constructor; [simpl; eauto 7 |]); constructor.
Qed.

Lemma handleZip_inside (env : Env) (filesInDir : list string)
    (ext outdir destination : string) (w : World) :
  filepath.IsAbs destination = true ->
  Abs env outdir = inl destination ->
  exists evs,
    trace (fst (handleZip env filesInDir ext outdir w)) = trace w ++ evs /\
    Forall (stays_inside destination (catFile w)) evs.
Proof.
  intros Hroot Habs. unfold handleZip.
  destruct (forEach_emits (stays_inside destination)
              (fun f => match OpenReader env f with
                        | None => halt (LogFatal ("Unable to read " +:+ ext +:+ " file ") None)
                        | Some reader =>
                            match Abs env outdir with
                            | inr _ => halt (LogFatal ("Unable to find absolute path for dir "
                                                        +:+ outdir +:+ " ") None)
                            | inl destination => unzipEntries env reader destination
                            end
                        end) filesInDir) with w as (evs & Ht & _ & Hq).
  - intros a w0. rewrite Habs.
    destruct (OpenReader env a) as [reader|].
    2:{ exists []. simpl. by rewrite app_nil_r. }
    unfold unzipEntries. apply (forEach_emits (stays_inside destination)).
    intros f w1. unfold bind.
    destruct (unzipFile_inside env f destination w1 Hroot) as (evs & Ht & Hc & Hq).
    exists evs. by destruct (unzipFile env f destination w1) as [w2 [[e|]|x]].
  - by exists evs.
Qed.

(** The directories above a path: the cuts of the path before its
    separators. *)
Lemma dir_prefixes_plain (e seen : list ascii) :
  sep ∉ e -> dir_prefixes seen e = [str (rev seen ++ e)].
Proof.
  revert seen. induction e as [|c e IH]; intros seen He.
  - simpl. by rewrite app_nil_r.
  - apply not_elem_of_cons in He as [Hc He]. cbn [dir_prefixes].
    rewrite bool_decide_eq_false_2 by congruence.
    rewrite IH by done. simpl. by rewrite <- app_assoc.
Qed.

Lemma dir_prefixes_app (a b seen : list ascii) :
  seen <> [] ->
  dir_prefixes seen (a ++ sep :: b) =
  dir_prefixes seen a ++ dir_prefixes (sep :: rev a ++ seen) b.
Proof.
  revert seen. induction a as [|c a IH]; intros seen Hseen.
  - cbn [app dir_prefixes rev].
    rewrite (bool_decide_eq_true_2 (sep = sep)) by done.
    by rewrite (bool_decide_eq_false_2 (seen = [])) by done.
  - cbn [app dir_prefixes]. rewrite (IH (c :: seen)) by done.
    cbn [rev]. rewrite <- app_assoc. cbn [app].
    by destruct (bool_decide (c = sep)).
Qed.

Lemma join_sep_real_nonempty (es : list (list ascii)) :
  Forall real es -> es <> [] -> filepath.join_sep es <> [].
Proof.
  intros Hes Hne. destruct es as [|e es]; [done |].
  inversion Hes as [|? ? [He _] _]; subst.
  destruct es as [|e' es']; [done |].
  rewrite (join_sep_cons e (e' :: es')) by done. by destruct e.
Qed.

Lemma dir_prefixes_join (es : list (list ascii)) :
  Forall real es -> es <> [] ->
  forall seen a, seen <> [] ->
    a ∈ dir_prefixes seen (filepath.join_sep es) ->
    exists es' rest, es' <> [] /\ es = es' ++ rest /\
                     a = str (rev seen ++ filepath.join_sep es').
Proof.
  induction es as [|e es IH]; intros Hes Hne seen a Hseen Ha; [done |].
  inversion Hes as [|? ? He Hes']; subst.
  destruct es as [|e' es'].
  - cbn [filepath.join_sep] in Ha. rewrite dir_prefixes_plain in Ha by apply He.
    apply list_elem_of_singleton in Ha as ->. by exists [e], [].
  - rewrite (join_sep_cons e (e' :: es')) in Ha by done.
    rewrite dir_prefixes_app in Ha by done. apply elem_of_app in Ha as [Ha | Ha].
    + rewrite dir_prefixes_plain in Ha by apply He.
      apply list_elem_of_singleton in Ha as ->. by exists [e], (e' :: es').
    + apply IH in Ha as (es2 & rest & Hne2 & Heq & ->); [| done | done | done].
      exists (e :: es2), rest. split; [done |]. split; [by rewrite Heq |].
      f_equal. rewrite (join_sep_cons e es2) by done.
      cbn [rev]. rewrite rev_app_distr, rev_involutive, <- !app_assoc. done.
Qed.

Lemma ancestors_rooted_app (ds es : list (list ascii)) :
  ds <> [] -> es <> [] ->
  ancestors (str (rooted_path (ds ++ es))) =
  ancestors (str (rooted_path ds))
  ++ dir_prefixes (sep :: rev (filepath.join_sep ds) ++ [sep]) (filepath.join_sep es).
Proof.
  intros Hds Hes. unfold ancestors, rooted_path. rewrite !chars_str.
  rewrite join_sep_app by done. cbn [dir_prefixes].
  rewrite (bool_decide_eq_true_2 (sep = sep)) by done.
  by rewrite dir_prefixes_app.
Qed.

Lemma ancestors_inside (destination p a : string) :
  inside destination p ->
  a ∈ ancestors p ->
  a ∈ ancestors (filepath.Clean destination) \/ inside destination a.
Proof.
  intros (ds & es & Hds & Hes & Hrds & Hres & Hclean & ->) Ha.
  rewrite ancestors_rooted_app in Ha by done. rewrite Hclean.
  apply elem_of_app in Ha as [Ha | Ha]; [by left | right].
  apply dir_prefixes_join in Ha as (es' & rest & Hne' & Heq & ->); [| done | done | done].
  exists ds, es'. subst es. apply Forall_app in Hres as [Hres' _].
  repeat split; try done.
  f_equal. unfold rooted_path. rewrite join_sep_app by done.
  cbn [rev]. rewrite rev_app_distr, rev_involutive. cbn [rev app]. by rewrite <- app_assoc.
Qed.

Lemma replay_dirs_reach (env : Env) (destination : string) (cat : option os.File)
    (evs : list event) :
  filepath.IsAbs destination = true ->
  Forall (stays_inside destination cat) evs ->
  forall ds0 d, d ∈ replay_dirs env evs ds0 ->
    d ∈ ds0 \/ dir_in_reach (filepath.Clean destination) d.
Proof.
  intros Habs. destruct (Clean_rooted destination Habs) as (ds & Hds & Hclean).
  assert (Hcc : filepath.Clean (filepath.Clean destination) = filepath.Clean destination)
    by (rewrite Hclean; by apply Clean_rooted_path).
  assert (Hin : forall p, inside destination p -> within (filepath.Clean destination) p).
  { intros p Hp. apply inside_within in Hp. unfold within in *. by rewrite Hcc. }
  induction 1 as [|e evs He _ IH]; intros ds0 d Hd; [by left |].
  unfold replay_dirs in *. cbn [fold_left] in Hd. apply IH in Hd as [Hd | Hd]; [| by right].
  destruct e as [p|p a perm|p a data]; cbn [effect_dirs] in Hd; try by left.
  apply elem_of_union in Hd as [Hd | Hd]; [by left | right].
  apply elem_of_list_to_set in Hd. unfold dir_in_reach.
  destruct He as [-> | Hp].
  - left. rewrite Hclean in Hd |- *. by rewrite resolve_rooted_path in Hd.
  - rewrite (inside_resolve env destination p Hp) in Hd.
    destruct (ancestors_inside destination p d Hp Hd) as [H | H]; [by left |].
    right. by apply Hin.
Qed.

Lemma replay_files_reach (env : Env) (destination : string) (cat : option os.File)
    (evs : list event) (key : string) :
  Forall (stays_inside destination cat) evs ->
  forall o, fold_left (fun o e => effect_at env key e o) evs o = o
            \/ file_in_reach env destination cat key.
Proof.
  induction 1 as [|e evs He _ IH]; intros o; [by left |].
  cbn [fold_left].
  assert (Hstep : effect_at env key e o = o \/ file_in_reach env destination cat key).
  { destruct e as [p|p a perm|p a data]; cbn [effect_at]; [by left | |].
    - case_bool_decide as Hk; [| by left]. right. left.
      destruct He as [_ Hp]. rewrite (inside_resolve env destination p Hp) in Hk.
      subst key. by apply inside_within.
    - case_bool_decide as Hk; [| by left]. right.
      destruct He as [[_ Hp] | (c & Hc & -> & _)].
      + left. rewrite (inside_resolve env destination p Hp) in Hk.
        subst key. by apply inside_within.
      + right. by exists c. }
  destruct Hstep as [-> | H]; [apply IH | by right].
Qed.

Section DirsTracked.

Variable env : Env.

Lemma replay_dirs_app (evs1 evs2 : list event) (ds : gset string) :
  replay_dirs env (evs1 ++ evs2) ds = replay_dirs env evs2 (replay_dirs env evs1 ds).
Proof. unfold replay_dirs. apply fold_left_app. Qed.

Lemma tracks_dirs_same {A} (r : result A) (w : World) :
  exists evs, trace (fst (w, r)) = trace w ++ evs /\
              dirs (fst (w, r)) = replay_dirs env evs (dirs w).
Proof. exists []. simpl. by rewrite app_nil_r. Qed.

Lemma tracks_dirs_perform {A} (e : event) (r : result A) (w : World) :
  exists evs, trace (fst (perform env e w, r)) = trace w ++ evs /\
              dirs (fst (perform env e w, r)) = replay_dirs env evs (dirs w).
Proof. by exists [e]. Qed.

Lemma tracks_dirs_read {A} (g : World -> result A) : tracks_dirs env (fun w => (w, g w)).
Proof. intros w. apply tracks_dirs_same. Qed.

Lemma tracks_dirs_bind {A B} (m : M A) (k : A -> M B) :
  tracks_dirs env m -> (forall a, tracks_dirs env (k a)) -> tracks_dirs env (bind m k).
Proof.
  intros Hm Hk w. unfold bind. destruct (Hm w) as (evs1 & Ht1 & Hf1).
  destruct (m w) as [w1 [a|x]]; simpl in *; [| by exists evs1].
  destruct (Hk a w1) as (evs2 & Ht2 & Hf2). exists (evs1 ++ evs2).
  by rewrite Ht2, Hf2, Ht1, Hf1, replay_dirs_app, app_assoc.
Qed.

Lemma tracks_dirs_forEach {A} (l : list A) (body : A -> M unit) :
  (forall a, tracks_dirs env (body a)) -> tracks_dirs env (forEach l body).
Proof.
  intros Hb. induction l as [|a l IH]; simpl; [apply (tracks_dirs_read (fun _ => Ret tt)) |].
  apply tracks_dirs_bind; [apply Hb | by intros _].
Qed.

Lemma tracks_dirs_MkdirAll (path : string) : tracks_dirs env (MkdirAll env path).
Proof.
  intros w. unfold MkdirAll.
  destruct (faulty _ _ _); [apply tracks_dirs_same | apply tracks_dirs_perform].
Qed.

Lemma tracks_dirs_OpenFile (name : string) (append : bool) (perm : N) :
  tracks_dirs env (OpenFile env name append perm).
Proof.
  intros w. unfold OpenFile.
  destruct (faulty _ _ _); [apply tracks_dirs_same | apply tracks_dirs_perform].
Qed.

Lemma tracks_dirs_ioCopyTo (dst : option os.File) (src : stream) (srcName : string) :
  tracks_dirs env (ioCopyTo env dst src srcName).
Proof.
  intros w. unfold ioCopyTo, put. destruct dst as [f|]; [| apply tracks_dirs_same].
  destruct (faulty _ _ _); apply tracks_dirs_perform.
Qed.

Lemma tracks_dirs_increment (filePath : string) : tracks_dirs env (increment filePath).
Proof. intros w. exists []. simpl. by rewrite app_nil_r. Qed.

Ltac dirs_step :=
  first
    [ apply tracks_dirs_MkdirAll | apply tracks_dirs_OpenFile
    | apply tracks_dirs_ioCopyTo | apply tracks_dirs_increment
    | apply tracks_dirs_forEach | apply tracks_dirs_bind | apply tracks_dirs_read
    | match goal with
      | |- forall _, _ => intros ?
      | |- tracks_dirs _ (match ?x with _ => _ end) => destruct x
      | |- tracks_dirs _ (if ?x then _ else _) => destruct x
      end ].

Lemma tracks_dirs_copyToFile (f : zip.File) (dst : option os.File) :
  tracks_dirs env (copyToFile env f dst).
Proof. unfold copyToFile, ret, halt. repeat dirs_step. Qed.

Lemma tracks_dirs_unzipFile (f : zip.File) (destination : string) :
  tracks_dirs env (unzipFile env f destination).
Proof.
  unfold unzipFile, WriteString, getCatFile, ret. cbv zeta.
  repeat first [ apply tracks_dirs_copyToFile | dirs_step ].
Qed.

Lemma tracks_dirs_handleZip (l : list string) (ext outdir : string) :
  tracks_dirs env (handleZip env l ext outdir).
Proof.
  unfold handleZip, unzipEntries, ret, halt.
  repeat first [ apply tracks_dirs_unzipFile | dirs_step ].
Qed.

End DirsTracked.

Lemma Abs_clean (env : Env) (outdir destination : string) :
  filepath.IsAbs (cwd env) = true ->
  Abs env outdir = inl destination ->
  filepath.Clean destination = destination.
Proof.
  intros Hcwd. unfold Abs. destruct (filepath.IsAbs outdir) eqn:Hout.
  - intros [= <-]. destruct (Clean_rooted outdir Hout) as (es & Hes & ->).
    by apply Clean_rooted_path.
  - destruct (getwdFails env); [done |]. intros [= <-].
    destruct (Join_rooted (cwd env) outdir Hcwd) as (es & Hes & ->).
    by apply Clean_rooted_path.
Qed.

(** X2. With an absolute working directory, everything [handleZip]
    does to the file system stays in the output directory or on the
    way to it. Every path it hands to [os.MkdirAll] is the resolved
    output directory or lies strictly below it, so the directories
    that come to exist are the output directory, directories below
    it, and the directories from the root down to it, which
    [os.MkdirAll] creates when they are missing; nothing else. Every
    file it creates or writes through its own handle lies strictly
    below the output directory (renamed paths included), so the only
    files whose bytes change are files below it and the aggregate
    file. This holds for every archive content and every outcome,
    aborted runs included. *)
Theorem handleZip_stays_below (env : Env) (filesInDir : list string)
    (ext outdir destination : string) (w : World) :
  filepath.IsAbs (cwd env) = true ->
  Abs env outdir = inl destination ->
  let w' := fst (handleZip env filesInDir ext outdir w) in
  (exists evs,
     trace w' = trace w ++ evs /\
     Forall (stays_below destination (catFile w)) evs)
  /\ (forall d, d ∈ dirs w' -> d ∈ dirs w \/ dir_in_reach destination d)
  /\ (forall key, files w' !! key <> files w !! key ->
        file_in_reach env destination (catFile w) key).
Proof.
  intros Hcwd Habs w'. subst w'.
  pose proof (Abs_rooted env outdir destination Hcwd Habs) as Hroot.
  pose proof (Abs_clean env outdir destination Hcwd Habs) as Hclean.
  destruct (handleZip_inside env filesInDir ext outdir destination w Hroot Habs)
    as (evs & Ht & Hin).
  split; [| split].
  - exists evs. split; [done |].
    eapply Forall_impl; [exact Hin |]. apply stays_inside_below.
  - intros d Hd.
    destruct (tracks_dirs_handleZip env filesInDir ext outdir w) as (evs' & Ht' & Hdirs).
    rewrite Ht in Ht'. apply app_inv_head in Ht'. subst evs'.
    rewrite Hdirs in Hd. rewrite <- Hclean.
    by apply (replay_dirs_reach env destination (catFile w) evs Hroot Hin).
  - intros key Hkey.
    destruct (tracks_handleZip env filesInDir ext outdir w) as (evs' & Ht' & Hfiles).
    rewrite Ht in Ht'. apply app_inv_head in Ht'. subst evs'.
    rewrite Hfiles, replay_lookup in Hkey.
    destruct (replay_files_reach env destination (catFile w) evs key Hin (files w !! key))
      as [H | H]; [by rewrite H in Hkey | done].
Qed.

(** X2 on two archives extracted to [new/deep/out], of which nothing
    exists yet: the directories that come to exist are [/w/new/deep/out]
    and those from the root down to it. *)
Lemma handleZip_stays_below_witness :
  let w := aggregateOpen "new/deep/out/unknown_blob" in
  let w' := fst (handleZip twoArchives ["in/a.zip"; "in/b.zip"] ".zip" "new/deep/out" w) in
  dirs w' = {[ "/"; "/w"; "/w/new"; "/w/new/deep"; "/w/new/deep/out" ]}
  /\ (exists evs,
        trace w' = trace w ++ evs /\
        Forall (stays_below "/w/new/deep/out" (catFile w)) evs)
  /\ (forall d, d ∈ dirs w' -> d ∈ dirs w \/ dir_in_reach "/w/new/deep/out" d)
  /\ (forall key, files w' !! key <> files w !! key ->
        file_in_reach twoArchives "/w/new/deep/out" (catFile w) key).
Proof.
  intros w w'. split; [by vm_compute |].
  apply (handleZip_stays_below twoArchives ["in/a.zip"; "in/b.zip"] ".zip"
           "new/deep/out" "/w/new/deep/out" w); reflexivity.
Defined.

(** ** The run changes only the files it opens *)

Lemma openedPaths_app (a b : list event) :
  openedPaths (a ++ b) = openedPaths a ++ openedPaths b.
Proof. unfold openedPaths. apply omap_app. Qed.

Lemma sound_extend (w w' : World) (evs : list event) :
  sound w ->
  trace w' = trace w ++ evs -> catFile w' = catFile w ->
  local_ok (catFile w) evs ->
  sound w'.
Proof.
  intros [Hacc Hh] Ht Hc Hloc. split.
  - intros p a d Hin. rewrite Ht in Hin |- *. rewrite openedPaths_app.
    apply elem_of_app in Hin as [Hin | Hin]; apply elem_of_app.
    + left. by apply (Hacc p a d).
    + destruct (Hloc p a d Hin) as [Ho | (c & Hcat & ->)]; [by right |].
      left. by apply Hh.
  - intros c Hcat. rewrite Ht, openedPaths_app. apply elem_of_app. left.
    apply Hh. by rewrite <- Hc.
Qed.

Ltac local_ok_tac :=
  intros ? ? ? Hin;
  repeat (apply elem_of_cons in Hin as [Hin | Hin];
          [try discriminate Hin; try (injection Hin as -> -> ->) |]);
  try (by apply elem_of_nil in Hin);
  first [ left; unfold openedPaths; simpl; by apply list_elem_of_here
        | right; eexists; split; [eassumption | reflexivity] ].

Lemma entry_trace_local_ok (dirPath p : string) (perm : N) (cat : option os.File)
    (evs : list event) :
  entry_trace dirPath p perm cat evs -> local_ok cat evs.
Proof. destruct 1; local_ok_tac. Qed.

Lemma gz_trace_local_ok (p : string) (cat : option os.File) (evs : list event) :
  gz_trace p cat evs -> local_ok cat evs.
Proof. destruct 1; local_ok_tac. Qed.

Lemma unzipFile_sound (env : Env) (f : zip.File) (destination : string) (w : World) :
  sound w -> sound (fst (unzipFile env f destination w)).
Proof.
  intros Hs.
  destruct (unzipFile_cases env f destination w)
    as (evs & Ht & Hc & _ & [(_ & E & _) | [(_ & _ & _ & Hd) | (_ & _ & p & _ & He & _)]]);
    apply (sound_extend w _ evs Hs Ht Hc).
  - rewrite E. local_ok_tac.
  - destruct Hd as [[E _] | [E _]]; rewrite E; local_ok_tac.
  - by eapply entry_trace_local_ok.
Qed.

Lemma extractGz_sound (env : Env) (g : string) (w : World) :
  sound w -> sound (fst (extractGz env g w)).
Proof.
  intros Hs.
  destruct (extractGz_cases env g w) as (p & _ & evs & Ht & Hc & _ & He & _).
  apply (sound_extend w _ evs Hs Ht Hc). by eapply gz_trace_local_ok.
Qed.

Lemma forEach_preserves {A} (I : World -> Prop) (body : A -> M unit) (l : list A) :
  (forall a w, I w -> I (fst (body a w))) ->
  forall w, I w -> I (fst (forEach l body w)).
Proof.
  intros Hbody. induction l as [|a l IH]; intros w Hw; [done |].
  rewrite forEach_cons. specialize (Hbody a w Hw).
  destruct (body a w) as [w1 [[]|x]]; simpl in *; [by apply IH | done].
Qed.

Lemma handleZip_sound (env : Env) (l : list string) (ext outdir : string) (w : World) :
  sound w -> sound (fst (handleZip env l ext outdir w)).
Proof.
  unfold handleZip. apply forEach_preserves. intros a w0 Hw0.
  destruct (OpenReader env a) as [reader|]; [| done].
  destruct (Abs env outdir) as [destination|]; [| done].
  unfold unzipEntries. revert w0 Hw0. apply forEach_preserves. intros f w1 Hw1.
  unfold bind. pose proof (unzipFile_sound env f destination w1 Hw1) as H.
  by destruct (unzipFile env f destination w1) as [w2 [[e|]|x]].
Qed.

Lemma handleGz_sound (env : Env) (l : list string) (ext outdir : string) (w : World) :
  sound w -> sound (fst (handleGz env l ext outdir w)).
Proof. unfold handleGz. apply forEach_preserves. intros g w0. apply extractGz_sound. Qed.

Lemma main_sound (env : Env) (fl : Flags) (files0 : gmap string (list byte))
    (dirs0 : gset string) :
  sound (fst (main env fl (start files0 dirs0))).
Proof.
  assert (H0 : sound (start files0 dirs0)).
  { split; [intros p a d Hin; by apply elem_of_nil in Hin | by intros c]. }
  unfold main. destruct (help fl); [done |].
  destruct (WalkDir _ _ _ _) as [filesInDir [r|x]]; [| done].
  cbv zeta. unfold bind, OpenFile.
  destruct (faulty env _ _) as [k|]; simpl.
  - assert (H1 : sound {| files := files0; dirs := dirs0; unzipedFiles := ∅;
                          catFile := None; trace := [] |}) by done.
    case_bool_decide; [by apply handleGz_sound | by apply handleZip_sound].
  - match goal with |- sound (fst (_ ?w1)) => assert (H1 : sound w1) end.
    { split.
      - intros p a d Hin. simpl in Hin.
        apply elem_of_cons in Hin as [Hin | Hin]; [done | by apply elem_of_nil in Hin].
      - intros c [= <-]. simpl. unfold openedPaths. simpl. apply list_elem_of_here. }
    case_bool_decide; [by apply handleGz_sound | by apply handleZip_sound].
Qed.

Lemma fold_untouched (env : Env) (key : string) (evs : list event)
    (o : option (list byte)) :
  (forall p, p ∈ openedPaths evs -> resolve env p <> key) ->
  accounted evs ->
  fold_left (fun o e => effect_at env key e o) evs o = o.
Proof.
  intros Hop Hacc.
  assert (Hall : Forall (fun e => forall o', effect_at env key e o' = o') evs).
  { apply Forall_forall. intros e He o'.
    destruct e as [path|name append perm|name append data]; simpl; [done | |].
    - rewrite bool_decide_eq_false_2; [done |]. apply Hop.
      unfold openedPaths. apply list_elem_of_omap. by eexists (EvOpenFile _ _ _).
    - rewrite bool_decide_eq_false_2; [done |]. apply Hop. by apply (Hacc _ append data). }
  clear Hop Hacc. revert o. induction Hall as [|e evs He _ IH]; intros o; [done |].
  simpl. by rewrite He.
Qed.

(** X3. A run changes no file other than those it opens: every path
    that is not the path of an open performed by the run (the
    aggregate file and the output files of the entries) holds after
    the run, finished or aborted, the bytes it held before. All
    writes go through handles the run itself obtained. *)
Theorem run_changes_only_opened (env : Env) (fl : Flags)
    (files0 : gmap string (list byte)) (dirs0 : gset string) (key : string) :
  let w := fst (run env fl files0 dirs0) in
  (forall p, p ∈ openedPaths (trace w) -> resolve env p <> key) ->
  files w !! key = files0 !! key.
Proof.
  intros w Hkey. unfold w, run in *.
  destruct (tracks_main env fl (start files0 dirs0)) as (evs & Ht & Hf).
  destruct (main_sound env fl files0 dirs0) as [Hacc _].
  simpl in Ht. rewrite Hf, replay_lookup. rewrite Ht in Hkey, Hacc.
  by apply fold_untouched.
Qed.

(** X3 on the two archives: a file beside the outputs keeps its bytes. *)
Lemma run_changes_only_opened_witness :
  files (fst (run twoArchives (zipFlags "out")
                {[ "/w/out/keep.txt" := bytes "mine" ]} ∅)) !! "/w/out/keep.txt"
  = Some (bytes "mine").
Proof.
  rewrite (run_changes_only_opened twoArchives (zipFlags "out")
             {[ "/w/out/keep.txt" := bytes "mine" ]} ∅ "/w/out/keep.txt").
  - reflexivity.
  - intros p Hp. vm_compute in Hp.
    repeat (apply elem_of_cons in Hp as [-> | Hp]; [vm_compute; discriminate |]).
    by apply elem_of_nil in Hp.
Defined.

(** ** How a run can end early *)

Lemma WalkDir_scan_returns (lstat : option tree) (root ext : string) (acc : list string) :
  exists s r, WalkDir lstat root (scanFn ext) acc = (s, Ret r).
Proof.
  unfold WalkDir. destruct lstat as [t|].
  - destruct (walkDir_scan ext t root acc) as [[_ Hw] | (_ & k & op & p & Hw)];
      rewrite Hw; simpl; by eexists _, _.
  - simpl. by eexists _, _.
Qed.

(** The exits of a loop are exits of its body, under an invariant of
    the body. *)
Lemma forEach_exit {A} (I : World -> Prop) (P : exit -> Prop) (body : A -> M unit)
    (l : list A) :
  (forall a w, I w -> I (fst (body a w)) /\ forall x, snd (body a w) = Halt x -> P x) ->
  forall w x, I w -> snd (forEach l body w) = Halt x -> P x.
Proof.
  intros Hbody. induction l as [|a l IH]; intros w x Hw; [done |].
  rewrite forEach_cons. destruct (Hbody a w Hw) as [Hi Hx].
  destruct (body a w) as [w1 [[]|y]]; simpl in *; [by apply IH | intros [= <-]; by apply Hx].
Qed.

Lemma unzipEntries_exit (env : Env) (reader : list zip.File) (destination : string)
    (cat : option os.File) (w : World) (x : exit) :
  catFile w = cat ->
  snd (unzipEntries env reader destination w) = Halt x -> zip_exit cat x.
Proof.
  unfold unzipEntries.
  apply (forEach_exit (fun w => catFile w = cat) (zip_exit cat)).
  intros f w0 Hw0. unfold bind.
  destruct (unzipFile_cases env f destination w0) as (evs & _ & Hc & Hx & _).
  destruct (unzipFile env f destination w0) as [w1 [[e|]|y]]; simpl in *.
  - split; [congruence |]. intros y [= <-]. left. by eexists _, _.
  - split; [congruence | done].
  - split; [congruence |]. intros ? [= <-]. right.
    destruct (Hx y eq_refl) as [H1 H2]. split; congruence.
Qed.

Lemma unzipEntries_catFile (env : Env) (reader : list zip.File) (destination : string)
    (w : World) :
  catFile (fst (unzipEntries env reader destination w)) = catFile w.
Proof.
  unfold unzipEntries.
  apply (forEach_preserves (fun w' => catFile w' = catFile w)); [| done].
  intros f w0 Hw0. unfold bind.
  destruct (unzipFile_cases env f destination w0) as (evs & _ & Hc & _).
  destruct (unzipFile env f destination w0) as [w1 [[e|]|y]]; simpl in *; congruence.
Qed.

Lemma handleZip_exit (env : Env) (l : list string) (ext outdir : string)
    (w : World) (x : exit) :
  snd (handleZip env l ext outdir w) = Halt x -> zip_exit (catFile w) x.
Proof.
  unfold handleZip.
  apply (forEach_exit (fun w' => catFile w' = catFile w) (zip_exit (catFile w))); [| done].
  intros a w0 Hw0.
  destruct (OpenReader env a) as [reader|].
  2:{ split; [done |]. intros ? [= <-]. left. by eexists _, _. }
  destruct (Abs env outdir) as [destination|].
  2:{ split; [done |]. intros ? [= <-]. left. by eexists _, _. }
  split; [by rewrite unzipEntries_catFile |].
  intros y. by apply unzipEntries_exit.
Qed.

Lemma handleGz_exit (env : Env) (l : list string) (ext outdir : string)
    (w : World) (x : exit) :
  snd (handleGz env l ext outdir w) = Halt x -> gz_exit x.
Proof.
  unfold handleGz. apply (forEach_exit (fun _ => True) gz_exit); [| done].
  intros g w0 _. split; [done |]. intros y Hy.
  destruct (extractGz_cases env g w0) as (p & _ & evs & _ & _ & _ & _ & [[Hr _] | (z & Hz & He)]).
  - congruence.
  - rewrite Hy in Hz. by injection Hz as <-.
Qed.

(** X4. The ways a run ends before [main] returns are these and no
    others: [os.Exit(0)] for [-help]; a fatal log;
    [os.Exit(1)] in the gzip mode (an input that cannot be opened);
    and, in the zip mode only, a nil-pointer panic, which takes that
    the aggregate file could not be opened. In particular the slice
    of the renaming block is never out of range, the walk never
    ends the process, and once the aggregate file is open no run
    panics. *)
Theorem run_exits (env : Env) (fl : Flags) (files0 : gmap string (list byte))
    (dirs0 : gset string) (x : exit) :
  snd (run env fl files0 dirs0) = Halt x ->
  (help fl = true /\ x = OsExit 0 None)
  \/ (exists m e, x = LogFatal m e)
  \/ (filepath.Ext (ext fl) = ".gz" /\ exists e, x = OsExit 1 (Some e))
  \/ (filepath.Ext (ext fl) <> ".gz"
      /\ faulty env [] (EvOpenFile (catFilePath fl) true 420) <> None
      /\ x = Panic "nil pointer dereference").
Proof.
  unfold run, main. destruct (help fl).
  { intros [= <-]. by left. }
  destruct (WalkDir_scan_returns (lstatRoot env) (dir fl) (ext fl) [])
    as (filesInDir & r & ->).
  cbv zeta. unfold bind, OpenFile. fold (catFilePath fl). simpl trace.
  destruct (faulty env [] _) as [k|] eqn:Hf; simpl;
    case_bool_decide as Hext; intros Hx.
  - apply handleGz_exit in Hx as (e & [-> | ->]); [right; left | right; right; left]; eauto.
  - apply handleZip_exit in Hx as [(m & e & ->) | [_ ->]].
    + right. left. eauto.
    + right. right. right. unfold catFilePath. split; [done |]. split; [congruence | done].
  - apply handleGz_exit in Hx as (e & [-> | ->]); [right; left | right; right; left]; eauto.
  - apply handleZip_exit in Hx as [(m & e & ->) | [Hc _]]; [| done].
    right. left. eauto.
Qed.

(** X4 on a run whose aggregate file cannot be created: it ends in
    the panic. *)
Lemma run_exits_witness :
  (help (zipFlags "out") = true /\ Panic "nil pointer dereference" = OsExit 0 None)
  \/ (exists m e, Panic "nil pointer dereference" = LogFatal m e)
  \/ (filepath.Ext (ext (zipFlags "out")) = ".gz"
      /\ exists e, Panic "nil pointer dereference" = OsExit 1 (Some e))
  \/ (filepath.Ext (ext (zipFlags "out")) <> ".gz"
      /\ faulty (withFaults twoArchives aggregateFails) []
           (EvOpenFile (catFilePath (zipFlags "out")) true 420) <> None
      /\ Panic "nil pointer dereference" = Panic "nil pointer dereference").
Proof.
  apply (run_exits (withFaults twoArchives aggregateFails) (zipFlags "out") ∅ ∅).
  vm_compute. reflexivity.
Defined.

(** X5. [autoRenameRepeatedFiles] always returns, and changes
    nothing: the slice [fileName[:len(fileName)-len(ext)]] is in
    range for every path, because the extension [filepath.Ext] finds
    is never longer than the last element [filepath.Base] gives. A
    path that is not in the table comes back unchanged. *)
Theorem autoRenameRepeatedFiles_returns (filePath : string) (w : World) :
  exists p,
    autoRenameRepeatedFiles filePath w = (w, Ret p) /\
    (unzipedFiles w !! filePath = None -> p = filePath) /\
    (String.length (filepath.Ext filePath) <= String.length (filepath.Base filePath))%nat.
Proof.
  unfold autoRenameRepeatedFiles.
  destruct (unzipedFiles w !! filePath) as [counter|].
  - destruct (renamedPath_total filePath counter) as [p ->].
    exists p. split; [done |]. split; [done | apply Ext_le_Base].
  - exists filePath. split; [done |]. split; [done | apply Ext_le_Base].
Qed.

(** ** The filter and the choice of the extractor *)

Lemma scanned_elem (env : Env) (fl : Flags) (p : string) :
  p ∈ scanned env fl ->
  exists d, fs.IsDir d = false /\ filepath.Ext (fs.Name d) = ext fl.
Proof.
  unfold scanned, WalkDir. destruct (lstatRoot env) as [t|].
  2:{ simpl. intros H. by apply elem_of_nil in H. }
  set (all := selection (ext fl) (listing (dir fl) t)).
  assert (Hk : exists k, (walkDir (dir fl) t (scanFn (ext fl)) []).1 = take k all).
  { destruct (walkDir_scan (ext fl) t (dir fl) [])
      as [[Hok Hw] | (Hbad & k & op & q & Hw)]; rewrite Hw; simpl.
    - exists (length all). by rewrite firstn_all.
    - by exists k. }
  destruct Hk as [k Hk].
  assert (Hs : (match walkDir (dir fl) t (scanFn (ext fl)) [] with
                | (s', Ret (Some err)) =>
                    if bool_decide (err = SkipDir) || bool_decide (err = SkipAll)
                    then (s', Ret None) else (s', Ret (Some err))
                | r => r
                end).1 = take k all).
  { destruct (walkDir (dir fl) t (scanFn (ext fl)) []) as [s [[err|]|x]]; simpl in *;
      try done.
    by destruct (bool_decide (err = SkipDir) || bool_decide (err = SkipAll)). }
  rewrite Hs. intros Hp. apply elem_of_take in Hp as (i & Hp & _).
  apply list_elem_of_lookup_2 in Hp. apply selection_elem in Hp as (d & _ & Hd & He).
  by exists d.
Qed.

(** X6. [main] chooses the extractor by [filepath.Ext] of the filter, the
    extension of the filter, while the scan compares the filter
    itself with the extension of each name. Whenever the scan selects
    anything the two agree: the filter is then its own extension, so
    the gzip extractor runs exactly when the filter is [.gz]. A
    filter that is not an extension (one without a leading dot, or
    with text before its last dot, such as [tar.gz]) selects
    nothing. *)
Theorem filter_is_extension (env : Env) (fl : Flags) (p : string) :
  p ∈ scanned env fl ->
  filepath.Ext (ext fl) = ext fl /\
  (filepath.Ext (ext fl) = ".gz" <-> ext fl = ".gz").
Proof.
  intros Hp. apply scanned_elem in Hp as (d & _ & He).
  assert (H : filepath.Ext (ext fl) = ext fl) by (rewrite <- He; apply Ext_idem).
  split; [done |]. by rewrite H.
Qed.

(** X6 on the two archives and the filter [.zip]. *)
Lemma filter_is_extension_witness :
  filepath.Ext (ext (zipFlags "out")) = ext (zipFlags "out") /\
  (filepath.Ext (ext (zipFlags "out")) = ".gz" <-> ext (zipFlags "out") = ".gz").
Proof.
  apply (filter_is_extension twoArchives (zipFlags "out") "in/a.zip").
  vm_compute. apply list_elem_of_here.
Defined.

(** ** An archive that cannot be read *)

(** X7. When [zip.OpenReader] fails on an archive, [handleZip] ends
    the run with the fatal log naming the filter, in the state the
    archives before it have left: their outputs stay, and no archive
    after it is opened. *)
Theorem unreadable_archive_stops (env : Env) (before after : list string)
    (a ext outdir : string) (w w1 : World) :
  handleZip env before ext outdir w = (w1, Ret tt) ->
  OpenReader env a = None ->
  handleZip env (before ++ a :: after) ext outdir w
  = (w1, Halt (LogFatal ("Unable to read " +:+ ext +:+ " file ") None)).
Proof.
  intros Hbefore Ha. unfold handleZip in *.
  rewrite forEach_app, Hbefore, forEach_cons. by rewrite Ha.
Qed.

Lemma unreadable_archive_stops_witness :
  handleZip twoArchives (["in/a.zip"] ++ "in/n.txt" :: ["in/b.zip"]) ".zip" "out"
    (aggregateOpen "out/unknown_blob")
  = (fst (handleZip twoArchives ["in/a.zip"] ".zip" "out" (aggregateOpen "out/unknown_blob")),
     Halt (LogFatal ("Unable to read " +:+ ".zip" +:+ " file ") None)).
Proof.
  apply (unreadable_archive_stops twoArchives ["in/a.zip"] ["in/b.zip"] "in/n.txt"
           ".zip" "out"); reflexivity.
Defined.

(** ** The collision table counts the output files *)

Lemma outputs_app (a b : list event) : outputs (a ++ b) = outputs a ++ outputs b.
Proof. unfold outputs. apply omap_app. Qed.

Lemma counts_refl (w : World) : counts w w.
Proof. exists []. by rewrite app_nil_r. Qed.

Lemma counts_trans (w1 w2 w3 : World) : counts w1 w2 -> counts w2 w3 -> counts w1 w3.
Proof.
  intros (e1 & Ht1 & Hu1) (e2 & Ht2 & Hu2). exists (e1 ++ e2).
  rewrite Ht2, Ht1, app_assoc. split; [done |].
  rewrite Hu2, Hu1, outputs_app. unfold tally. by rewrite fold_left_app.
Qed.

Lemma forEach_returns {A} (R : World -> World -> Prop) (body : A -> M unit) (l : list A) :
  (forall w, R w w) ->
  (forall w1 w2 w3, R w1 w2 -> R w2 w3 -> R w1 w3) ->
  (forall a w w', body a w = (w', Ret tt) -> R w w') ->
  forall w w', forEach l body w = (w', Ret tt) -> R w w'.
Proof.
  intros Hrefl Htrans Hbody. induction l as [|a l IH]; intros w w'.
  - intros [= <-]. apply Hrefl.
  - rewrite forEach_cons. destruct (body a w) as [w1 [[]|x]] eqn:Hb; [| done].
    intros Hl. apply (Htrans w w1 w'); [by apply (Hbody a) | by apply IH].
Qed.

Lemma unzipFile_counts (env : Env) (f : zip.File) (destination : string) (w w' : World) :
  unzipFile env f destination w = (w', Ret None) -> counts w w'.
Proof.
  intros Hr.
  destruct (unzipFile_cases env f destination w)
    as (evs & Ht & _ & _ & [(_ & _ & _ & Hn) | [(_ & _ & Hu & Hd) | (_ & _ & p & _ & _ & Hd)]]);
    rewrite Hr in *; simpl in *.
  - done.
  - destruct Hd as [[_ Hn] | [E _]]; [done |]. exists evs. split; [done |].
    by rewrite E, Hu.
  - destruct Hd as [[Hn _] | (_ & c & d3 & _ & E & Hu)]; [done |].
    exists evs. split; [done |]. by rewrite E, Hu.
Qed.

Lemma handleZip_counts (env : Env) (l : list string) (ext outdir : string) (w w' : World) :
  handleZip env l ext outdir w = (w', Ret tt) -> counts w w'.
Proof.
  unfold handleZip. apply forEach_returns; [apply counts_refl | apply counts_trans |].
  intros a w0 w1.
  destruct (OpenReader env a) as [reader|]; [| done].
  destruct (Abs env outdir) as [destination|]; [| done].
  unfold unzipEntries.
  apply forEach_returns; [apply counts_refl | apply counts_trans |].
  intros f w2 w3. unfold bind.
  destruct (unzipFile env f destination w2) as [w4 [[e|]|x]] eqn:Hu; try done.
  intros [= <-]. by apply (unzipFile_counts env f destination).
Qed.

Lemma tally_lookup (ps : list string) (table : gmap string N) (p : string) :
  tally ps table !! p =
  match length (List.filter (fun q => bool_decide (q = p)) ps) with
  | O => table !! p
  | S n => Some ((default 0 (table !! p) + N.of_nat (S n)) mod uint_max)%N
  end.
Proof.
  revert table. induction ps as [|q ps IH]; intros table; [done |].
  change (tally (q :: ps) table) with (tally ps (bumped q table)).
  rewrite IH. cbn [List.filter]. unfold bumped. case_bool_decide as Hq.
  - subst q. rewrite lookup_insert_eq. cbn [length default].
    destruct (length _) as [|n]; [done |]. unfold id.
    f_equal. rewrite N.Div0.add_mod_idemp_l. f_equal. lia.
  - by rewrite lookup_insert_ne.
Qed.

(** X8. After a run in the zip mode that returns, the collision
    table maps each path to the number of output files the run has
    created at that path, counted modulo [2^64], and holds no other
    key: a path is in the table exactly when an entry was written
    there. The counter is kept under the path written, after
    renaming, not under the path the entry asked for. *)
Theorem table_counts_outputs (env : Env) (fl : Flags)
    (files0 : gmap string (list byte)) (dirs0 : gset string) (w : World) (p : string) :
  filepath.Ext (ext fl) <> ".gz" ->
  run env fl files0 dirs0 = (w, Ret tt) ->
  unzipedFiles w !! p =
  match created p (trace w) with
  | O => None
  | S n => Some (N.of_nat (S n) mod uint_max)%N
  end.
Proof.
  intros Hext. unfold run, main. destruct (help fl); [done |].
  destruct (WalkDir _ _ _ _) as [filesInDir [r|x]]; [| done].
  cbv zeta. unfold bind, OpenFile.
  rewrite (bool_decide_eq_false_2 _ Hext).
  destruct (faulty env _ _) as [k|]; simpl; intros Hrun;
    apply handleZip_counts in Hrun as (evs & Ht & Hu); simpl in Ht, Hu;
    unfold created; rewrite Hu, Ht, tally_lookup, ?outputs_app; simpl;
    by destruct (length _).
Qed.

(** X8 on the three archives with the same entry: [out/a.txt] is
    counted once and [out/a(1).txt] twice. *)
Lemma table_counts_outputs_witness :
  unzipedFiles (fst (run threeArchives (zipFlags "out") ∅ ∅)) !! "/w/out/a(1).txt"
  = Some 2%N.
Proof.
  rewrite (table_counts_outputs threeArchives (zipFlags "out") ∅ ∅
             (fst (run threeArchives (zipFlags "out") ∅ ∅)) "/w/out/a(1).txt").
  - reflexivity.
  - vm_compute. discriminate.
  - vm_compute. reflexivity.
Defined.

(** ** What the output files hold *)

Lemma extracted_content (env : Env) (cat : string) (evs : list event)
    (ps : list string) (ds : list (list byte)) :
  extracted cat evs ps ds ->
  forall key o, key <> resolve env cat ->
    fold_left (fun o e => effect_at env key e o) evs o =
    fold_left (lands env key) (zip ps ds) o.
Proof.
  induction 1 as [|path evs ps ds _ IH|p perm d evs ps ds _ IH]; intros key o Hkey.
  - done.
  - simpl. by apply IH.
  - assert (Hne : resolve env cat <> key) by congruence.
    cbn [fold_left app entryWrites effect_at zip_with]. rewrite IH by done.
    rewrite !(bool_decide_eq_false_2 (resolve env cat = key) Hne).
    f_equal. unfold lands. cbn [fst snd].
    case_bool_decide; [| done].
    unfold written. cbn [default]. unfold id. by rewrite drop_nil, app_nil_r.
Qed.

Lemma lands_skip (env : Env) (key : string) (l : list (string * list byte))
    (o : option (list byte)) :
  (forall j q e, l !! j = Some (q, e) -> resolve env q <> key) ->
  fold_left (lands env key) l o = o.
Proof.
  revert o. induction l as [|[q e] l IH]; intros o Hl; [done |].
  cbn [fold_left]. rewrite IH.
  - unfold lands. cbn [fst]. rewrite bool_decide_eq_false_2; [done |]. by apply (Hl 0%nat q e).
  - intros j q' e' Hj. by apply (Hl (S j) q' e').
Qed.

Lemma lands_at (env : Env) (l : list (string * list byte)) (i : nat)
    (p : string) (d : list byte) (o : option (list byte)) :
  l !! i = Some (p, d) ->
  (forall j q e, (i < j)%nat -> l !! j = Some (q, e) -> resolve env q <> resolve env p) ->
  fold_left (lands env (resolve env p)) l o = Some d.
Proof.
  revert i o. induction l as [|[q e] l IH]; intros i o Hi Hlater; [done |].
  destruct i as [|i]; cbn [fold_left].
  - injection Hi as -> ->. rewrite lands_skip.
    + unfold lands. cbn [fst snd]. by rewrite bool_decide_eq_true_2.
    + intros j q' e' Hj. apply (Hlater (S j) q' e'); [lia | done].
  - apply (IH i); [done |]. intros j q' e' Hij Hj.
    apply (Hlater (S j) q' e'); [lia | done].
Qed.

(** X9. In a run that meets no file-system error and returns, the
    output file created for the [i]-th extracted payload holds, at
    the end, exactly the bytes of that payload, complete and nothing
    else, whatever the file held before, provided no later
    extraction creates a file at the same place and the file is not
    the aggregate file. This holds in both modes. *)
Theorem output_holds_payload (env : Env) (fl : Flags)
    (files0 : gmap string (list byte)) (dirs0 : gset string) (w : World)
    (i : nat) (p : string) (d : list byte) :
  nofault env ->
  run env fl files0 dirs0 = (w, Ret tt) ->
  outputs (trace w) !! i = Some p ->
  payloads env fl !! i = Some d ->
  resolve env p <> resolve env (catFilePath fl) ->
  (forall j q, (i < j)%nat -> outputs (trace w) !! j = Some q ->
               resolve env q <> resolve env p) ->
  files w !! resolve env p = Some d.
Proof.
  intros Hnf Hrun Hp Hd Hcat Hlater.
  destruct (main_nofault env Hnf fl (start files0 dirs0) w eq_refl Hrun)
    as (evs & ps & Ht & Hex).
  destruct (tracks_main env fl (start files0 dirs0)) as (evs' & Ht' & Hf).
  unfold run in Hrun. rewrite Hrun in Ht', Hf. simpl in Ht', Hf.
  rewrite Hf, replay_lookup, <- Ht', Ht. cbn [fold_left effect_at].
  rewrite bool_decide_eq_false_2 by congruence.
  rewrite (extracted_content env _ _ _ _ Hex) by done.
  destruct (extracted_outputs _ _ _ _ Hex) as [Hout _].
  assert (Hps : outputs (trace w) = ps) by (by rewrite Ht).
  rewrite Hps in Hp, Hlater.
  apply (lands_at env _ i).
  - apply lookup_zip_with_Some. by exists p, d.
  - intros j q e Hij Hj. apply lookup_zip_with_Some in Hj as (q' & e' & [= -> ->] & Hq & _).
    by apply (Hlater j).
Qed.

(** X9 on the two archives: [/w/out/a.txt] holds the first payload,
    although the file held other bytes before. *)
Lemma output_holds_payload_witness :
  files (fst (run twoArchives (zipFlags "out") {[ "/w/out/a.txt" := bytes "old contents" ]} ∅))
    !! resolve twoArchives "/w/out/a.txt" = Some (bytes "A1").
Proof.
  apply (output_holds_payload twoArchives (zipFlags "out")
           {[ "/w/out/a.txt" := bytes "old contents" ]} ∅
           (fst (run twoArchives (zipFlags "out")
                   {[ "/w/out/a.txt" := bytes "old contents" ]} ∅)) 0 "/w/out/a.txt").
  - intros h e. reflexivity.
  - vm_compute. reflexivity.
  - vm_compute. reflexivity.
  - vm_compute. reflexivity.
  - vm_compute. discriminate.
  - intros j q Hj Hq. destruct j as [|[|j]]; [lia | |].
    + vm_compute in Hq. injection Hq as <-. vm_compute. discriminate.
    + vm_compute in Hq. discriminate.
Defined.

(** ** The earlier version and the current one *)

Lemma same_but_nil_refl {A} (old : result A) (r : World * result A) :
  same_but_nil old r r.
Proof. split; [done | by left]. Qed.

Lemma same_but_nil_bind {A B} (old : result B) (m : M A) (k k' : A -> M B) (w : World) :
  (forall a w1, same_but_nil old (k a w1) (k' a w1)) ->
  same_but_nil old (bind m k w) (bind m k' w).
Proof.
  intros Hk. unfold bind. destruct (m w) as [w1 [a|x]]; [apply Hk |].
  apply same_but_nil_refl.
Qed.

Lemma copyToFile_versions (env : Env) (f : zip.File) (c : os.File) :
  copyToFile env f (Some c) = zipOnly.copyToFile env f (Some c).
Proof. unfold copyToFile, zipOnly.copyToFile. by destruct (zip.Open f). Qed.

Lemma unzipFile_versions (env : Env) (f : zip.File) (destination : string) (w : World) :
  same_but_nil (Ret (Some ErrInvalid))
    (unzipFile env f destination w) (zipOnly.unzipFile env f destination w).
Proof.
  unfold unzipFile, zipOnly.unzipFile. cbv zeta.
  destruct (negb _); [apply same_but_nil_refl |].
  destruct (zip.IsDir f); [apply same_but_nil_refl |].
  apply same_but_nil_bind. intros [e|] w1; [apply same_but_nil_refl |].
  apply same_but_nil_bind. intros table w2.
  apply same_but_nil_bind. intros filePath w3.
  apply same_but_nil_bind. intros [destinationFile|e] w4; [| apply same_but_nil_refl].
  rewrite copyToFile_versions.
  apply same_but_nil_bind. intros [e|] w5; [apply same_but_nil_refl |].
  apply same_but_nil_bind. intros [c|] w6.
  - rewrite copyToFile_versions. apply same_but_nil_refl.
  - unfold copyToFile, zipOnly.copyToFile, bind.
    destruct (zip.Open f) as [zippedFile|]; [| apply same_but_nil_refl].
    split; [done | by right].
Qed.

Lemma forEach_versions {A} (old : exit) (body body' : A -> M unit) (l : list A) :
  (forall a w, same_but_nil (Halt old) (body a w) (body' a w)) ->
  forall w, same_but_nil (Halt old) (forEach l body w) (forEach l body' w).
Proof.
  intros Hbody. induction l as [|a l IH]; intros w; [apply same_but_nil_refl |].
  rewrite !forEach_cons. destruct (Hbody a w) as [Hf Hs].
  destruct (body a w) as [w1 [[]|x]], (body' a w) as [w1' [[]|x']]; simpl in *; subst.
  - apply IH.
  - by destruct Hs as [? | [? ?]].
  - by destruct Hs as [? | [? ?]].
  - split; [done |]. simpl. destruct Hs as [-> | [-> ->]]; [by left | by right].
Qed.

Lemma unzipEntries_versions (env : Env) (reader : list zip.File) (destination : string)
    (w : World) :
  same_but_nil
    (Halt (LogFatal "Unable to to unzip file inside archive: " (Some ErrInvalid)))
    (unzipEntries env reader destination w)
    (zipOnly.unzipEntries env reader destination w).
Proof.
  unfold unzipEntries, zipOnly.unzipEntries. apply forEach_versions. clear w.
  intros f w. unfold bind. destruct (unzipFile_versions env f destination w) as [Hf Hs].
  destruct (unzipFile env f destination w) as [w1 [r|x]],
           (zipOnly.unzipFile env f destination w) as [w1' [r'|x']]; simpl in *; subst.
  - destruct Hs as [[= ->] | [? ?]]; [| done]. apply same_but_nil_refl.
  - by destruct Hs as [? | [? ?]].
  - destruct Hs as [? | [[= ->] [= ->]]]; [done |]. split; [done | by right].
  - destruct Hs as [[= ->] | [? ?]]; [| done]. apply same_but_nil_refl.
Qed.

(** X10. The earlier version of the program, which extracts zip
    archives only, and the current one run with a filter whose
    extension is not [.gz] do the same: they perform the same effects
    and end in the same state with the same result. The one
    difference is how a run stops when the aggregate file could not
    be opened and an entry is to be appended to it: both stop at
    that point, in the same state, the earlier version with the
    fatal log of [os.ErrInvalid] that [io.Copy] returns for a nil
    file, the current one with a nil-pointer panic, because it
    evaluates [destinationFile.Name()] before the copy. *)
Theorem versions_agree (env : Env) (fl : Flags)
    (files0 : gmap string (list byte)) (dirs0 : gset string) :
  filepath.Ext (ext fl) <> ".gz" ->
  let current := run env fl files0 dirs0 in
  let earlier := zipOnly.run env fl files0 dirs0 in
  fst current = fst earlier /\
  (snd current = snd earlier \/
   (snd current = Halt (Panic "nil pointer dereference") /\
    snd earlier =
    Halt (LogFatal "Unable to to unzip file inside archive: " (Some ErrInvalid)))).
Proof.
  intros Hext. cbv zeta. unfold run, zipOnly.run, main, zipOnly.main.
  change (?a = ?b /\ (?c = ?d \/ (?c = ?p /\ ?d = ?o)))
    with (same_but_nil (A := unit)
            (Halt (LogFatal "Unable to to unzip file inside archive: " (Some ErrInvalid)))
            (run env fl files0 dirs0) (zipOnly.run env fl files0 dirs0)).
  unfold run, zipOnly.run, main, zipOnly.main.
  destruct (help fl); [apply same_but_nil_refl |].
  destruct (WalkDir _ _ _ _) as [filesInDir [r|x]]; [| apply same_but_nil_refl].
  cbv zeta. rewrite (bool_decide_eq_false_2 _ Hext).
  apply same_but_nil_bind. intros opened w1.
  apply same_but_nil_bind. intros _ w2.
  unfold handleZip. apply forEach_versions. intros a w.
  destruct (OpenReader env a) as [reader|]; [| apply same_but_nil_refl].
  destruct (Abs env (outdir fl)) as [destination|]; [| apply same_but_nil_refl].
  apply unzipEntries_versions.
Qed.

(** X10 on two runs: with the aggregate file open the two versions
    end alike; when it cannot be opened they stop in the same state,
    one by the panic and one by the fatal log. *)
Lemma versions_agree_witness :
  run twoArchives (zipFlags "out") ∅ ∅ = zipOnly.run twoArchives (zipFlags "out") ∅ ∅
  /\ snd (run (withFaults twoArchives aggregateFails) (zipFlags "out") ∅ ∅)
     = Halt (Panic "nil pointer dereference")
  /\ snd (zipOnly.run (withFaults twoArchives aggregateFails) (zipFlags "out") ∅ ∅)
     = Halt (LogFatal "Unable to to unzip file inside archive: " (Some ErrInvalid)).
Proof.
  assert (Hext : filepath.Ext (ext (zipFlags "out")) <> ".gz") by (vm_compute; discriminate).
  split.
  - destruct (versions_agree twoArchives (zipFlags "out") ∅ ∅ Hext) as [Hf [Hs | [Hs _]]].
    + destruct (run _ _ _ _), (zipOnly.run _ _ _ _). simpl in *. congruence.
    + vm_compute in Hs. discriminate.
  - split; vm_compute; reflexivity.
Defined.

(** ** The gzip extractor *)

Lemma handleGz_outputs (env : Env) (l : list string) (ext outdir : string) :
  forall w w',
    unzipedFiles w = ∅ ->
    handleGz env l ext outdir w = (w', Ret tt) ->
    exists evs, trace w' = trace w ++ evs /\
                outputs evs = map (fun g => gostrings.TrimSuffix g ".gz") l.
Proof.
  unfold handleGz. induction l as [|g l IH]; intros w w' Hempty.
  - intros [= <-]. exists []. by rewrite app_nil_r.
  - rewrite forEach_cons.
    pose proof (extractGz_cases env g w) as (p & Hp & evs & Ht & _ & Hu & _ & Hr).
    cbv zeta in *. unfold target in Hp. rewrite Hempty, lookup_empty in Hp. subst p.
    destruct (extractGz env g w) as [w1 [[]|x]]; [| done]. simpl in *.
    destruct Hr as [(_ & c & d3 & _ & E) | (x & Hx & _)]; [| done].
    intros Hl. apply IH in Hl as (evs' & Ht' & Ho'); [| congruence].
    exists (evs ++ evs'). rewrite Ht', Ht, app_assoc. split; [done |].
    by rewrite outputs_app, Ho', E.
Qed.

(** X11. In the gzip mode, a run that returns has created one output
    file for each scanned input, in the order of the scan, each at the
    input's own path without a trailing [.gz]: nothing is ever
    renamed in this mode (the table stays empty), and the place does
    not depend on [-outdir]. *)
Theorem gzip_outputs_are_trimmed_inputs (env : Env) (fl : Flags)
    (files0 : gmap string (list byte)) (dirs0 : gset string) (w : World) :
  filepath.Ext (ext fl) = ".gz" ->
  run env fl files0 dirs0 = (w, Ret tt) ->
  outputs (trace w) = map (fun g => gostrings.TrimSuffix g ".gz") (scanned env fl).
Proof.
  intros Hext. unfold run, main, scanned. destruct (help fl); [done |].
  destruct (WalkDir _ _ _ _) as [filesInDir [r|x]]; [| done].
  cbv zeta. unfold bind, OpenFile. rewrite (bool_decide_eq_true_2 _ Hext).
  destruct (faulty env _ _) as [k|]; simpl; intros Hrun;
    apply handleGz_outputs in Hrun as (evs & Ht & Ho); try done;
    cbn [trace] in Ht; by rewrite Ht, outputs_app, Ho.
Qed.

Lemma gzip_outputs_are_trimmed_inputs_witness :
  outputs (trace (fst (run csvEnv (gzFlags "out") ∅ ∅))) = ["in/data.csv"].
Proof.
  rewrite (gzip_outputs_are_trimmed_inputs csvEnv (gzFlags "out") ∅ ∅
             (fst (run csvEnv (gzFlags "out") ∅ ∅))); reflexivity.
Defined.

(** X12. The gzip extractor creates its output file before it opens
    its input. For an input that cannot be opened, or that is not
    gzip data, the run ends (exit status 1 after printing the error,
    or a fatal log) with the output file created and empty: a file
    that was at the output path has lost its bytes, and nothing has
    been appended to the aggregate file for this input. *)
Theorem gzip_bad_input_leaves_empty_output (env : Env) (g : string) (w : World) :
  (forall s, openGz env g <> GzStream s) ->
  unzipedFiles w !! gostrings.TrimSuffix g ".gz" = None ->
  faulty env (trace w) (EvOpenFile (gostrings.TrimSuffix g ".gz") false 438) = None ->
  let r := extractGz env g w in
  trace (fst r) = trace w ++ [EvOpenFile (gostrings.TrimSuffix g ".gz") false 438]
  /\ files (fst r) !! resolve env (gostrings.TrimSuffix g ".gz") = Some []
  /\ snd r = Halt (match openGz env g with
                   | GzMissing => OsExit 1 (Some (PathError "open" g))
                   | _ => LogFatal "" (Some (ErrFormat g))
                   end).
Proof.
  intros Hbad Hfresh Hopen. cbv zeta.
  unfold extractGz, autoRenameRepeatedFiles, bind, OpenFile. cbv zeta.
  rewrite Hfresh, Hopen. unfold copyFileGz.
  destruct (openGz env g) as [| |s] eqn:Hg; simpl.
  - by rewrite lookup_insert_eq.
  - by rewrite lookup_insert_eq.
  - by destruct (Hbad s).
Qed.

(** X12 on an input that is not there: [in/other] is left empty. *)
Lemma gzip_bad_input_leaves_empty_output_witness :
  files (fst (extractGz csvEnv "in/other.gz"
                (start {[ "/w/in/other" := bytes "kept so far" ]} ∅)))
    !! resolve csvEnv (gostrings.TrimSuffix "in/other.gz" ".gz") = Some [].
Proof.
  apply (gzip_bad_input_leaves_empty_output csvEnv "in/other.gz"
           (start {[ "/w/in/other" := bytes "kept so far" ]} ∅)).
  - intros s. vm_compute. discriminate.
  - reflexivity.
  - reflexivity.
Defined.
